(** * guild.op_util: a shallow embedding of the operation execution engine

    The development follows [guild/op_util.py]: process supervision
    ([wait_for_proc], [_terminate]), run output capture ([RunOutput]),
    command templates ([_opdef_exec_and_run_attrs], [_apply_main_args],
    [_apply_flag_args_marker]) and flag value resolution
    ([flag_vals_for_opdef] and the functions it calls); then the command
    environment ([_op_cmd_env], [_apply_other_args]), the command line
    arguments ([args_to_flags], [parse_flag_assigns], [split_batch_files]),
    the Python path ([python_path_env]), the trials of batch files, the
    parameters of a restart, and the flags of config files in
    [guild/plugins/config_flags.py]. *)

From Stdlib Require Import ZArith QArith Qround Lia Lqa List Bool String Ascii.
From Stdlib Require Import SpecFloat Permutation.
Import ListNotations.

Close Scope Q_scope.

Set Implicit Arguments.

(** ** Results of fallible code

    Python code either returns a value or raises; [result E A] keeps the
    exception as data. *)

Inductive result (E A : Type) : Type :=
| Ok (a : A)
| Raise (e : E).

Arguments Ok {E A} a.
Arguments Raise {E A} e.

Definition bind {E A B} (r : result E A) (k : A -> result E B) : result E B :=
  match r with
  | Ok a => k a
  | Raise e => Raise e
  end.

Declare Scope result_scope.
Delimit Scope result_scope with result.
Notation "x <- r ;; k" := (bind r (fun x => k))
  (at level 61, r at next level, right associativity) : result_scope.
Notation "r ;;; k" := (bind r (fun _ => k))
  (at level 61, right associativity) : result_scope.

(** ** Process supervision: [wait_for_proc] and [_terminate] *)

Module Proc.

Local Open Scope Q_scope.

Definition DEFAULT_PROC_POLL_INTERVAL : Q := 5.
Definition DEFAULT_PROC_KILL_DELAY : Q := 30.

(** Return code of a child that died from the graceful signal (SIGTERM),
    as [Popen.returncode] reports it. *)
Definition RC_SIGTERM : Z := (-15)%Z.

Inductive exn : Type :=
| ProcessError.

(** The return codes [_terminate] returns: a clean exit and death from
    the graceful signal. *)
Definition graceful (rc : Z) : Prop := rc = 0%Z \/ rc = RC_SIGTERM.

(** Records written to the [guild] logger by the two functions. *)
Inductive logrec : Type :=
| InfoStoppingEarly
| WarnKilling.

Section Supervisor.

(** The process handle is supplied by the caller.  The supervisor only
    observes it ([poll]) and signals it ([terminate], [kill]); how the
    child reacts, and what it does while the supervisor sleeps
    ([elapse]), belongs to the child. *)
Variable proc : Type.
Variable poll : proc -> option Z.
Variable terminate : proc -> proc.
Variable kill : proc -> proc.
Variable elapse : Q -> proc -> proc.

(** What the code can observe and change: the clock read by
    [time.time()], the child, and the log. *)
Record world : Type := World {
  now : Q;
  child : proc;
  logged : list logrec
}.

(** [time.sleep(d)] *)
Definition sleep (d : Q) (w : world) : world :=
  World (now w + d) (elapse d (child w)) (logged w).

Definition signal (f : proc -> proc) (w : world) : world :=
  World (now w) (f (child w)) (logged w).

Definition log_ (r : logrec) (w : world) : world :=
  World (now w) (child w) (logged w ++ [r]).

Definition is_none {A} (o : option A) : bool :=
  match o with None => true | Some _ => false end.

Definition Qltb (a b : Q) : bool :=
  if Qlt_le_dec a b then true else false.

(** The loop of [_terminate]:
    [while p.poll() is None and time.time() < kill_at: time.sleep(poll_interval)].
    [None] stands for a loop that is still running when the fuel is spent. *)
Fixpoint terminate_loop (fuel : nat) (poll_interval kill_at : Q) (w : world)
  : option world :=
  match fuel with
  | O => None
  | S fuel' =>
      if is_none (poll (child w)) && Qltb (now w) kill_at
      then terminate_loop fuel' poll_interval kill_at (sleep poll_interval w)
      else Some w
  end.

(** The part of [_terminate] after its loop. *)
Definition terminate_finish (poll_interval : Q) (w : world)
  : result exn Z * world :=
  let w :=
    if is_none (poll (child w))
    then sleep poll_interval (signal kill (log_ WarnKilling w))
    else w in
  match poll (child w) with
  | Some rc =>
      if (rc =? 0)%Z || (rc =? RC_SIGTERM)%Z
      then (Ok rc, w)
      else (Raise ProcessError, w)
  | None => (Raise ProcessError, w)
  end.

(** The loop of [wait_for_proc].  [inl rc] is the early [return returncode],
    [inr w] the normal end of the loop. *)
Fixpoint wait_loop (fuel : nat) (poll_interval stop_at : Q) (w : world)
  : option (Z * world + world) :=
  match fuel with
  | O => None
  | S fuel' =>
      if Qltb (now w) stop_at
      then match poll (child w) with
           | Some rc => Some (inl (rc, w))
           | None => wait_loop fuel' poll_interval stop_at (sleep poll_interval w)
           end
      else Some (inr w)
  end.

(** [x or default] on an optional number: [None] and zero are falsy. *)
Definition or_default (x : option Q) (d : Q) : Q :=
  match x with
  | Some q => if Qeq_bool q 0 then d else q
  | None => d
  end.

(** Number of iterations after which a loop that sleeps [step] per
    iteration has passed [deadline]. *)
Definition iterations (step deadline : Q) (w : world) : nat :=
  S (Z.to_nat (Qceiling ((deadline - now w) / step))).

(** [_terminate] up to the end of its loop: the graceful signal is sent
    and the child is polled until it has exited or [kill_delay] has
    passed. *)
Definition grace_period (poll_interval kill_delay : Q) (w : world)
  : option world :=
  let kill_at := now w + kill_delay in
  terminate_loop (iterations poll_interval kill_at w) poll_interval kill_at
    (signal terminate w).

Definition _terminate (poll_interval kill_delay : Q) (w : world)
  : option (result exn Z * world) :=
  match grace_period poll_interval kill_delay w with
  | None => None
  | Some w => Some (terminate_finish poll_interval w)
  end.

Definition wait_for_proc (stop_after_min : Q)
    (poll_interval kill_delay : option Q) (w : world)
  : option (result exn Z * world) :=
  let poll_interval := or_default poll_interval DEFAULT_PROC_POLL_INTERVAL in
  let kill_delay := or_default kill_delay DEFAULT_PROC_KILL_DELAY in
  let stop_at := now w + stop_after_min * 60 in
  match wait_loop (iterations poll_interval stop_at w) poll_interval stop_at w with
  | None => None
  | Some (inl (rc, w)) => Some (Ok rc, w)
  | Some (inr w) =>
      _terminate poll_interval kill_delay (log_ InfoStoppingEarly w)
  end.

End Supervisor.

(** A child that ignores the graceful signal and dies from the forced
    kill; [Popen.returncode] is then [-9] (SIGKILL). *)
Module Stubborn.

Inductive proc : Type :=
| Running
| Killed.

Definition poll (p : proc) : option Z :=
  match p with
  | Running => None
  | Killed => Some (-9)%Z
  end.

Definition terminate (p : proc) : proc := p.
Definition kill (_ : proc) : proc := Killed.
Definition elapse (_ : Q) (p : proc) : proc := p.

Definition start : world proc := World 0 Running [].

(** [wait_for_proc(p, 1)] with the default poll interval and kill delay *)
Definition supervised : option (result exn Z * world proc) :=
  wait_for_proc poll terminate kill elapse 1 None None start.

End Stubborn.

End Proc.

(** ** Command templates: [_opdef_exec_and_run_attrs], [_apply_main_args],
       [_apply_flag_args_marker] *)

Module Cmd.

Local Open Scope string_scope.

Definition MAIN_EXEC : string :=
  "${python_exe} -um guild.op_main ${main_args} -- ${flag_args}".
Definition STEPS_EXEC : string :=
  "${guild_python_exe} -um guild.steps_main".

Definition MAIN_ARGS : string := "${main_args}".
Definition FLAG_ARGS : string := "${flag_args}".
Definition FLAG_ARGS_MARKER : string := "__flag_args__".

(** The attributes of an operation definition read here.  Each may be
    unset ([None]); [step] is whatever a step entry of the Guild file is. *)
Record opdef (step : Type) : Type := OpDef {
  fullname : string;
  exec_ : option string;
  main : option string;
  steps : option (list step)
}.

Arguments OpDef {step} fullname exec_ main steps.

(** Python truthiness of an optional string and of an optional list. *)
Definition str_truthy (x : option string) : bool :=
  match x with
  | Some s => negb (s =? "")
  | None => false
  end.

Definition list_truthy {A} (x : option (list A)) : bool :=
  match x with
  | Some (_ :: _) => true
  | _ => false
  end.

Inductive exn (step : Type) : Type :=
| InvalidOpDef (o : opdef step) (msg : string).

(** [log.warning] calls of [_opdef_exec_and_run_attrs] *)
Inductive warning : Type :=
| ExecAndMain
| ExecAndSteps
| MainAndSteps.

(** Run attributes: a dict from attribute name to the step list. *)
Definition run_attrs (step : Type) : Type := list (string * option (list step)).

Definition _run_attrs_for_steps {step} (o : opdef step) : run_attrs step :=
  [("steps", steps o)].

Definition warn_if (b : bool) (w : warning) : list warning :=
  if b then [w] else [].

(** Returns the warnings logged and either the exec template with the
    run attributes ([None] for Python's [None]) or the exception. *)
Definition _opdef_exec_and_run_attrs {step} (o : opdef step)
  : list warning * result (exn step) (option string * option (run_attrs step)) :=
  if str_truthy (exec_ o) then
    ((warn_if (str_truthy (main o)) ExecAndMain
        ++ warn_if (list_truthy (steps o)) ExecAndSteps)%list,
     Ok (exec_ o, None))
  else if str_truthy (main o) then
    (warn_if (list_truthy (steps o)) MainAndSteps,
     Ok (Some MAIN_EXEC, None))
  else if list_truthy (steps o) then
    ([], Ok (Some STEPS_EXEC, Some (_run_attrs_for_steps o)))
  else
    ([], Raise (InvalidOpDef o "must define either exec, main, or steps")).

(** [exec_args[i:i + 1] = main_args] *)
Definition splice_at (i : nat) (main_args exec_args : list string) : list string :=
  (firstn i exec_args ++ main_args ++ skipn (i + 1) exec_args)%list.

(** The [while] loop of [_apply_main_args], on the index [i] and the list
    it mutates.  [None]: the loop is still running when the fuel is spent. *)
Fixpoint apply_main_args_loop (fuel : nat) (main_args : list string)
    (i : nat) (exec_args : list string) : option (list string) :=
  match fuel with
  | O => None
  | S fuel' =>
      if (i <? List.length exec_args)%nat then
        match nth_error exec_args i with
        | Some tok =>
            if tok =? MAIN_ARGS then
              let exec_args := splice_at i main_args exec_args in
              let i := i + List.length main_args in
              apply_main_args_loop fuel' main_args (i + 1) exec_args
            else
              apply_main_args_loop fuel' main_args (i + 1) exec_args
        | None => None
        end
      else Some exec_args
  end.

Definition _apply_main_args (main_args exec_args : list string)
  : option (list string) :=
  apply_main_args_loop (S (List.length exec_args)) main_args 0 exec_args.

(** [exec_args[i] = "__flag_args__"] for every index holding the
    placeholder; the list keeps its length, so the loop is a map. *)
Definition _apply_flag_args_marker (exec_args : list string) : list string :=
  map (fun val => if val =? FLAG_ARGS then FLAG_ARGS_MARKER else val) exec_args.

(** What replacing every occurrence of the placeholder by the tokens of
    the main spec gives. *)
Definition replace_every (main_args exec_args : list string) : list string :=
  flat_map (fun tok => if tok =? MAIN_ARGS then main_args else [tok]) exec_args.

(** The list [_apply_main_args] computes, by recursion on the template:
    the token that follows a placeholder is copied without being looked at. *)
Fixpoint spliced (main_args exec_args : list string) : list string :=
  match exec_args with
  | [] => []
  | tok :: rest =>
      if tok =? MAIN_ARGS then
        (main_args ++
           match rest with
           | [] => []
           | next :: rest' => next :: spliced main_args rest'
           end)%list
      else tok :: spliced main_args rest
  end.

(** The two placeholder passes of [_op_cmd_args_and_run_attrs], in its
    order, on the tokens of the exec template and of the main spec. *)
Definition expand_placeholders (main_args exec_args : list string)
  : option (list string) :=
  option_map _apply_flag_args_marker (_apply_main_args main_args exec_args).

(** No placeholder directly follows another one. *)
Fixpoint no_adjacent (exec_args : list string) : bool :=
  match exec_args with
  | tok :: (next :: _) as rest =>
      negb ((tok =? MAIN_ARGS) && (next =? MAIN_ARGS)) && no_adjacent rest
  | _ => true
  end.

End Cmd.

(** ** Run output: the reader loops of [RunOutput] *)

Module Tee.

Local Open Scope Z_scope.

(** A byte is the integer that iterating over [bytes] yields. *)
Definition byte : Type := Z.

Definition LF : byte := 10.

Definition RUN_OUTPUT_STREAM_BUFFER : Z := 4096.

(** The two reader threads, by the [stream_type] they pass on. *)
Inductive stream : Type :=
| Out
| Err.

Definition stream_type (s : stream) : Z :=
  match s with
  | Out => 0
  | Err => 1
  end.

Inductive exn : Type :=
| StructError.

(** [n] bytes of [z], most significant first *)
Fixpoint be_bytes (n : nat) (z : Z) : list byte :=
  match n with
  | O => []
  | S n' => be_bytes n' (z / 256) ++ [z mod 256]
  end.

(** [struct.pack("!QB", ts, tag)]: an unsigned 64-bit integer in network
    byte order, then one unsigned byte; a value out of range is an error. *)
Definition pack_QB (ts tag : Z) : result exn (list byte) :=
  if (0 <=? ts) && (ts <? 2 ^ 64) && (0 <=? tag) && (tag <? 256)
  then Ok (be_bytes 8 ts ++ [tag])
  else Raise StructError.

Section Reader.

(** [time_ms k] is the value of [int(time.time() * 1000)] at the [k]-th
    reading of the clock. *)
Variable time_ms : nat -> Z.

(** The output callback: [cb_write c line] is the callback after
    [write(line)], and whether the call raised. *)
Variable callback : Type.
Variable cb_write : callback -> list byte -> callback * bool.

(** What the reader threads share, and what each keeps for itself:
    the bytes of the [output] and [output.index] files, the bytes mirrored
    to [sys.stdout] and [sys.stderr], the callback, the number of clock
    readings made, the [line] list of each thread and whether the thread has
    left its loop. *)
Record state : Type := State {
  output : list byte;
  index : list byte;
  mirrored : stream -> list byte;
  _output_cb : option callback;
  cb_errors : nat;
  clock_reads : nat;
  line : stream -> list byte;
  exited : stream -> bool
}.

Definition stream_eqb (a b : stream) : bool :=
  match a, b with
  | Out, Out | Err, Err => true
  | _, _ => false
  end.

Definition upd {A} (f : stream -> A) (s : stream) (x : A) : stream -> A :=
  fun s' => if stream_eqb s s' then x else f s'.

Definition set_line (st : state) (s : stream) (l : list byte) : state :=
  State (output st) (index st) (mirrored st) (_output_cb st) (cb_errors st)
        (clock_reads st) (upd (line st) s l) (exited st).

Definition set_exited (st : state) (s : stream) : state :=
  State (output st) (index st) (mirrored st) (_output_cb st) (cb_errors st)
        (clock_reads st) (line st) (upd (exited st) s true).

(** [_output_eol]: one index entry, then the callback.  A callback that
    raises is logged and removed. *)
Definition _output_eol (st : state) (line_bytes : list byte) (s : stream)
  : result exn state :=
  match pack_QB (time_ms (clock_reads st)) (stream_type s) with
  | Raise e => Raise e
  | Ok entry =>
      let index' := index st ++ entry in
      let reads' := S (clock_reads st) in
      match _output_cb st with
      | None =>
          Ok (State (output st) index' (mirrored st) None (cb_errors st)
                    reads' (line st) (exited st))
      | Some c =>
          let (c', raised) := cb_write c line_bytes in
          if raised
          then Ok (State (output st) index' (mirrored st) None (S (cb_errors st))
                         reads' (line st) (exited st))
          else Ok (State (output st) index' (mirrored st) (Some c') (cb_errors st)
                         reads' (line st) (exited st))
      end
  end.

(** [for b in buf: ...] of [_gen_tee_run] *)
Fixpoint scan (buf : list byte) (s : stream) (st : state) : result exn state :=
  match buf with
  | [] => Ok st
  | b :: buf' =>
      if b <? 9 then scan buf' s st
      else
        let st := set_line st s (line st s ++ [b]) in
        if b =? LF then
          match _output_eol st (line st s) s with
          | Raise e => Raise e
          | Ok st => scan buf' s (set_line st s [])
          end
        else scan buf' s st
  end.

(** [mirror s] tells whether the thread of [s] has a [stream_fileno] to
    write to: the output is not quiet and the stream has a file number. *)
Variable mirror : stream -> bool.

Definition write_chunk (st : state) (s : stream) (buf : list byte) : state :=
  State (output st ++ buf) (index st)
        (if mirror s then upd (mirrored st) s (mirrored st s ++ buf) else mirrored st)
        (_output_cb st) (cb_errors st) (clock_reads st) (line st) (exited st).

(** One iteration of the [while True] loop of the thread of [s], for the
    bytes [buf] that [os.read] returned.  A chunk is handled with the output
    lock held, so the chunks of the two threads do not overlap; an empty
    read ends the loop, after one entry for a line that is still pending.
    An exception ends the thread. *)
Definition tee_step (st : state) (s : stream) (buf : list byte) : state :=
  if exited st s then st
  else
    match buf with
    | [] =>
        match line st s with
        | [] => set_exited st s
        | l =>
            match _output_eol st l s with
            | Ok st => set_exited st s
            | Raise _ => set_exited st s
            end
        end
    | _ =>
        let st := write_chunk st s buf in
        match scan buf s st with
        | Ok st => st
        | Raise _ => set_exited st s
        end
    end.

(** The two threads run as the reads arrive. *)
Definition tee_run (reads : list (stream * list byte)) (st : state) : state :=
  fold_left (fun st r => tee_step st (fst r) (snd r)) reads st.

(** The threads at [open]: empty files, nothing read. *)
Definition started (cb : option callback) : state :=
  State [] [] (fun _ => []) cb 0%nat 0%nat (fun _ => []) (fun _ => false).

End Reader.

(** Reading the index file back: records of 9 bytes, a big-endian
    timestamp and a tag. *)
Definition be_value (bs : list byte) : Z :=
  fold_left (fun acc b => acc * 256 + b) bs 0.

Fixpoint index_records (fuel : nat) (bs : list byte) : option (list (Z * Z)) :=
  match bs with
  | [] => Some []
  | _ =>
      match fuel with
      | O => None
      | S fuel' =>
          match skipn 8 bs with
          | tag :: rest =>
              option_map (cons (be_value (firstn 8 bs), tag))
                         (index_records fuel' rest)
          | [] => None
          end
      end
  end.

Definition parse_index (bs : list byte) : option (list (Z * Z)) :=
  index_records (List.length bs) bs.

(** Number of line feeds in a chunk. *)
Definition count_lf (buf : list byte) : nat :=
  List.length (filter (fun b => b =? LF) buf).

(** The bytes read from [s], in order. *)
Definition bytes_of (s : stream) (reads : list (stream * list byte)) : list byte :=
  flat_map (fun r => if stream_eqb s (fst r) then snd r else []) reads.

(** The stream of each line feed, in the order the reads arrive. *)
Definition line_sources (reads : list (stream * list byte)) : list stream :=
  flat_map (fun r => repeat (fst r) (count_lf (snd r))) reads.

(** Every read is made by a thread that is still in its loop: a thread
    reads nothing after an empty read. *)
Fixpoint schedule_ok (exited : stream -> bool) (reads : list (stream * list byte))
  : Prop :=
  match reads with
  | [] => True
  | (s, buf) :: reads' =>
      exited s = false /\
      schedule_ok (match buf with [] => upd exited s true | _ => exited end) reads'
  end.

(** The index entries of lines that end at clock readings [k], [k + 1], ...
    on the streams [srcs], and the records they stand for. *)
Fixpoint entries (time_ms : nat -> Z) (k : nat) (srcs : list stream) : list byte :=
  match srcs with
  | [] => []
  | s :: srcs' =>
      be_bytes 8 (time_ms k) ++ [stream_type s] ++ entries time_ms (S k) srcs'
  end.

Fixpoint stamped (time_ms : nat -> Z) (k : nat) (srcs : list stream) : list (Z * Z) :=
  match srcs with
  | [] => []
  | s :: srcs' => (time_ms k, stream_type s) :: stamped time_ms (S k) srcs'
  end.

(** [st'] is [st] with index entries for lines from [srcs] added. *)
Definition emits {callback} (time_ms : nat -> Z) (st st' : state callback)
    (srcs : list stream) : Prop :=
  index st' = index st ++ entries time_ms (clock_reads st) srcs /\
  clock_reads st' = (clock_reads st + List.length srcs)%nat.

(** The fields an index entry does not touch. *)
Definition same_rest {callback} (st st' : state callback) : Prop :=
  line st' = line st /\ exited st' = exited st /\ output st' = output st.

(** Scenario C: "hello\n" arrives on stdout, then "world\n" on stderr;
    both pipes are then at their end.  The clock shows milliseconds since
    the epoch. *)
Module ScenarioC.

Definition hello : list byte := [104; 101; 108; 108; 111; 10].
Definition world : list byte := [119; 111; 114; 108; 100; 10].

Definition reads : list (stream * list byte) :=
  [(Out, hello); (Err, world); (Out, []); (Err, [])].

Definition time_ms (k : nat) : Z := 1700000000000 + Z.of_nat (Nat.min k 1000).

(** A callback that counts the lines and fails on none. *)
Definition cb_write (c : nat) (_ : list byte) : nat * bool := (S c, false).

Definition final : state nat :=
  tee_run time_ms cb_write (fun _ => true) reads (started (Some 0%nat)).

End ScenarioC.

(** The [line] list of a thread after it has scanned [buf]. *)
Fixpoint pending (buf : list byte) (l : list byte) : list byte :=
  match buf with
  | [] => l
  | b :: buf' =>
      if b <? 9 then pending buf' l
      else if b =? LF then pending buf' []
      else pending buf' (l ++ [b])
  end.

End Tee.

(** ** Run output: [open], [wait] and [close] of [RunOutput] *)

Module RunOutput.

Local Open Scope string_scope.

Inductive exn : Type :=
| RuntimeError (msg : string)
| AssertionError.

(** The process handed to [open]: its pipes, [None] when the stream was
    not redirected. *)
Record proc : Type := Proc {
  stdout : option nat;
  stderr : option nat
}.

Record file : Type := File {
  path : string;
  closed_ : bool
}.

Record thread : Type := Thread {
  target : Tee.stream;
  is_alive : bool
}.

(** An output callback, as far as [close] is concerned: whether its
    [close()] raises. *)
Record callback : Type := Callback {
  close_raises : bool
}.

(** The attributes of a [RunOutput] object, and the records of
    [log.exception]. *)
Record t : Type := Obj {
  _quiet : bool;
  _output_cb : option callback;
  _open : bool;
  _proc : option proc;
  _output : option file;
  _index : option file;
  _out_tee : option thread;
  _err_tee : option thread;
  logged : list string
}.

(** [RunOutput(run, quiet, output_cb)] *)
Definition __init__ (quiet : bool) (output_cb : option callback) : t :=
  Obj quiet output_cb false None None None None None [].

Definition closed (self : t) : bool := negb (_open self).

Definition is_some {A} (o : option A) : bool :=
  match o with Some _ => true | None => false end.

Definition assert (b : bool) : result exn unit :=
  if b then Ok tt else Raise AssertionError.

Local Open Scope result_scope.

Definition _assert_closed (self : t) : result exn unit :=
  if _open self then Raise (RuntimeError "already open")
  else
    assert (negb (is_some (_proc self))) ;;;
    assert (negb (is_some (_output self))) ;;;
    assert (negb (is_some (_index self))) ;;;
    assert (negb (is_some (_out_tee self))) ;;;
    assert (negb (is_some (_err_tee self))).

(** [open(proc)].  The two files are created and the reader threads
    started; creating the files is taken to succeed. *)
Definition open (self : t) (p : proc) : result exn unit * t :=
  match _assert_closed self with
  | Raise e => (Raise e, self)
  | Ok _ =>
      match stdout p with
      | None => (Raise (RuntimeError "proc stdout must be a PIPE"), self)
      | Some _ =>
          (Ok tt,
           Obj (_quiet self) (_output_cb self) true (Some p)
               (Some (File "output" false)) (Some (File "output.index" false))
               (Some (Thread Tee.Out true))
               (if is_some (stderr p) then Some (Thread Tee.Err true)
                else _err_tee self)
               (logged self))
      end
  end.

Definition _assert_open (self : t) : result exn unit :=
  if negb (_open self) then Raise (RuntimeError "not open")
  else
    assert (is_some (_proc self)) ;;;
    assert (is_some (_output self)) ;;;
    assert (is_some (_index self)) ;;;
    assert (is_some (_out_tee self)) ;;;
    assert (negb (match _proc self with
                  | Some p => is_some (stderr p)
                  | None => false
                  end)
            || is_some (_err_tee self)).

Definition join (th : option thread) : option thread :=
  option_map (fun th => Thread (target th) false) th.

(** [wait()], when it returns: [join] blocks until the thread has left its
    loop, which it does when its pipe is closed. *)
Definition wait (self : t) : result exn unit * t :=
  match _assert_open self with
  | Raise e => (Raise e, self)
  | Ok _ =>
      (Ok tt,
       Obj (_quiet self) (_output_cb self) (_open self) (_proc self)
           (_output self) (_index self)
           (join (_out_tee self)) (join (_err_tee self)) (logged self))
  end.

Definition close_file (f : option file) : option file :=
  option_map (fun f => File (path f) true) f.

Definition thread_alive (th : option thread) : bool :=
  match th with
  | Some th => is_alive th
  | None => false
  end.

Definition _close (self : t) : result exn unit * t :=
  match _assert_open self with
  | Raise e => (Raise e, self)
  | Ok _ =>
      let self :=
        Obj (_quiet self) (_output_cb self) (_open self) (_proc self)
            (close_file (_output self)) (close_file (_index self))
            (_out_tee self) (_err_tee self)
            (match _output_cb self with
             | Some cb =>
                 if close_raises cb
                 then (logged self ++ ["closing output callback"])%list
                 else logged self
             | None => logged self
             end) in
      if thread_alive (_out_tee self) then (Raise AssertionError, self)
      else if thread_alive (_err_tee self) then (Raise AssertionError, self)
      else
        (Ok tt,
         Obj (_quiet self) (_output_cb self) false None None None None None
             (logged self))
  end.

(** [close()].  [acquired] tells whether [_acquire_output_lock] got the
    lock within its timeout; the lock is released again in either case of
    [_close]. *)
Definition close (self : t) (acquired : bool) : result exn unit * t :=
  if acquired then _close self
  else (Raise (RuntimeError "timeout"), self).

(** What can happen to an object: the three methods, and the reader
    threads leaving their loops because the pipes were closed. *)
Inductive event : Type :=
| CallOpen (p : proc)
| CallWait
| CallClose (acquired : bool)
| PipesClosed.

Definition step (self : t) (e : event) : result exn unit * t :=
  match e with
  | CallOpen p => open self p
  | CallWait => wait self
  | CallClose acquired => close self acquired
  | PipesClosed =>
      (Ok tt,
       Obj (_quiet self) (_output_cb self) (_open self) (_proc self)
           (_output self) (_index self)
           (join (_out_tee self)) (join (_err_tee self)) (logged self))
  end.

(** A caller may go on after an exception, so a run keeps the object and
    collects the outcome of each event. *)
Fixpoint run (es : list event) (self : t) : list (result exn unit) * t :=
  match es with
  | [] => ([], self)
  | e :: es' =>
      let (r, self) := step self e in
      let (rs, self) := run es' self in
      (r :: rs, self)
  end.

Definition reachable (self : t) : Prop :=
  exists quiet cb es, self = snd (run es (__init__ quiet cb)).

(** The object as [__init__] and a completed [close] leave it. *)
Definition pristine (self : t) : Prop :=
  _open self = false /\ _proc self = None /\ _output self = None /\
  _index self = None /\ _out_tee self = None /\ _err_tee self = None.

(** The object between a completed [open] and a completed [close]. *)
Definition opened (self : t) : Prop :=
  _open self = true /\
  is_some (_output self) = true /\ is_some (_index self) = true /\
  is_some (_out_tee self) = true /\
  exists p, _proc self = Some p /\ is_some (stdout p) = true /\
            (is_some (stderr p) = true -> is_some (_err_tee self) = true).

(** A process with both streams piped, and the calls
    [open(p); wait(); close(); open(p)] on a new object. *)
Definition piped : proc := Proc (Some 3) (Some 4).

Definition reopened : list (result exn unit) * t :=
  run [CallOpen piped; CallWait; CallClose true; CallOpen piped]
      (__init__ false None).

End RunOutput.

(** ** Python values *)

Module Py.

Local Open Scope string_scope.

(** The values a flag can take: what YAML scalars and lists decode to.
    A float is an IEEE 754 binary64 number. *)
#[warnings="-register-all"]
Inductive val : Type :=
| None_
| Bool (b : bool)
| Int (z : Z)
| Float (f : spec_float)
| Str (s : string)
| List_ (l : list val).

(** [bool(v)], the truth value that [if v], [not v] and [v or w] use. *)
Definition truthy (v : val) : bool :=
  match v with
  | None_ => false
  | Bool b => b
  | Int z => negb (z =? 0)%Z
  | Float (S754_zero _) => false
  | Float _ => true
  | Str s => negb (s =? "")
  | List_ l => match l with [] => false | _ => true end
  end.

(** [v or w] *)
Definition or_ (v w : val) : val := if truthy v then v else w.

Definition is_none (v : val) : bool :=
  match v with None_ => true | _ => false end.

(** An integer and a float are equal when they are the same number. *)
Definition float_eq_int (f : spec_float) (z : Z) : bool :=
  match f with
  | S754_zero _ => (z =? 0)%Z
  | S754_finite s m e =>
      let n := if s then Z.neg m else Z.pos m in
      if (0 <=? e)%Z then (z =? n * 2 ^ e)%Z else (z * 2 ^ (- e) =? n)%Z
  | _ => false
  end.

Definition binary64_eqb : spec_float -> spec_float -> bool := SFeqb.

(** [v == w].  [bool] is a subclass of [int], so booleans compare as 0
    and 1. *)
Fixpoint eqb (v w : val) {struct v} : bool :=
  let int_of (b : bool) : Z := if b then 1%Z else 0%Z in
  match v, w with
  | None_, None_ => true
  | Bool a, Bool b => Bool.eqb a b
  | Bool a, Int z | Int z, Bool a => (int_of a =? z)%Z
  | Bool a, Float f | Float f, Bool a => float_eq_int f (int_of a)
  | Int a, Int b => (a =? b)%Z
  | Int z, Float f | Float f, Int z => float_eq_int f z
  | Float f, Float g => binary64_eqb f g
  | Str s, Str t => (s =? t)
  | List_ l, List_ m =>
      (fix all2 (l m : list val) {struct l} : bool :=
         match l, m with
         | [], [] => true
         | x :: l', y :: m' => eqb x y && all2 l' m'
         | _, _ => false
         end) l m
  | _, _ => false
  end.

Definition isinstance_float (v : val) : bool :=
  match v with Float _ => true | _ => false end.

(** [isinstance(v, (float, int))] *)
Definition isinstance_float_int (v : val) : bool :=
  match v with Float _ | Int _ | Bool _ => true | _ => false end.

Definition isinstance_str (v : val) : bool :=
  match v with Str _ => true | _ => false end.

(** A [dict] with string keys: the items in insertion order, every key
    once. *)
Definition dict : Type := list (string * val).

(** [d.get(k)], which is [None] for a missing key *)
Fixpoint get (d : dict) (k : string) : val :=
  match d with
  | [] => None_
  | (k', v) :: d' => if k' =? k then v else get d' k
  end.

(** [k in d] *)
Fixpoint mem (k : string) (d : dict) : bool :=
  match d with
  | [] => false
  | (k', _) :: d' => (k' =? k) || mem k d'
  end.

(** [d[k] = v]: an existing key keeps its place, a new one goes last. *)
Fixpoint set (d : dict) (k : string) (v : val) : dict :=
  match d with
  | [] => [(k, v)]
  | (k', v') :: d' => if k' =? k then (k', v) :: d' else (k', v') :: set d' k v
  end.

(** [d.pop(k)] for a key that is present: the dict without it *)
Fixpoint remove (d : dict) (k : string) : dict :=
  match d with
  | [] => []
  | (k', v') :: d' => if k' =? k then d' else (k', v') :: remove d' k
  end.

End Py.

(** ** Flag values: [flag_vals_for_opdef] and the functions it calls *)

Module Flags.

Import Py.
Local Open Scope string_scope.

(** A choice of a flag: [value], [alias] ([None] when unset) and the
    flag values it implies ([flags]). *)
Record choice : Type := Choice {
  cvalue : val;
  calias : val;
  cflags : dict
}.

(** The attributes of a flag definition used here.  [type_], [alias],
    [min_], [max_] and [arg_split] are [None] when unset. *)
Record flagdef : Type := FlagDef {
  name : string;
  alias : option string;
  type_ : option string;
  default : val;
  required : bool;
  min_ : val;
  max_ : val;
  choices : list choice;
  allow_other : bool;
  arg_split : val
}.

(** Exceptions of Python and its library, and the flag errors of the
    module. *)
Inductive pyexn : Type :=
| ValueError (msg : string)
| TypeError (msg : string)
| OtherError (msg : string).

Inductive exn : Type :=
| Builtin (e : pyexn)
| MissingRequiredFlags (missing : list flagdef)
| InvalidFlagChoice (v : val) (flag : flagdef)
| InvalidFlagValue (v : val) (flag : flagdef) (msg : string)
| NoSuchFlagError (flag_name : string)
| AliasAndNameSpecifiedError (alias_ flag_name : string).

Coercion Builtin : pyexn >-> exn.

(** A call into Python or another module, with its exception passed on. *)
Definition call {A} (r : result pyexn A) : result exn A :=
  match r with
  | Ok a => Ok a
  | Raise e => Raise (Builtin e)
  end.

(** What the module takes from Python and from the modules it imports:
    conversions of the builtin types that read or print numbers, [<],
    [os.path] and [guild.flag_util]. *)
Record runtime : Type := Runtime {
  (** [str(v)] for a value that is not a string *)
  repr : val -> string;
  (** [int(s)] and [float(s)] for a string; [None] is a [ValueError] *)
  int_of_str : string -> option Z;
  float_of_str : string -> option spec_float;
  (** [float(z)] for an integer; [None] is an [OverflowError] *)
  float_of_int : Z -> option spec_float;
  (** [v < w] *)
  lt : val -> val -> result pyexn bool;
  expanduser : string -> string;
  isabs : string -> bool;
  abspath : string -> string;
  exists_ : val -> bool;
  is_flag_function : val -> bool;
  split_encoded_flag_val : string -> val -> result pyexn (list string);
  join_splittable_flag_vals : list val -> val -> result pyexn string;
  encode_flag_val : val -> string;
  decode_flag_val : string -> val
}.

Local Open Scope result_scope.

Section WithRuntime.

Variable rt : runtime.

(** [str(v)] *)
Definition str (v : val) : result pyexn val :=
  match v with
  | Str s => Ok (Str s)
  | _ => Ok (Str (repr rt v))
  end.

(** [int(v)].  A float is cut towards zero; the callers here never pass
    one. *)
Definition int (v : val) : result pyexn val :=
  match v with
  | Int z => Ok (Int z)
  | Bool b => Ok (Int (if b then 1 else 0))
  | Str s =>
      match int_of_str rt s with
      | Some z => Ok (Int z)
      | None => Raise (ValueError "invalid literal for int()")
      end
  | Float (S754_zero _) => Ok (Int 0)
  | Float (S754_finite sgn m e) =>
      let n := if (0 <=? e)%Z then (Z.pos m * 2 ^ e)%Z else (Z.pos m / 2 ^ (- e))%Z in
      Ok (Int (if sgn then (- n)%Z else n))
  | Float S754_nan => Raise (ValueError "cannot convert float NaN to integer")
  | Float (S754_infinity _) =>
      Raise (OtherError "OverflowError: cannot convert float infinity to integer")
  | None_ | List_ _ => Raise (TypeError "int() argument must be a string or a number")
  end.

(** [float(v)] *)
Definition float (v : val) : result pyexn val :=
  let of_int (z : Z) :=
    match float_of_int rt z with
    | Some f => Ok (Float f)
    | None => Raise (OtherError "OverflowError: int too large to convert to float")
    end in
  match v with
  | Float f => Ok (Float f)
  | Int z => of_int z
  | Bool b => of_int (if b then 1%Z else 0%Z)
  | Str s =>
      match float_of_str rt s with
      | Some f => Ok (Float f)
      | None => Raise (ValueError "could not convert string to float")
      end
  | None_ | List_ _ => Raise (TypeError "float() argument must be a string or a number")
  end.

(** [bool(v)] *)
Definition bool_ (v : val) : result pyexn val := Ok (Bool (truthy v)).

(** [_try_coerce_flag_val]: the first of [funs] that does not raise a
    [ValueError] gives the result; any other exception is passed on. *)
Fixpoint _try_coerce_flag_val (v : val) (funs : list (val -> result pyexn val))
    (flagdef_type : string) : result pyexn val :=
  match funs with
  | [] => Raise (ValueError ("invalid value for type '" ++ flagdef_type ++ "'"))
  | f :: funs' =>
      match f v with
      | Raise (ValueError _) => _try_coerce_flag_val v funs' flagdef_type
      | r => r
      end
  end.

Definition _resolve_rel_path (v : val) : result pyexn val :=
  match v with
  | Str s =>
      let s := expanduser rt s in
      if negb (s =? "") && negb (isabs rt s)
      then Ok (Str (abspath rt s))
      else Ok (Str s)
  | _ => Raise (TypeError "expected str, bytes or os.PathLike object")
  end.

(** [flagdef.type], where the callers have checked that it is set *)
Definition type_name (fd : flagdef) : string :=
  match type_ fd with
  | Some t => t
  | None => ""
  end.

Definition _coerce_typed_flag_value (v : val) (fd : flagdef) : result pyexn val :=
  let t := type_name fd in
  if t =? "string" then _try_coerce_flag_val v [str] t
  else if t =? "int" then
    if isinstance_float v then Raise (ValueError "invalid value for type 'int'")
    else _try_coerce_flag_val v [int] t
  else if t =? "float" then _try_coerce_flag_val v [float] t
  else if t =? "boolean" then _try_coerce_flag_val v [bool_] t
  else if t =? "number" then
    if isinstance_float_int v then Ok v
    else _try_coerce_flag_val v [int; float] t
  else if (t =? "path") || (t =? "existing-path") then _resolve_rel_path v
  else Ok v.

Definition _ensure_encoded_flag_val (v : val) : string :=
  match v with
  | Str s => s
  | _ => encode_flag_val rt v
  end.

(** [[f(x) for x in xs]] *)
Fixpoint for_each {E A B} (f : A -> result E B) (xs : list A) : result E (list B) :=
  match xs with
  | [] => Ok []
  | x :: xs' =>
      y <- f x ;;
      ys <- for_each f xs' ;;
      Ok (y :: ys)
  end.

Definition _coerce_flag_val_split_parts (v : val) (fd : flagdef) : result pyexn val :=
  let encoded := _ensure_encoded_flag_val v in
  parts <- split_encoded_flag_val rt encoded (arg_split fd) ;;
  coerced <- for_each (fun part => _coerce_typed_flag_value (Str part) fd) parts ;;
  joined <- join_splittable_flag_vals rt coerced (arg_split fd) ;;
  Ok (Str joined).

Definition type_unset_or_auto (fd : flagdef) : bool :=
  match type_ fd with
  | None => true
  | Some t => (t =? "") || (t =? "auto")
  end.

(** [coerce_flag_value(val, flagdef)] for a flag definition that was
    found. *)
Fixpoint coerce_flag_value (v : val) (fd : flagdef) {struct v} : result pyexn val :=
  if is_none v || type_unset_or_auto fd || is_flag_function rt v then Ok v
  else
    match v with
    | List_ l =>
        l' <- (fix each (l : list val) : result pyexn (list val) :=
                 match l with
                 | [] => Ok []
                 | x :: l' =>
                     y <- coerce_flag_value x fd ;;
                     ys <- each l' ;;
                     Ok (y :: ys)
                 end) l ;;
        Ok (List_ l')
    | _ =>
        if truthy (arg_split fd) then _coerce_flag_val_split_parts v fd
        else _coerce_typed_flag_value v fd
    end.

(** [str(e)] of the exception caught in [_coerced_flag_value] *)
Definition exn_message (e : pyexn) : string :=
  match e with
  | ValueError msg | TypeError msg | OtherError msg => msg
  end.

(** [{flagdef.name: flagdef for flagdef in flagdefs}.get(name)]: of two
    definitions with one name the later one is kept. *)
Definition lookup_flagdef (flag_name : string) (flagdefs : list flagdef)
  : option flagdef :=
  find (fun fd => name fd =? flag_name) (rev flagdefs).

Definition _coerced_flag_value (flag_name : string) (v : val) (flagdefs : list flagdef)
  : result exn val :=
  match lookup_flagdef flag_name flagdefs with
  | None => Ok v
  | Some fd =>
      match coerce_flag_value v fd with
      | Ok coerced => Ok coerced
      | Raise (ValueError _ as e) | Raise (TypeError _ as e) =>
          Raise (InvalidFlagValue v fd (exn_message e))
      | Raise e => Raise (Builtin e)
      end
  end.

(** [_apply_coerce_flag_vals]: the items are visited in order and
    [vals[name] = coerced] keeps the place of [name]; under [force] a value
    that cannot be coerced stays as it is. *)
Fixpoint _apply_coerce_flag_vals (flagdefs : list flagdef) (force : bool) (vals : dict)
  : result exn dict :=
  match vals with
  | [] => Ok []
  | (flag_name, v) :: vals' =>
      match _coerced_flag_value flag_name v flagdefs with
      | Ok coerced =>
          rest <- _apply_coerce_flag_vals flagdefs force vals' ;;
          Ok ((flag_name, coerced) :: rest)
      | Raise (InvalidFlagValue v' fd msg) =>
          if force
          then rest <- _apply_coerce_flag_vals flagdefs force vals' ;;
               Ok ((flag_name, v) :: rest)
          else Raise (InvalidFlagValue v' fd msg)
      | Raise e => Raise e
      end
  end.

Definition alias_in_use (fd : flagdef) : option string :=
  match alias fd with
  | Some a => if (a =? "") || (a =? name fd) then None else Some a
  | None => None
  end.

Fixpoint normalize_flag_aliases (flagdefs : list flagdef) (flag_vals : dict)
    (force : bool) : result exn dict :=
  match flagdefs with
  | [] => Ok flag_vals
  | fd :: flagdefs' =>
      match alias_in_use fd with
      | None => normalize_flag_aliases flagdefs' flag_vals force
      | Some a =>
          if mem a flag_vals && mem (name fd) flag_vals then
            if negb force
            then Raise (AliasAndNameSpecifiedError (name fd) a)
            else normalize_flag_aliases flagdefs' flag_vals force
          else if mem a flag_vals then
            normalize_flag_aliases flagdefs'
              (set (remove flag_vals a) (name fd) (get flag_vals a)) force
          else normalize_flag_aliases flagdefs' flag_vals force
      end
  end.

Fixpoint _apply_default_flag_vals (flagdefs : list flagdef) (flag_vals : dict) : dict :=
  match flagdefs with
  | [] => flag_vals
  | fd :: flagdefs' =>
      _apply_default_flag_vals flagdefs'
        (if mem (name fd) flag_vals then flag_vals
         else set flag_vals (name fd) (default fd))
  end.

Fixpoint _check_no_such_flags (flag_vals : dict) (flagdefs : list flagdef)
  : result exn unit :=
  match flag_vals with
  | [] => Ok tt
  | (flag_name, _) :: flag_vals' =>
      if existsb (fun fd => name fd =? flag_name) flagdefs
      then _check_no_such_flags flag_vals' flagdefs
      else Raise (NoSuchFlagError flag_name)
  end.

(** The loop over the choices in [_check_flag_choice] *)
Fixpoint choice_matches (v : val) (cs : list choice) : bool :=
  match cs with
  | [] => false
  | c :: cs' =>
      if truthy (calias c) && eqb v (calias c) then true
      else if eqb (cvalue c) v then true
      else choice_matches v cs'
  end.

Definition _check_flag_choice (v : val) (flag : flagdef) : result exn unit :=
  if negb (truthy v) || allow_other flag
     || match choices flag with [] => true | _ => false end
  then Ok tt
  else if choice_matches v (choices flag) then Ok tt
  else Raise (InvalidFlagChoice v flag).

Definition type_is (flag : flagdef) (t : string) : bool :=
  match type_ flag with
  | Some t' => t' =? t
  | None => false
  end.

Definition text (v : val) : string :=
  match v with
  | Str s => s
  | _ => repr rt v
  end.

Definition _check_flag_type (v : val) (flag : flagdef) : result exn unit :=
  if type_is flag "existing-path" && truthy v && negb (exists_ rt v)
  then Raise (InvalidFlagValue v flag (text v ++ " does not exist"))
  else Ok tt.

Definition _check_flag_range (v : val) (flag : flagdef) : result exn unit :=
  if is_none v then Ok tt
  else
    below <- (if is_none (min_ flag) then Ok false else call (lt rt v (min_ flag))) ;;
    if below
    then Raise (InvalidFlagValue v flag
                  ("out of range (less than min " ++ text (min_ flag) ++ ")"))
    else
      above <- (if is_none (max_ flag) then Ok false else call (lt rt (max_ flag) v)) ;;
      if above
      then Raise (InvalidFlagValue v flag
                    ("out of range (greater than max " ++ text (max_ flag) ++ ")"))
      else Ok tt.

Definition _check_flag_val_ (v : val) (fd : flagdef) : result exn unit :=
  if is_flag_function rt v then Ok tt
  else
    _check_flag_choice v fd ;;;
    _check_flag_type v fd ;;;
    _check_flag_range v fd.

Definition _check_splittable_flag_val (v : val) (fd : flagdef) : result exn unit :=
  let encoded := _ensure_encoded_flag_val v in
  parts <- call (split_encoded_flag_val rt encoded (arg_split fd)) ;;
  let split_val := map (decode_flag_val rt) parts in
  for_each (fun x => _check_flag_val_ x fd) split_val ;;;
  Ok tt.

Fixpoint _check_flag_val (v : val) (fd : flagdef) {struct v} : result exn unit :=
  match v with
  | List_ l =>
      (fix each (l : list val) : result exn unit :=
         match l with
         | [] => Ok tt
         | x :: l' => _check_flag_val x fd ;;; each l'
         end) l
  | _ =>
      if truthy (arg_split fd) && negb (is_none v)
      then _check_splittable_flag_val v fd
      else _check_flag_val_ v fd
  end.

Fixpoint _check_flag_vals (vals : dict) (flagdefs : list flagdef) : result exn unit :=
  match flagdefs with
  | [] => Ok tt
  | flag :: flagdefs' =>
      _check_flag_val (get vals (name flag)) flag ;;;
      _check_flag_vals vals flagdefs'
  end.

Definition _flag_missing (v : val) : bool :=
  is_none v || eqb v (Str "").

Definition _missing_flags (vals : dict) (flagdefs : list flagdef) : list flagdef :=
  filter (fun flag => required flag && _flag_missing (get vals (name flag))) flagdefs.

Definition _check_required_flags (vals : dict) (flagdefs : list flagdef)
  : result exn unit :=
  match _missing_flags vals flagdefs with
  | [] => Ok tt
  | missing => Raise (MissingRequiredFlags missing)
  end.

Fixpoint _apply_choice_flags (choice_flags user_vals target_vals : dict) : dict :=
  match choice_flags with
  | [] => target_vals
  | (flag_name, flag_val) :: choice_flags' =>
      _apply_choice_flags choice_flags' user_vals
        (if is_none (get user_vals flag_name)
         then set target_vals flag_name flag_val
         else target_vals)
  end.

(** The body of the loop over the choices of one flag in
    [_apply_choice_vals]; [flag_val] was read before the loop. *)
Definition apply_choice (fd : flagdef) (flag_val : val) (user_vals : dict)
    (target_vals : dict) (c : choice) : dict :=
  if negb (eqb (or_ (calias c) (cvalue c)) flag_val) then target_vals
  else
    let target_vals :=
      if truthy (calias c) then set target_vals (name fd) (cvalue c)
      else target_vals in
    match cflags c with
    | [] => target_vals
    | _ :: _ => _apply_choice_flags (cflags c) user_vals target_vals
    end.

Definition apply_flagdef_choices (user_vals : dict) (target_vals : dict)
    (fd : flagdef) : dict :=
  match choices fd with
  | [] => target_vals
  | cs =>
      let flag_val := get target_vals (name fd) in
      if is_none flag_val then target_vals
      else fold_left (apply_choice fd flag_val user_vals) cs target_vals
  end.

Definition _apply_choice_vals (flagdefs : list flagdef) (user_vals target_vals : dict)
  : dict :=
  fold_left (apply_flagdef_choices user_vals) flagdefs target_vals.

(** The flag values with which [flag_vals_for_opdef] reaches its checks:
    aliases renamed, defaults added, values coerced. *)
Definition coerced_flag_vals (flagdefs : list flagdef) (user_flag_vals : dict)
    (force : bool) : result exn dict :=
  flag_vals <- normalize_flag_aliases flagdefs user_flag_vals force ;;
  _apply_coerce_flag_vals flagdefs force (_apply_default_flag_vals flagdefs flag_vals).

(** [flag_vals_for_opdef(opdef, user_flag_vals, force)], on the flag
    definitions of the operation *)
Definition flag_vals_for_opdef (flagdefs : list flagdef) (user_flag_vals : dict)
    (force : bool) : result exn dict :=
  let flag_vals := user_flag_vals in
  flag_vals <- normalize_flag_aliases flagdefs flag_vals force ;;
  let flag_vals := _apply_default_flag_vals flagdefs flag_vals in
  flag_vals <- _apply_coerce_flag_vals flagdefs force flag_vals ;;
  (if negb force then
     _check_no_such_flags flag_vals flagdefs ;;;
     _check_flag_vals flag_vals flagdefs ;;;
     _check_required_flags flag_vals flagdefs
   else Ok tt) ;;;
  Ok (_apply_choice_vals flagdefs user_flag_vals flag_vals).

End WithRuntime.

(** The value under [n] is the one in [target_vals], or the value of a
    choice with an alias of the flag [n]. *)
Definition kept_or_translated (flagdefs : list flagdef) (target_vals : dict)
    (n : string) (v : val) : Prop :=
  v = get target_vals n \/
  exists fd c, In fd flagdefs /\ In c (choices fd) /\ name fd = n /\
               truthy (calias c) = true /\ v = cvalue c.

(** Flag definitions and a runtime for examples.  The flags are untyped,
    so no value is converted, split or compared. *)
Module Example.

Definition rt : runtime := {|
  repr := fun _ => "";
  int_of_str := fun _ => None;
  float_of_str := fun _ => None;
  float_of_int := fun _ => None;
  lt := fun _ _ => Raise (TypeError "'<' not supported");
  expanduser := fun s => s;
  isabs := fun _ => true;
  abspath := fun s => s;
  exists_ := fun _ => true;
  is_flag_function := fun _ => false;
  split_encoded_flag_val := fun s _ => Ok [s];
  join_splittable_flag_vals := fun _ _ => Raise (ValueError "not splittable");
  encode_flag_val := fun _ => "";
  decode_flag_val := Str
|}.

Definition flag (flag_name : string) (default_ : val) (required_ : bool)
    (choices_ : list choice) : flagdef :=
  FlagDef flag_name None None default_ required_ None_ None_ choices_ false None_.

(** [size] has the choice 1 under the alias "small", which implies
    [layers = 2]. *)
Definition size : flagdef :=
  flag "size" None_ false [Choice (Int 1) (Str "small") [("layers", Int 2)]].
Definition layers : flagdef := flag "layers" (Int 8) false [].

Definition by_value : result exn dict :=
  flag_vals_for_opdef rt [size; layers] [("size", Int 1)] false.
Definition by_alias : result exn dict :=
  flag_vals_for_opdef rt [size; layers] [("size", Str "small")] false.

(** [mode] has the choice "fast", which implies an empty [rate]; [rate] is
    required and has a default. *)
Definition mode : flagdef :=
  flag "mode" None_ false [Choice (Str "fast") None_ [("rate", Str "")]].
Definition rate : flagdef := flag "rate" (Str "0.1") true [].

Definition fast : result exn dict :=
  flag_vals_for_opdef rt [mode; rate] [("mode", Str "fast")] false.

(** An integer flag with two choices. *)
Definition depth : flagdef :=
  FlagDef "depth" None (Some "int") None_ false None_ None_
          [Choice (Int 1) None_ []; Choice (Int 2) None_ []] false None_.

(** 1.0 as a binary64 number *)
Definition one_point_zero : spec_float := S754_finite false 4503599627370496 (-52).

(** 1.5 as a binary64 number *)
Definition one_point_five : spec_float := S754_finite false 6755399441055744 (-52).

(** [learning-rate] has the alias "lr"; the choice "fast" of [speed]
    implies [learning-rate = 5]. *)
Definition learning_rate : flagdef :=
  FlagDef "learning-rate" (Some "lr") None (Int 1) false None_ None_ [] false None_.
Definition speed : flagdef :=
  flag "speed" None_ false [Choice (Str "fast") None_ [("learning-rate", Int 5)]].

(** The caller gives the learning rate under its alias. *)
Definition given_by_alias : dict := [("lr", Int 7); ("speed", Str "fast")].

(** A chain: the choice "x" of [first] implies [second = "fast"], and the
    choice "fast" of [second] implies [third = 1]. *)
Definition first : flagdef :=
  flag "first" None_ false [Choice (Str "x") None_ [("second", Str "fast")]].
Definition second : flagdef :=
  flag "second" None_ false [Choice (Str "fast") None_ [("third", Int 1)]].
Definition third : flagdef := flag "third" (Int 0) false [].

End Example.

End Flags.

(** ** Multi-value flags: the encoded form of [guild.flag_util]

    [guild.flag_util] is not part of the sources at hand.  For a flag
    whose [arg_split] is a delimiter its functions are taken to do what the
    specification says of them: the encoded form of a list of values is the
    values joined by the delimiter. *)

Module Delimited.

Import Py Flags.
Local Open Scope string_scope.

(** [s.split(d)], scanning [s] from the left: [skip] counts the
    characters of a delimiter just found that are still to be passed, [cur]
    is the part read so far. *)
Fixpoint split_go (d : string) (skip : nat) (s cur : string) : list string :=
  match s with
  | "" => [cur]
  | String c s' =>
      match skip with
      | S k => split_go d k s' cur
      | O =>
          if prefix d s
          then cur :: split_go d (String.length d - 1) s' ""
          else split_go d 0 s' (cur ++ String c "")
      end
  end.

Definition split_on (d s : string) : list string := split_go d 0 s "".

(** Modelled from the spec: [flag_util.split_encoded_flag_val], missing
    from the sources.  The encoded textual form is decoded into its parts
    at the delimiter. *)
Definition split_encoded_flag_val (encoded : string) (split_spec : val)
  : result pyexn (list string) :=
  match split_spec with
  | Str d =>
      if d =? "" then Raise (ValueError "empty separator")
      else Ok (split_on d encoded)
  | _ => Raise (ValueError "split spec is not a delimiter")
  end.

(** Modelled from the spec: [flag_util.join_splittable_flag_vals], missing
    from the sources.  The values are re-joined in the encoded form: the
    text of each value, with the delimiter between them.  [text] is the text
    of one value. *)
Definition join_splittable_flag_vals (text : val -> string) (vals : list val)
    (split_spec : val) : result pyexn string :=
  match split_spec with
  | Str d => Ok (String.concat d (map text vals))
  | _ => Raise (ValueError "split spec is not a delimiter")
  end.

(** The runtime [rt] with the two functions above; the text of a value is
    what [_ensure_encoded_flag_val] makes of it, a string being its own
    text. *)
Definition delimited (rt : runtime) : runtime := {|
  repr := repr rt;
  int_of_str := int_of_str rt;
  float_of_str := float_of_str rt;
  float_of_int := float_of_int rt;
  lt := lt rt;
  expanduser := expanduser rt;
  isabs := isabs rt;
  abspath := abspath rt;
  exists_ := exists_ rt;
  is_flag_function := is_flag_function rt;
  Flags.split_encoded_flag_val := split_encoded_flag_val;
  Flags.join_splittable_flag_vals :=
    join_splittable_flag_vals (_ensure_encoded_flag_val rt);
  encode_flag_val := encode_flag_val rt;
  decode_flag_val := decode_flag_val rt
|}.

(** No delimiter starts inside [t] when [t] is followed by one. *)
Fixpoint clean (d t : string) : bool :=
  match t with
  | "" => true
  | String _ t' => negb (prefix d (t ++ d)) && clean d t'
  end.

(** A list of files to be split at the comma, resolved in a directory
    whose name has a comma. *)
Module Example.

Definition rt : runtime := {|
  repr := repr Flags.Example.rt;
  int_of_str := int_of_str Flags.Example.rt;
  float_of_str := float_of_str Flags.Example.rt;
  float_of_int := float_of_int Flags.Example.rt;
  lt := lt Flags.Example.rt;
  expanduser := fun s => s;
  isabs := prefix "/";
  abspath := fun s => "/data/run,1/" ++ s;
  exists_ := exists_ Flags.Example.rt;
  is_flag_function := fun _ => false;
  Flags.split_encoded_flag_val := Flags.split_encoded_flag_val Flags.Example.rt;
  Flags.join_splittable_flag_vals := Flags.join_splittable_flag_vals Flags.Example.rt;
  encode_flag_val := encode_flag_val Flags.Example.rt;
  decode_flag_val := decode_flag_val Flags.Example.rt
|}.

Definition files : flagdef :=
  FlagDef "files" None (Some "path") None_ false None_ None_ [] false (Str ",").

Definition tags : flagdef :=
  FlagDef "tags" None (Some "string") None_ false None_ None_ [] false (Str ",").

Definition coerced_files : result pyexn val :=
  _coerce_flag_val_split_parts (delimited rt) (Str "a.txt,b.txt") files.

End Example.

End Delimited.

(** ** Runs of the supervisor *)

Module ProcRun.

Import Proc.

(** The world after [k] sleeps of [step] each, with nothing else done. *)
Definition slept {proc : Type} (elapse : Q -> proc -> proc) (step : Q) (k : nat)
    (w : world proc) : world proc :=
  Nat.iter k (sleep elapse step) w.

(** A job that exits with code 3 when it has worked through two poll
    intervals, and with -15 one interval after the graceful signal. *)
Module Job.

Inductive proc : Type :=
| Working (ticks : nat)
| Stopping (ticks : nat)
| Killed.

Definition poll (p : proc) : option Z :=
  match p with
  | Working n => if (2 <=? n)%nat then Some 3%Z else None
  | Stopping n => if (1 <=? n)%nat then Some (-15)%Z else None
  | Killed => Some (-9)%Z
  end.

Definition terminate (p : proc) : proc :=
  match p with
  | Working _ => Stopping 0
  | p => p
  end.

Definition kill (_ : proc) : proc := Killed.

Definition elapse (_ : Q) (p : proc) : proc :=
  match p with
  | Working n => Working (S n)
  | Stopping n => Stopping (S n)
  | Killed => Killed
  end.

Definition start : world proc := World 0 (Working 0) [].

End Job.

End ProcRun.

(** ** Runs of the reader threads *)

Module TeeRun.

Import Tee.

(** Two states of the reader threads that differ in the callback at most. *)
Definition same_files {A B} (a : state A) (b : state B) : Prop :=
  output a = output b /\ index a = index b /\ mirrored a = mirrored b /\
  clock_reads a = clock_reads b /\ line a = line b /\ exited a = exited b.

(** The reads of one thread: its chunks, then the empty read. *)
Definition reads_of (s : stream) (chunks : list (list byte))
  : list (stream * list byte) :=
  map (pair s) chunks ++ [(s, [])].

(** The callback is called until it fails once. *)
Definition cb_ok {callback} (st : state callback) : Prop :=
  cb_errors st = 0%nat \/ (cb_errors st = 1%nat /\ _output_cb st = None).

(** From [a] to [b] a callback that is not set stays so, with no failure
    recorded. *)
Definition kept_off {callback} (a b : state callback) : Prop :=
  _output_cb a = None -> _output_cb b = None /\ cb_errors b = cb_errors a.

(** Whether a line is left over after the bytes [bs]. *)
Definition unfinished (bs : list byte) : nat :=
  match pending bs [] with
  | [] => 0
  | _ :: _ => 1
  end.

(** A callback whose [write] always raises. *)
Module FailingCallback.

Definition cb_write (c : unit) (_ : list byte) : unit * bool := (c, true).

End FailingCallback.

End TeeRun.

(** ** [RunOutput.wait_and_close] *)

Module Capture.

Import RunOutput.

(** [wait_and_close()]: [wait()], then [close()] unless [wait] raised. *)
Definition wait_and_close (self : t) (acquired : bool) : result exn unit * t :=
  match wait self with
  | (Ok _, self) => close self acquired
  | (Raise e, self) => (Raise e, self)
  end.

(** The files of an object are closed. *)
Definition files_closed (self : t) : Prop :=
  (exists f, _output self = Some f /\ closed_ f = true) /\
  (exists f, _index self = Some f /\ closed_ f = true).

End Capture.

(** ** The environment and the project directory of a command:
       [_op_cmd_env], [_apply_other_args] *)

Module CmdEnv.

Import Py.
Local Open Scope string_scope.

(** [s.replace(pattern, text)] for a [pattern] that is not empty: the
    occurrences of [pattern] are taken from the left, without overlap;
    [skip] counts the characters of an occurrence still to be passed. *)
Fixpoint replace_go (pattern text : string) (skip : nat) (s : string) : string :=
  match s with
  | "" => ""
  | String c s' =>
      match skip with
      | S k => replace_go pattern text k s'
      | O =>
          if prefix pattern s
          then text ++ replace_go pattern text (String.length pattern - 1) s'
          else String c (replace_go pattern text 0 s')
      end
  end.

Definition replace (pattern text s : string) : string :=
  replace_go pattern text 0 s.

Definition PROJECT_DIR_REF : string := "${project_dir}".

(** The attributes of an operation definition read by [_op_cmd_env] and
    [_apply_other_args]; [guildfile_dir] and [flags_dest] are a string or
    [None], [env] is a dict or [None]. *)
Record opdef : Type := OpDef {
  guildfile_dir : val;
  env : option dict;
  flags_dest : val;
  handle_keyboard_interrupt : bool
}.

(** [_apply_other_args]: [args[i] = val.replace(pattern, text)] for
    every token and the one pattern of [repl], when the token and the
    project directory are not empty. *)
Definition _apply_other_args (args : list string) (o : opdef) : list string :=
  map (fun val =>
         match guildfile_dir o with
         | Str text =>
             if negb (val =? "") && negb (text =? "")
             then replace PROJECT_DIR_REF text val
             else val
         | _ => val
         end) args.

(** [d.update(e)] *)
Definition update (d e : dict) : dict :=
  fold_left (fun d kv => set d (fst kv) (snd kv)) e d.

Definition _op_cmd_env (o : opdef) (extra_env : dict) : dict :=
  let env := match env o with Some e => e | None => [] end in
  let env := update env extra_env in
  let env := set env "PROJECT_DIR" (or_ (guildfile_dir o) (Str "")) in
  let env := if truthy (flags_dest o) then set env "FLAGS_DEST" (flags_dest o) else env in
  if handle_keyboard_interrupt o
  then set env "HANDLE_KEYBOARD_INTERRUPT" (Str "1")
  else env.

(** No occurrence of [pattern] starts in [s]. *)
Fixpoint free (pattern s : string) : bool :=
  match s with
  | "" => true
  | String _ s' => negb (prefix pattern s) && free pattern s'
  end.

Module Example.

Definition train : opdef :=
  OpDef (Str "/proj") (Some [("MODE", Str "dev"); ("HOME", Str "/h")])
        (Str "args") true.

End Example.

End CmdEnv.

(** ** Command line arguments: [split_args_for_flags], [split_batch_files],
       [parse_flag_assigns], and the paths of [python_path_env] *)

Module Args.

Import Py.
Local Open Scope string_scope.

Inductive exn : Type :=
| ArgValueError (arg : string).

(** The loop of [split_args_for_flags] over [range(len(args) - 1, -1, -1)];
    [n] indices are still to be visited, the next one is [n - 1]. *)
Fixpoint split_args_loop (args : list string) (n : nat)
  : list string * list string :=
  match n with
  | O => (args, [])
  | S i =>
      if nth i args "" =? "--"
      then (skipn (i + 1) args, firstn i args)
      else split_args_loop args i
  end.

Definition split_args_for_flags (args : list string) : list string * list string :=
  split_args_loop args (List.length args).

(** [s[:1]] and [s[1:]] *)
Definition first_char (s : string) : string :=
  match s with
  | "" => ""
  | String c _ => String c ""
  end.

Definition after_first_char (s : string) : string :=
  match s with
  | "" => ""
  | String _ s' => s'
  end.

Fixpoint split_batch_loop (flag_args batch_files rest : list string)
  : list string * list string :=
  match flag_args with
  | [] => (batch_files, rest)
  | arg :: flag_args' =>
      if first_char arg =? "@"
      then split_batch_loop flag_args' (batch_files ++ [after_first_char arg]) rest
      else split_batch_loop flag_args' batch_files (rest ++ [arg])
  end.

Definition split_batch_files (flag_args : list string) : list string * list string :=
  split_batch_loop flag_args [] [].

(** The loop of [_remove_duplicate_paths]; the set [seen] is kept as a
    list. *)
Fixpoint remove_duplicates_loop (paths seen result : list string) : list string :=
  match paths with
  | [] => result
  | path :: paths' =>
      if existsb (String.eqb path) seen
      then remove_duplicates_loop paths' seen result
      else remove_duplicates_loop paths' (path :: seen) (result ++ [path])
  end.

Definition _remove_duplicate_paths (paths : list string) : list string :=
  remove_duplicates_loop paths [] [].

(** [path not in seen] *)
Definition unseen (seen : list string) (path : string) : bool :=
  negb (existsb (String.eqb path) seen).

(** The paths that [python_path_env] joins: [_guild_path()] and the
    entries of [PYTHONPATH] in the process environment ([_os_env()]) are
    given. *)
Definition python_path_env (sourcecode_paths : list string) (_guild_path : string)
    (_os_env : list string) (pathsep : string) : string :=
  let paths := _remove_duplicate_paths (sourcecode_paths ++ [_guild_path] ++ _os_env) in
  String.concat pathsep paths.

(** [s.split(sep, 1)] for a separator of one character: the parts before
    and after the first [sep], or nothing when there is none. *)
Fixpoint partition (sep : ascii) (s : string) : option (string * string) :=
  match s with
  | "" => None
  | String c s' =>
      if Ascii.eqb c sep then Some ("", s')
      else match partition sep s' with
           | Some (before, after) => Some (String c before, after)
           | None => None
           end
  end.

(** [s.split(sep)[0]] *)
Definition before_first (sep : ascii) (s : string) : string :=
  match partition sep s with
  | Some (before, _) => before
  | None => s
  end.

(** [sep in s] *)
Fixpoint has_char (sep : ascii) (s : string) : bool :=
  match s with
  | "" => false
  | String c s' => Ascii.eqb c sep || has_char sep s'
  end.

Definition equals_sign : ascii := "="%char.

(** [a or b] for two flag types, each a string or [None] *)
Definition type_or (a b : option string) : option string :=
  match a with
  | Some t => if t =? "" then b else Some t
  | None => b
  end.

Fixpoint _flag_type_for_name (flag_name : string) (flagdefs : list Flags.flagdef)
  : option string :=
  match flagdefs with
  | [] => None
  | flagdef :: flagdefs' =>
      if flag_name =? Flags.name flagdef then Flags.type_ flagdef
      else _flag_type_for_name flag_name flagdefs'
  end.

Fixpoint _flag_type_for_alias (alias : string) (flagdefs : list Flags.flagdef)
  : option string :=
  match flagdefs with
  | [] => None
  | flagdef :: flagdefs' =>
      match Flags.alias flagdef with
      | Some a =>
          if negb (a =? "") && (alias =? a) then Flags.type_ flagdef
          else _flag_type_for_alias alias flagdefs'
      | None => _flag_type_for_alias alias flagdefs'
      end
  end.

Definition _flag_type_for_assign_arg (arg : string) (flagdefs : list Flags.flagdef)
  : option string :=
  type_or (_flag_type_for_name arg flagdefs) (_flag_type_for_alias arg flagdefs).

(** A dict of the parse errors, keyed by the text of the argument. *)
Fixpoint set_error (errors : list (string * exn)) (k : string) (e : exn)
  : list (string * exn) :=
  match errors with
  | [] => [(k, e)]
  | (k', e') :: errors' =>
      if k' =? k then (k', e) :: errors' else (k', e') :: set_error errors' k e
  end.

Section Assigns.

(** [flag_util.decode_flag_val(val, flag_type)], [flag_util.format_flag]
    and [os.path.expanduser], each taken as a function that returns. *)
Variable decode_flag_val : string -> option string -> val.
Variable format_flag : val -> string.
Variable expanduser : string -> string.

Definition flag_assign (flag_name : string) (v : val) : string :=
  flag_name ++ "=" ++ format_flag v.

(** [flagdefs] is the empty list when the caller has none. *)
Definition _parse_flag_arg (arg : string) (flagdefs : list Flags.flagdef)
  : result exn (string * val) :=
  match partition equals_sign arg with
  | None => Raise (ArgValueError arg)
  | Some (flag_name, v) =>
      let flag_type :=
        match flagdefs with
        | [] => None
        | _ => _flag_type_for_assign_arg flag_name flagdefs
        end in
      Ok (flag_name, decode_flag_val v flag_type)
  end.

Fixpoint parse_loop (expanded_args : list string) (flagdefs : list Flags.flagdef)
    (parsed_flags : dict) (parse_errors : list (string * exn))
  : dict * list (string * exn) :=
  match expanded_args with
  | [] => (parsed_flags, parse_errors)
  | arg :: expanded_args' =>
      match _parse_flag_arg arg flagdefs with
      | Ok (flag_name, v) =>
          parse_loop expanded_args' flagdefs (set parsed_flags flag_name v) parse_errors
      | Raise e =>
          parse_loop expanded_args' flagdefs parsed_flags
            (set_error parse_errors (before_first equals_sign arg) e)
      end
  end.

Definition parse_flag_assigns (args : list string) (flagdefs : list Flags.flagdef)
  : dict * list (string * exn) :=
  parse_loop (map expanduser args) flagdefs [] [].

End Assigns.

(** The value of the last argument that assigns to [flag_name]. *)
Fixpoint last_assigned (decode_flag_val : string -> option string -> val)
    (flagdefs : list Flags.flagdef) (flag_name : string) (args : list string)
  : option val :=
  match args with
  | [] => None
  | arg :: args' =>
      match last_assigned decode_flag_val flagdefs flag_name args' with
      | Some v => Some v
      | None =>
          match _parse_flag_arg decode_flag_val arg flagdefs with
          | Ok (n, v) => if n =? flag_name then Some v else None
          | Raise _ => None
          end
      end
  end.

End Args.

(** ** Flags given as options: [args_to_flags] *)

Module ArgFlags.

Import Py Args.
Local Open Scope string_scope.

(** The dict that [args_to_flags] fills.  Its keys are option names; the
    variable [name] is [None] until the first option, and a number that
    comes before is stored under [None]. *)
Definition flags : Type := list (option string * val).

Definition key_eqb (a b : option string) : bool :=
  match a, b with
  | Some x, Some y => x =? y
  | None, None => true
  | _, _ => false
  end.

(** [flags[name]], where [None] stands for the [KeyError] *)
Fixpoint lookup (fl : flags) (k : option string) : option val :=
  match fl with
  | [] => None
  | (k', v) :: fl' => if key_eqb k' k then Some v else lookup fl' k
  end.

(** [flags[name] = v] *)
Fixpoint store (fl : flags) (k : option string) (v : val) : flags :=
  match fl with
  | [] => [(k, v)]
  | (k', v') :: fl' =>
      if key_eqb k' k then (k', v) :: fl' else (k', v') :: store fl' k v
  end.

Definition _maybe_switch (fl : flags) (name : option string) : flags :=
  match name with
  | Some _ =>
      match lookup fl name with
      | None => store fl name (Bool true)
      | Some _ => fl
      end
  | None => fl
  end.

Definition _set_or_append_flag (fl : flags) (name : option string) (v : val) : flags :=
  match lookup fl name with
  | None => store fl name v
  | Some (List_ existing) => store fl name (List_ (existing ++ [v]))
  | Some existing => store fl name (List_ [existing; v])
  end.

(** [s[i:]] *)
Definition from (i : nat) (s : string) : string :=
  substring i (String.length s) s.

Section Decode.

(** [yaml_util.decode_yaml], taken as a function that returns *)
Variable decode_yaml : string -> val.

(** The loop of [args_to_flags] over the flag arguments. *)
Fixpoint args_loop (flag_args : list string) (fl : flags) (name : option string)
    (other_args : list string) : flags * option string * list string :=
  match flag_args with
  | [] => (fl, name, other_args)
  | arg :: flag_args' =>
      if substring 0 2 arg =? "--" then
        args_loop flag_args' (_maybe_switch fl name) (Some (from 2 arg)) other_args
      else if substring 0 1 arg =? "-" then
        let maybe_num := decode_yaml arg in
        if isinstance_float_int maybe_num then
          args_loop flag_args' (_set_or_append_flag fl name maybe_num) name other_args
        else if (String.length arg =? 2)%nat then
          args_loop flag_args' (_maybe_switch fl name) (Some (substring 1 1 arg))
            other_args
        else if (2 <? String.length arg)%nat then
          let fl := _maybe_switch fl name in
          let name := Some (substring 1 1 arg) in
          args_loop flag_args' (_set_or_append_flag fl name (Str (from 2 arg))) name
            other_args
        else args_loop flag_args' fl name other_args
      else
        match name with
        | Some _ =>
            args_loop flag_args' (_set_or_append_flag fl name (decode_yaml arg)) name
              other_args
        | None => args_loop flag_args' fl name (other_args ++ [arg])
        end
  end.

Definition args_to_flags (args : list string) : flags * list string :=
  let (flag_args, other_args) := split_args_for_flags args in
  let '(fl, name, other_args) := args_loop flag_args [] None other_args in
  (_maybe_switch fl name, other_args).

(** The option that an argument names, if it names one: [--name], [-n]
    and [-nvalue], unless the text decodes to a number. *)
Definition option_of (arg : string) : option string :=
  if substring 0 2 arg =? "--" then Some (from 2 arg)
  else if substring 0 1 arg =? "-" then
    if isinstance_float_int (decode_yaml arg) then None
    else if (2 <=? String.length arg)%nat then Some (substring 1 1 arg)
    else None
  else None.

End Decode.

(** [k] is a key of the flags, or the option that waits for its value. *)
Definition covered (fl : flags) (name k : option string) : Prop :=
  lookup fl k <> None \/ (k = name /\ name <> None).

End ArgFlags.

(** ** Structured data, as read from YAML and JSON files *)

Module Data.

Section Scalars.

(** The values that are neither a list nor a dict. *)
Variable scalar : Type.

(** Decoded data; the keys of a dict are strings, as in JSON. *)
#[warnings="-register-all"]
Inductive data : Type :=
| Scalar (a : scalar)
| Seq (items : list data)
| Map (items : list (string * data)).

(** [isinstance(d, dict)] *)
Definition is_dict (d : data) : bool :=
  match d with
  | Map _ => true
  | _ => false
  end.

End Scalars.

Arguments Scalar {scalar} a.
Arguments Seq {scalar} items.
Arguments Map {scalar} items.

End Data.

(** ** Flags from config files: [guild.plugins.config_flags] *)

Module ConfigFlags.

Import Data.
Local Open Scope string_scope.

(** [_config_src(opdef)], from [opdef.flags_dest], a string or [None] *)
Definition _config_src (flags_dest : option string) : option string :=
  match flags_dest with
  | Some dest =>
      if negb (dest =? "") && prefix "config:" dest
      then Some (ArgFlags.from 7 dest)
      else None
  | None => None
  end.

(** The attributes of a resource source read and set here. *)
Record source : Type := Source {
  uri : string;
  always_resolve : option bool;
  replace_existing : option bool
}.

(** The loop over [resdef.sources] in [_find_config_res_source] *)
Fixpoint find_in_sources (config_source_uri : string) (sources : list source)
  : option source :=
  match sources with
  | [] => None
  | source :: sources' =>
      if uri source =? config_source_uri then Some source
      else find_in_sources config_source_uri sources'
  end.

(** [_find_config_res_source], on the sources of the resources that
    [op_util.iter_opdef_resources(opdef)] yields *)
Fixpoint _find_config_res_source (resdefs : list (list source)) (config_src : string)
  : option source :=
  let config_source_uri := "config:" ++ config_src in
  match resdefs with
  | [] => None
  | sources :: resdefs' =>
      match find_in_sources config_source_uri sources with
      | Some source => Some source
      | None => _find_config_res_source resdefs' config_src
      end
  end.

Section Scalars.

Variable scalar : Type.

(** [_iter_keyvals(data)]: the pairs it yields, in order *)
Fixpoint _iter_keyvals (d : data scalar) : list (string * data scalar) :=
  match d with
  | Map items =>
      (fix each (items : list (string * data scalar)) : list (string * data scalar) :=
         match items with
         | [] => []
         | (basename, val) :: items' =>
             match val with
             | Map _ =>
                 List.app
                   (map (fun nv => (basename ++ "." ++ fst nv, snd nv))
                        (_iter_keyvals val))
                   (each items')
             | _ => (basename, val) :: each items'
             end
         end) items
  | _ => []
  end.

(** [v] is in [d] under the keys of [path], and is not a dict. *)
Inductive leaf_at : data scalar -> list string -> data scalar -> Prop :=
| leaf_here (items : list (string * data scalar)) (k : string) (v : data scalar) :
    In (k, v) items -> is_dict v = false -> leaf_at (Map items) [k] v
| leaf_below (items sub : list (string * data scalar)) (k : string)
    (path : list string) (v : data scalar) :
    In (k, Map sub) items -> leaf_at (Map sub) path v ->
    leaf_at (Map items) (k :: path) v.

End Scalars.

End ConfigFlags.

(** ** Trials of batch files: [_coerce_trials_data] *)

Module Trials.

Import Data.
Local Open Scope string_scope.
Local Open Scope result_scope.

Inductive exn : Type :=
| BatchFileError (path msg : string).

Section Scalars.

Variable scalar : Type.

(** [type(data).__name__] and [repr(item)] *)
Variable type_name : data scalar -> string.
Variable repr : data scalar -> string.

(** The loop over the items, which returns [data] when no item fails. *)
Fixpoint check_items (items : list (data scalar)) (path : string)
    (trials : list (data scalar)) : result exn (list (data scalar)) :=
  match items with
  | [] => Ok trials
  | item :: items' =>
      if negb (is_dict item)
      then Raise (BatchFileError path
                    ("invalid data type for trial " ++ repr item ++ ": expected dict"))
      else check_items items' path trials
  end.

Definition _coerce_trials_data (d : data scalar) (path : string)
  : result exn (list (data scalar)) :=
  trials <- match d with
            | Seq items => Ok items
            | Map _ => Ok [d]
            | _ => Raise (BatchFileError path
                            ("invalid data type for trials: expected list or dict"
                             ++ ", got " ++ type_name d))
            end ;;
  check_items trials path trials.

End Scalars.

End Trials.

(** ** Parameters of a restart: [run_params_for_restart] *)

Module Restart.

Import Py.
Local Open Scope string_scope.
Local Open Scope result_scope.

Inductive exn : Type :=
| TypeError (msg : string)
| KeyError (k : string).

Definition applicable_run_params : list string :=
  ["force_flags"; "gpus"; "max_trials"; "maximize"; "minimize"; "no_gpus";
   "opt_flags"; "optimizer"; "random_seed"].

(** [tuple(v)]; the tuple is written as a list of its items. *)
Definition tuple (v : val) : result exn val :=
  match v with
  | List_ l => Ok (List_ l)
  | Str s0 => Ok (List_ (map (fun c => Str (String c "")) (list_ascii_of_string s0)))
  | _ => Raise (TypeError "object is not iterable")
  end.

Definition _coerce_run_param (name : string) (v : val) : result exn val :=
  if name =? "flags" then tuple v else Ok v.

(** The loop over the names of [run_params]; [user_specified_params] is a
    dict or [None]. *)
Fixpoint restart_loop (names : list string) (run_params : dict)
    (user_specified_params : option dict) (baseline_params : dict) (result_ : dict)
  : result exn dict :=
  match names with
  | [] => Ok result_
  | name :: names' =>
      let continue := restart_loop names' run_params user_specified_params
                        baseline_params in
      v <- _coerce_run_param name (get run_params name) ;;
      if negb (existsb (String.eqb name) applicable_run_params) then continue result_
      else
        match user_specified_params with
        | None => continue (set result_ name v)
        | Some user =>
            if negb (mem name user) then continue (set result_ name v)
            else
              let user_specified_val := get user name in
              if negb (mem name baseline_params) then Raise (KeyError name)
              else if negb (eqb user_specified_val (get baseline_params name))
              then continue result_
              else continue (set result_ name v)
        end
  end.

(** [run_params_for_restart]: [run_params] is [None] when the attribute
    of the run is not a dict, and then the result is [None];
    [baseline_params] are the parameters of the run command without
    arguments. *)
Definition run_params_for_restart (run_params : option dict)
    (user_specified_params : option dict) (baseline_params : dict)
  : result exn (option dict) :=
  match run_params with
  | None => Ok None
  | Some run_params =>
      result_ <- restart_loop (map fst run_params) run_params user_specified_params
                   baseline_params [] ;;
      Ok (Some result_)
  end.

(** The condition under which a parameter of the run is used again. *)
Definition reused (user_specified_params : option dict) (baseline_params : dict)
    (name : string) : bool :=
  existsb (String.eqb name) applicable_run_params &&
  match user_specified_params with
  | None => true
  | Some user =>
      negb (mem name user) || eqb (get user name) (get baseline_params name)
  end.

End Restart.

(** ** [flag_vals_for_opdef] as it is called *)

Module FlagsCall.

Import Py Flags.

(** [flag_vals_for_opdef(opdef, user_flag_vals=None, force=False)]: the
    user values are a dict or, by default, [None]; the function starts with
    [dict(user_flag_vals)], which raises a [TypeError] for [None] before
    any flag is looked at. *)
Definition flag_vals_for_opdef (rt : runtime) (flagdefs : list flagdef)
    (user_flag_vals : option dict) (force : bool) : result exn dict :=
  match user_flag_vals with
  | None => Raise (Builtin (TypeError "'NoneType' object is not iterable"))
  | Some user_flag_vals => Flags.flag_vals_for_opdef rt flagdefs user_flag_vals force
  end.

End FlagsCall.

(** * Properties *)

Module ProcFacts.

Import Proc ProcRun.
Local Open Scope Q_scope.

Section Supervisor.

Variable proc : Type.
Variable poll : proc -> option Z.
Variable terminate : proc -> proc.
Variable kill : proc -> proc.
Variable elapse : Q -> proc -> proc.

Local Abbreviation world := (world proc).
Local Abbreviation sleep := (sleep elapse).
Local Abbreviation slept := (slept elapse).

Lemma Qltb_false a b : b <= a -> Qltb a b = false.
Proof.
  intros H. unfold Qltb. destruct (Qlt_le_dec a b) as [Hlt|_]; [|reflexivity].
  exfalso. apply (Qlt_irrefl a). eapply Qlt_le_trans; eauto.
Qed.

Lemma Qltb_true a b : Qltb a b = true -> a < b.
Proof.
  unfold Qltb. destruct (Qlt_le_dec a b); [auto|discriminate].
Qed.

Lemma of_nat_succ_step (n : nat) (step : Q) :
  inject_Z (Z.of_nat (S n)) * step == inject_Z (Z.of_nat n) * step + step.
Proof.
  rewrite Nat2Z.inj_succ. unfold Z.succ. rewrite inject_Z_plus. ring.
Qed.

(** Enough fuel: a loop that advances the clock by [step] at every
    iteration leaves the region before [deadline] within [n] steps. *)
Lemma terminate_loop_returns (n : nat) (step kill_at : Q) :
  0 < step ->
  forall w : world,
    kill_at - now w <= inject_Z (Z.of_nat n) * step ->
    exists w', terminate_loop poll elapse (S n) step kill_at w = Some w'.
Proof.
  intros Hstep. induction n as [|n IH]; intros w Hn.
  - cbn [terminate_loop]. rewrite Qltb_false.
    + rewrite andb_false_r. eauto.
    + change (inject_Z (Z.of_nat 0)) with 0 in Hn. lra.
  - remember (S n) as m. cbn [terminate_loop].
    destruct (is_none (poll (child w)) && Qltb (now w) kill_at) eqn:C; [|eauto].
    subst m. apply IH. rewrite of_nat_succ_step in Hn.
    unfold sleep; cbn [now]. lra.
Qed.

Lemma wait_loop_returns (n : nat) (step stop_at : Q) :
  0 < step ->
  forall w : world,
    stop_at - now w <= inject_Z (Z.of_nat n) * step ->
    exists r, wait_loop poll elapse (S n) step stop_at w = Some r.
Proof.
  intros Hstep. induction n as [|n IH]; intros w Hn.
  - cbn [wait_loop]. rewrite Qltb_false; [eauto|].
    change (inject_Z (Z.of_nat 0)) with 0 in Hn. lra.
  - remember (S n) as m. cbn [wait_loop].
    destruct (Qltb (now w) stop_at); [|eauto].
    destruct (poll (child w)); [eauto|].
    subst m. apply IH. rewrite of_nat_succ_step in Hn.
    unfold sleep; cbn [now]. lra.
Qed.

Lemma iterations_enough (step deadline : Q) (w : world) :
  0 < step ->
  deadline - now w
    <= inject_Z (Z.of_nat (Z.to_nat (Qceiling ((deadline - now w) / step)))) * step.
Proof.
  intros Hstep. set (x := (deadline - now w) / step).
  assert (Hx : deadline - now w == x * step).
  { unfold x. field. intros E. rewrite E in Hstep. now apply Qlt_irrefl in Hstep. }
  rewrite Hx at 1. apply Qmult_le_compat_r; [|lra].
  apply Qle_trans with (inject_Z (Qceiling x)); [apply Qle_ceiling|].
  rewrite <- Zle_Qle. lia.
Qed.

Lemma terminate_finish_outcome (step : Q) (w : world) :
  let (r, w') := terminate_finish poll kill elapse step w in
  (forall rc, r = Ok rc <-> poll (child w') = Some rc /\ graceful rc) /\
  (r = Raise ProcessError <->
     forall rc, poll (child w') = Some rc -> ~ graceful rc).
Proof.
  unfold terminate_finish.
  set (w1 := if is_none (poll (child w)) then _ else w). clearbody w1.
  unfold graceful, RC_SIGTERM.
  destruct (poll (child w1)) as [rc|] eqn:P.
  - destruct ((rc =? 0)%Z || (rc =? -15)%Z) eqn:G; rewrite P.
    + apply orb_true_iff in G. rewrite !Z.eqb_eq in G. split.
      * intros rc'. split.
        -- intros [= <-]. auto.
        -- intros [[= <-] _]. reflexivity.
      * split; [discriminate|]. intros H. exfalso. exact (H rc eq_refl G).
    + apply orb_false_iff in G. rewrite !Z.eqb_neq in G. split.
      * intros rc'. split; [discriminate|]. intros [[= <-] H]. lia.
      * split; [|reflexivity]. intros _ rc' [= <-]. lia.
  - rewrite P. split.
    + intros rc. split; [discriminate|]. intros [[=] _].
    + split; [|reflexivity]. intros _ rc [=].
Qed.

Lemma grace_period_returns (step kill_delay : Q) (w : world) :
  0 < step ->
  exists w1, grace_period poll terminate elapse step kill_delay w = Some w1.
Proof.
  intros Hstep. unfold grace_period, iterations.
  apply terminate_loop_returns; [assumption|].
  cbn [signal now]. now apply iterations_enough.
Qed.

Lemma slept_step (step : Q) (k : nat) (w : world) :
  slept step (S k) w = slept step k (sleep step w).
Proof. unfold ProcRun.slept. now rewrite Nat.iter_succ_r. Qed.

Lemma Qltb_ge (a b : Q) : Qltb a b = false -> b <= a.
Proof. unfold Qltb. destruct (Qlt_le_dec a b); [discriminate|auto]. Qed.

(** What the loop of [_terminate] has done when it ends: it has slept
    [k] times, each time after a poll that found the child running before
    [kill_at], and it ends at the first poll that finds the child exited or
    the clock at [kill_at] or later. *)
Lemma terminate_loop_polls (step kill_at : Q) :
  forall (fuel : nat) (w w' : world),
    terminate_loop poll elapse fuel step kill_at w = Some w' ->
    exists k,
      w' = slept step k w /\
      (forall j, (j < k)%nat ->
         poll (child (slept step j w)) = None /\ now (slept step j w) < kill_at) /\
      (poll (child w') <> None \/ kill_at <= now w').
Proof.
  induction fuel as [|fuel IH]; intros w w' H; [discriminate|].
  cbn [terminate_loop] in H.
  destruct (is_none (poll (child w)) && Qltb (now w) kill_at) eqn:C.
  - destruct (IH _ _ H) as (k & -> & Hrun & Hend).
    apply andb_true_iff in C as [Hp Hq]. apply Qltb_true in Hq.
    exists (S k). split; [now rewrite slept_step|]. split.
    + intros [|j] Hj.
      * cbn. split; [|exact Hq]. now destruct (poll (child w)).
      * rewrite slept_step. apply Hrun. lia.
    + exact Hend.
  - injection H as <-. exists 0%nat. split; [reflexivity|]. split.
    + intros j Hj. lia.
    + apply andb_false_iff in C as [Hp|Hq].
      * left. now destruct (poll (child w)).
      * right. now apply Qltb_ge.
Qed.

(** The same for the loop of [wait_for_proc] when it ends without an exit. *)
Lemma wait_loop_polls (step stop_at : Q) :
  forall (fuel : nat) (w w1 : world),
    wait_loop poll elapse fuel step stop_at w = Some (inr w1) ->
    exists n,
      w1 = slept step n w /\
      (forall j, (j < n)%nat ->
         poll (child (slept step j w)) = None /\ now (slept step j w) < stop_at) /\
      stop_at <= now w1.
Proof.
  induction fuel as [|fuel IH]; intros w w1 H; [discriminate|].
  cbn [wait_loop] in H. destruct (Qltb (now w) stop_at) eqn:C.
  - destruct (poll (child w)) eqn:P; [discriminate|].
    destruct (IH _ _ H) as (n & -> & Hrun & Hend).
    apply Qltb_true in C.
    exists (S n). split; [now rewrite slept_step|]. split; [|exact Hend].
    intros [|j] Hj.
    + cbn. now split.
    + rewrite slept_step. apply Hrun. lia.
  - injection H as <-. exists 0%nat. split; [reflexivity|]. split.
    + intros j Hj. lia.
    + now apply Qltb_ge.
Qed.

(** C1, as the code has it: when the budget elapses before a natural exit
    (the loop of [wait_for_proc] has slept [n] times, each poll finding the
    child running, and ends at [w1] with the clock at [stop_at] or later),
    [wait_for_proc] always returns.  It logs that it stops early and sends
    the graceful signal (world [w0]); it then sleeps [k] times, each time
    after a poll that found the child running before [kill_at], and stops
    at the first poll that finds the child exited or the kill delay passed.
    A child that is still running then is killed and given one more poll
    interval.  The return code polled last is returned only when it is 0 or
    -15.  In every other case [ProcessError] is raised: when the child is
    still running, and also when it has exited with any other code, which is
    the case of a child that died from the forced kill. *)
Theorem wait_for_proc_timeout_outcome
    (stop_after_min : Q) (poll_interval kill_delay : option Q) (w w1 : world) :
  let step := or_default poll_interval DEFAULT_PROC_POLL_INTERVAL in
  let delay := or_default kill_delay DEFAULT_PROC_KILL_DELAY in
  let stop_at := now w + stop_after_min * 60 in
  let w0 := signal terminate (log_ InfoStoppingEarly w1) in
  let kill_at := now w1 + delay in
  0 < step ->
  wait_loop poll elapse (iterations step stop_at w) step stop_at w = Some (inr w1) ->
  (exists n,
     w1 = slept step n w /\
     (forall j, (j < n)%nat ->
        poll (child (slept step j w)) = None /\ now (slept step j w) < stop_at) /\
     stop_at <= now w1) /\
  exists k r w',
    (forall j, (j < k)%nat ->
       poll (child (slept step j w0)) = None /\ now (slept step j w0) < kill_at) /\
    (poll (child (slept step k w0)) <> None \/ kill_at <= now (slept step k w0)) /\
    grace_period poll terminate elapse step delay (log_ InfoStoppingEarly w1)
      = Some (slept step k w0) /\
    wait_for_proc poll terminate kill elapse stop_after_min poll_interval kill_delay w
      = Some (r, w') /\
    w' = (if is_none (poll (child (slept step k w0)))
          then sleep step (signal kill (log_ WarnKilling (slept step k w0)))
          else slept step k w0) /\
    (forall rc, r = Ok rc <-> poll (child w') = Some rc /\ graceful rc) /\
    (r = Raise ProcessError <->
       forall rc, poll (child w') = Some rc -> ~ graceful rc).
Proof.
  intros step delay stop_at w0 kill_at Hstep Hloop.
  split; [exact (wait_loop_polls _ _ _ _ Hloop)|].
  destruct (grace_period_returns delay (log_ InfoStoppingEarly w1) Hstep) as [w2 Hg].
  pose proof Hg as Hpolls. unfold grace_period in Hpolls.
  apply terminate_loop_polls in Hpolls as (k & Hw2 & Hrun & Hend).
  change (signal terminate (log_ InfoStoppingEarly w1)) with w0 in Hw2, Hrun.
  change (now (log_ InfoStoppingEarly w1) + delay) with kill_at in Hrun, Hend.
  subst w2.
  pose proof (terminate_finish_outcome step (slept step k w0)) as Hout.
  destruct (terminate_finish poll kill elapse step (slept step k w0)) as [r w'] eqn:F.
  exists k, r, w'. split; [exact Hrun|]. split; [exact Hend|].
  split; [exact Hg|]. split.
  - unfold wait_for_proc. fold step delay stop_at. rewrite Hloop.
    unfold _terminate. rewrite Hg, F. reflexivity.
  - split; [|exact Hout].
    unfold terminate_finish in F.
    destruct (poll (child (if is_none (poll (child (slept step k w0)))
                           then _ else slept step k w0)))
      as [rc|]; [destruct (_ || _)|]; now inversion F.
Qed.

End Supervisor.

(** C1 fails as stated: the budget elapses, the child ignores the graceful
    signal, the supervisor kills it and the child has exited when it is
    polled next (return code -9), yet [wait_for_proc] raises [ProcessError]
    instead of returning. *)
Lemma killed_child_raises_ProcessError :
  exists w',
    Stubborn.supervised = Some (Raise ProcessError, w') /\
    Stubborn.poll (child w') = Some (-9)%Z /\
    logged w' = [InfoStoppingEarly; WarnKilling].
Proof.
  eexists. split; [vm_compute; reflexivity|]. split; reflexivity.
Qed.

Lemma wait_for_proc_timeout_outcome_witness :
  let step := or_default None DEFAULT_PROC_POLL_INTERVAL in
  let delay := or_default None DEFAULT_PROC_KILL_DELAY in
  let w1 := World (60 # 1) Stubborn.Running [] in
  let w0 := signal Stubborn.terminate (log_ InfoStoppingEarly w1) in
  exists k r w',
    (forall j, (j < k)%nat ->
       Stubborn.poll (child (slept Stubborn.elapse step j w0)) = None /\
       now (slept Stubborn.elapse step j w0) < now w1 + delay) /\
    (Stubborn.poll (child (slept Stubborn.elapse step k w0)) <> None \/
     now w1 + delay <= now (slept Stubborn.elapse step k w0)) /\
    grace_period Stubborn.poll Stubborn.terminate Stubborn.elapse step delay
      (log_ InfoStoppingEarly w1) = Some (slept Stubborn.elapse step k w0) /\
    wait_for_proc Stubborn.poll Stubborn.terminate Stubborn.kill Stubborn.elapse
      1 None None Stubborn.start = Some (r, w') /\
    w' = (if is_none (Stubborn.poll (child (slept Stubborn.elapse step k w0)))
          then sleep Stubborn.elapse step
                 (signal Stubborn.kill
                    (log_ WarnKilling (slept Stubborn.elapse step k w0)))
          else slept Stubborn.elapse step k w0) /\
    (forall rc, r = Ok rc <-> Stubborn.poll (child w') = Some rc /\ graceful rc) /\
    (r = Raise ProcessError <->
       forall rc, Stubborn.poll (child w') = Some rc -> ~ graceful rc).
Proof.
  intros step delay w1 w0.
  apply (@wait_for_proc_timeout_outcome Stubborn.proc Stubborn.poll
           Stubborn.terminate Stubborn.kill Stubborn.elapse 1 None None
           Stubborn.start w1).
  - reflexivity.
  - vm_compute. reflexivity.
Defined.

End ProcFacts.

Module CmdFacts.

Import Cmd.
Local Open Scope string_scope.
Local Open Scope list_scope.

Lemma loop_past_end (fuel : nat) (main_args exec_args : list string) (i : nat) :
  List.length exec_args <= i ->
  apply_main_args_loop (S fuel) main_args i exec_args = Some exec_args.
Proof.
  intros H. cbn [apply_main_args_loop].
  destruct (Nat.ltb_spec i (List.length exec_args)); [lia|reflexivity].
Qed.

Lemma nth_error_middle (pre rest : list string) (tok : string) :
  nth_error (pre ++ tok :: rest) (List.length pre) = Some tok.
Proof.
  rewrite nth_error_app2 by lia. now rewrite Nat.sub_diag.
Qed.

Lemma splice_at_middle (pre rest main_args : list string) (tok : string) :
  splice_at (List.length pre) main_args (pre ++ tok :: rest)
  = pre ++ main_args ++ rest.
Proof.
  unfold splice_at.
  rewrite firstn_app, firstn_all, Nat.sub_diag, app_nil_r.
  rewrite skipn_app, skipn_all2 by lia.
  replace (List.length pre + 1 - List.length pre) with 1 by lia.
  reflexivity.
Qed.

(** The index loop computes [spliced] on the part of the list it has not
    passed yet; fuel beyond the length of that part is enough. *)
Lemma loop_spliced (main_args : list string) :
  forall (fuel : nat) (pre rest : list string),
    List.length rest < fuel ->
    apply_main_args_loop fuel main_args (List.length pre) (pre ++ rest)
    = Some (pre ++ spliced main_args rest).
Proof.
  induction fuel as [|fuel IH]; intros pre rest Hfuel; [lia|].
  destruct rest as [|tok rest].
  - cbn [spliced]. rewrite app_nil_r. apply loop_past_end. lia.
  - cbn [apply_main_args_loop spliced].
    destruct (Nat.ltb_spec (List.length pre) (List.length (pre ++ tok :: rest)))
      as [_|Hge]; [|rewrite length_app in Hge; cbn in Hge; lia].
    rewrite nth_error_middle.
    destruct (tok =? MAIN_ARGS) eqn:E.
    + rewrite splice_at_middle. cbn [List.length] in Hfuel.
      destruct rest as [|next rest].
      * destruct fuel as [|fuel]; [cbn in Hfuel; lia|].
        rewrite loop_past_end; [reflexivity|].
        rewrite !length_app. cbn. lia.
      * replace (pre ++ main_args ++ next :: rest)
          with ((pre ++ main_args ++ [next]) ++ rest)
          by (now rewrite <- !app_assoc).
        replace (List.length pre + List.length main_args + 1)
          with (List.length (pre ++ main_args ++ [next]))
          by (rewrite !length_app; cbn; lia).
        rewrite IH by (cbn [List.length] in Hfuel; lia).
        now rewrite <- !app_assoc.
    + replace (pre ++ tok :: rest) with ((pre ++ [tok]) ++ rest)
        by (now rewrite <- app_assoc).
      replace (List.length pre + 1) with (List.length (pre ++ [tok]))
        by (rewrite length_app; cbn; lia).
      rewrite IH by (cbn [List.length] in Hfuel; lia).
      now rewrite <- app_assoc.
Qed.

(** [_apply_main_args] always finishes, with the list [spliced] describes. *)
Lemma _apply_main_args_spliced (main_args exec_args : list string) :
  _apply_main_args main_args exec_args = Some (spliced main_args exec_args).
Proof.
  unfold _apply_main_args.
  exact (loop_spliced main_args (fuel := S (List.length exec_args)) [] exec_args
           (Nat.lt_succ_diag_r _)).
Qed.

(** Away from adjacent placeholders the loop replaces every occurrence in
    place and keeps every other token. *)
Lemma spliced_replace_every (main_args : list string) :
  forall exec_args : list string,
    no_adjacent exec_args = true ->
    spliced main_args exec_args = replace_every main_args exec_args.
Proof.
  induction exec_args as [|tok exec_args IH]; intros H; [reflexivity|].
  destruct exec_args as [|next rest].
  - cbn. destruct (tok =? MAIN_ARGS); now rewrite ?app_nil_r.
  - cbn [no_adjacent] in H. apply andb_true_iff in H as [Hadj Hrest].
    pose proof (IH Hrest) as IHnext.
    change (replace_every main_args (tok :: next :: rest))
      with ((if tok =? MAIN_ARGS then main_args else [tok])
              ++ replace_every main_args (next :: rest)).
    cbn [spliced] in *. destruct (tok =? MAIN_ARGS) eqn:E.
    + cbn in Hadj. destruct (next =? MAIN_ARGS) eqn:E'; [discriminate|].
      f_equal. rewrite <- IHnext. reflexivity.
    + cbn [app]. f_equal. exact IHnext.
Qed.

(** Scenario B: the template [[interpreter; "-run"; "${main_args}"; "--";
    "${flag_args}"]] with main tokens [["train.py"]]. *)
Lemma scenario_B (interpreter : string) :
  interpreter <> MAIN_ARGS ->
  interpreter <> FLAG_ARGS ->
  expand_placeholders ["train.py"] [interpreter; "-run"; MAIN_ARGS; "--"; FLAG_ARGS]
  = Some [interpreter; "-run"; "train.py"; "--"; FLAG_ARGS_MARKER].
Proof.
  intros Hm Hf. unfold expand_placeholders.
  rewrite _apply_main_args_spliced. cbn [spliced].
  apply String.eqb_neq in Hm, Hf. rewrite Hm.
  cbn. now rewrite Hf.
Qed.

(** C8 on a template with two placeholders in a row:
    [exec: python ${main_args} ${main_args} -- ${flag_args}] with
    [main: train.py].  The loop adds [len(main_args)] and then 1 to the
    index, so the token that follows the spliced tokens is never compared
    with the placeholder: the second placeholder stays in the argument list,
    where replacing the placeholder in place gives the main tokens twice. *)
Theorem adjacent_placeholder_left_in_place :
  expand_placeholders ["train.py"] ["python"; MAIN_ARGS; MAIN_ARGS; "--"; FLAG_ARGS]
  = Some ["python"; "train.py"; MAIN_ARGS; "--"; FLAG_ARGS_MARKER]
  /\ _apply_flag_args_marker
       (replace_every ["train.py"] ["python"; MAIN_ARGS; MAIN_ARGS; "--"; FLAG_ARGS])
     = ["python"; "train.py"; "train.py"; "--"; FLAG_ARGS_MARKER].
Proof.
  split; reflexivity.
Qed.

Section Template.

Variable step : Type.

Local Abbreviation template := (fun o : opdef step => snd (_opdef_exec_and_run_attrs o)).

(** C4: the exec template is chosen by the first of [exec], [main] and
    [steps] that is set (truthy); with none of them the definition is
    rejected with [InvalidOpDef]; run attributes are returned in the
    [steps] case only, and they are the step list under the key "steps". *)
Theorem exec_template_priority (o : opdef step) :
  (str_truthy (exec_ o) = true -> template o = Ok (exec_ o, None)) /\
  (str_truthy (exec_ o) = false -> str_truthy (main o) = true ->
     template o = Ok (Some MAIN_EXEC, None)) /\
  (str_truthy (exec_ o) = false -> str_truthy (main o) = false ->
   list_truthy (steps o) = true ->
     template o = Ok (Some STEPS_EXEC, Some [("steps", steps o)])) /\
  (str_truthy (exec_ o) = false -> str_truthy (main o) = false ->
   list_truthy (steps o) = false ->
     template o = Raise (InvalidOpDef o "must define either exec, main, or steps")) /\
  (forall e attrs, template o = Ok (e, Some attrs) ->
     str_truthy (exec_ o) = false /\ str_truthy (main o) = false /\
     list_truthy (steps o) = true /\ e = Some STEPS_EXEC /\
     attrs = [("steps", steps o)]).
Proof.
  unfold _opdef_exec_and_run_attrs, _run_attrs_for_steps.
  destruct (str_truthy (exec_ o)), (str_truthy (main o)), (list_truthy (steps o));
    cbn [snd]; repeat split; try congruence;
    intros e attrs [= <- <-]; reflexivity.
Qed.

End Template.

Lemma exec_template_priority_witness :
  snd (_opdef_exec_and_run_attrs (OpDef "train" None (Some "") (Some ["prepare"; "fit"])))
  = Ok (Some STEPS_EXEC, Some [("steps", Some ["prepare"; "fit"])]).
Proof.
  destruct (exec_template_priority
              (OpDef "train" None (Some "") (Some ["prepare"; "fit"])))
    as (_ & _ & Hsteps & _).
  apply Hsteps; reflexivity.
Defined.

End CmdFacts.

Module TeeFacts.

Import Tee.
Local Open Scope Z_scope.

Lemma length_be_bytes (n : nat) : forall z, List.length (be_bytes n z) = n.
Proof.
  induction n as [|n IH]; intros z; cbn [be_bytes]; [reflexivity|].
  rewrite length_app, IH. cbn. lia.
Qed.

Lemma be_value_snoc (bs : list byte) (b : byte) :
  be_value (bs ++ [b]) = be_value bs * 256 + b.
Proof.
  unfold be_value. now rewrite fold_left_app.
Qed.

(** Reading big-endian bytes back gives the number they were made from. *)
Lemma be_value_be_bytes (n : nat) :
  forall z, 0 <= z < 256 ^ Z.of_nat n -> be_value (be_bytes n z) = z.
Proof.
  induction n as [|n IH]; intros z Hz.
  - cbn in *. lia.
  - cbn [be_bytes]. rewrite be_value_snoc, IH.
    + pose proof (Z.div_mod z 256). lia.
    + rewrite Nat2Z.inj_succ, Z.pow_succ_r in Hz by lia.
      split; [apply Z.div_pos; lia|].
      apply Z.div_lt_upper_bound; lia.
Qed.

Lemma pack_QB_in_range (ts : Z) (s : stream) :
  0 <= ts < 2 ^ 64 ->
  pack_QB ts (stream_type s) = Ok (be_bytes 8 ts ++ [stream_type s]).
Proof.
  intros [Hlo Hhi]. unfold pack_QB.
  apply Z.leb_le in Hlo. apply Z.ltb_lt in Hhi. rewrite Hlo, Hhi.
  now destruct s.
Qed.

Lemma index_records_entry (fuel : nat) (stamp rest : list byte) (tag : byte) :
  List.length stamp = 8%nat ->
  index_records (S fuel) (stamp ++ tag :: rest)
  = option_map (cons (be_value stamp, tag)) (index_records fuel rest).
Proof.
  intros Hlen. destruct stamp as [|b stamp]; [discriminate|].
  change ((b :: stamp) ++ tag :: rest) with (b :: (stamp ++ tag :: rest)).
  cbn [index_records].
  change (b :: (stamp ++ tag :: rest)) with ((b :: stamp) ++ tag :: rest).
  rewrite skipn_app, firstn_app, Hlen, Nat.sub_diag.
  rewrite skipn_all2, firstn_all2 by lia.
  cbn [skipn firstn app]. now rewrite app_nil_r.
Qed.

(** The records of an index file made of [entries]. *)
Lemma parse_entries (time_ms : nat -> Z) :
  (forall k, 0 <= time_ms k < 2 ^ 64) ->
  forall (srcs : list stream) (k fuel : nat),
    (List.length srcs <= fuel)%nat ->
    index_records fuel (entries time_ms k srcs) = Some (stamped time_ms k srcs).
Proof.
  intros Hclock. induction srcs as [|s srcs IH]; intros k fuel Hfuel.
  - now destruct fuel.
  - destruct fuel as [|fuel]; [cbn in Hfuel; lia|].
    cbn [entries stamped app].
    rewrite index_records_entry by apply length_be_bytes.
    rewrite IH by (cbn in Hfuel; lia).
    rewrite be_value_be_bytes by apply Hclock.
    reflexivity.
Qed.

Lemma length_entries (time_ms : nat -> Z) :
  forall (srcs : list stream) (k : nat),
    List.length (entries time_ms k srcs) = (9 * List.length srcs)%nat.
Proof.
  induction srcs as [|s srcs IH]; intros k; [reflexivity|].
  cbn [entries]. rewrite !length_app, length_be_bytes, IH. cbn [List.length]. lia.
Qed.

Lemma entries_app (time_ms : nat -> Z) :
  forall (a b : list stream) (k : nat),
    entries time_ms k (a ++ b)
    = entries time_ms k a ++ entries time_ms (k + List.length a) b.
Proof.
  induction a as [|s a IH]; intros b k.
  - cbn. now rewrite Nat.add_0_r.
  - cbn [entries app List.length]. rewrite IH, <- !app_assoc.
    now rewrite Nat.add_succ_r.
Qed.

Lemma stream_eqb_refl (s : stream) : stream_eqb s s = true.
Proof. now destruct s. Qed.

Lemma stream_eqb_neq (s s' : stream) : s <> s' -> stream_eqb s s' = false.
Proof. destruct s, s'; intros H; (reflexivity || now elim H). Qed.

Lemma stream_eqb_eq (s s' : stream) : stream_eqb s s' = true -> s = s'.
Proof. destruct s, s'; cbn; congruence. Qed.

Lemma upd_same {A} (f : stream -> A) (s : stream) (x : A) : upd f s x s = x.
Proof. unfold upd. now rewrite stream_eqb_refl. Qed.

Lemma upd_other {A} (f : stream -> A) (s s' : stream) (x : A) :
  s <> s' -> upd f s x s' = f s'.
Proof. intros H. unfold upd. now rewrite stream_eqb_neq. Qed.

Lemma pending_app (a b : list byte) :
  forall l, pending (a ++ b) l = pending b (pending a l).
Proof.
  induction a as [|x a IH]; intros l; [reflexivity|].
  cbn [app pending]. destruct (x <? 9); [apply IH|].
  destruct (x =? LF); apply IH.
Qed.

Lemma pending_lf_terminated (pre l : list byte) : pending (pre ++ [LF]) l = [].
Proof. rewrite pending_app. reflexivity. Qed.

Lemma count_lf_app (a b : list byte) :
  count_lf (a ++ b) = (count_lf a + count_lf b)%nat.
Proof. unfold count_lf. now rewrite filter_app, length_app. Qed.

Section Reader.

Variable time_ms : nat -> Z.
Variable callback : Type.
Variable cb_write : callback -> list byte -> callback * bool.
Variable mirror : stream -> bool.

Hypothesis clock_in_range : forall k, 0 <= time_ms k < 2 ^ 64.

Local Abbreviation state := (state callback).
Local Abbreviation _output_eol := (_output_eol time_ms cb_write).
Local Abbreviation scan := (scan time_ms cb_write).
Local Abbreviation tee_step := (tee_step time_ms cb_write mirror).
Local Abbreviation tee_run := (tee_run time_ms cb_write mirror).
Local Abbreviation emits := (emits time_ms).

Lemma emits_nil (st : state) : emits st st [].
Proof.
  unfold emits. cbn. now rewrite app_nil_r, Nat.add_0_r.
Qed.

Lemma emits_trans (st1 st2 st3 : state) (a b : list stream) :
  emits st1 st2 a -> emits st2 st3 b -> emits st1 st3 (a ++ b).
Proof.
  intros (I1 & C1) (I2 & C2). unfold emits.
  rewrite I2, I1, C1, C2, entries_app, length_app, <- app_assoc.
  split; [reflexivity|lia].
Qed.

(** [_output_eol] adds one entry and leaves the [line] lists alone. *)
Lemma _output_eol_emits (st : state) (l : list byte) (s : stream) :
  exists st', _output_eol st l s = Ok st' /\ emits st st' [s] /\ same_rest st st'.
Proof.
  unfold Tee._output_eol. rewrite pack_QB_in_range by apply clock_in_range.
  assert (E : forall ix : list byte,
             ix ++ be_bytes 8 (time_ms (clock_reads st)) ++ [stream_type s]
             = ix ++ entries time_ms (clock_reads st) [s])
    by (intros ix; cbn [entries]; now rewrite app_nil_r).
  destruct (Tee._output_cb st) as [c|].
  - destruct (cb_write c l) as [c' [|]]; eexists; (split; [reflexivity|]);
      unfold emits, same_rest; cbn; rewrite E; repeat split; lia.
  - eexists; (split; [reflexivity|]);
      unfold emits, same_rest; cbn; rewrite E; repeat split; lia.
Qed.

(** Scanning a chunk adds one entry per line feed, all tagged with the
    stream of the scanning thread. *)
Lemma scan_emits (s : stream) :
  forall (buf : list byte) (st : state),
    exists st',
      scan buf s st = Ok st' /\
      emits st st' (repeat s (count_lf buf)) /\
      line st' s = pending buf (line st s) /\
      (forall s', s <> s' -> line st' s' = line st s') /\
      exited st' = exited st /\ output st' = output st.
Proof.
  induction buf as [|b buf IH]; intros st.
  - exists st. split; [reflexivity|]. split; [apply emits_nil|].
    repeat split; reflexivity.
  - cbn [Tee.scan pending]. unfold count_lf. cbn [filter].
    destruct (b <? 9) eqn:Hctl.
    + assert ((b =? LF) = false) as -> by (unfold LF; lia). apply IH.
    + destruct (b =? LF) eqn:Hlf.
      * destruct (_output_eol_emits (set_line st s (line st s ++ [b]))
                    (line (set_line st s (line st s ++ [b])) s) s)
          as (st1 & -> & Hem1 & Hline1 & Hex1 & Hout1).
        destruct (IH (set_line st1 s []))
          as (st2 & -> & Hem2 & Hline2 & Hother2 & Hex2 & Hout2).
        exists st2. split; [reflexivity|]. split; [|split; [|split; [|split]]].
        -- exact (emits_trans (a := [s]) Hem1 Hem2).
        -- rewrite Hline2. cbn [set_line line]. now rewrite upd_same.
        -- intros s' Hs'. rewrite Hother2 by assumption. cbn [set_line line].
           rewrite upd_other, Hline1 by assumption. cbn [set_line line].
           now rewrite upd_other.
        -- rewrite Hex2. cbn [set_line exited]. now rewrite Hex1.
        -- rewrite Hout2. cbn [set_line output]. now rewrite Hout1.
      * destruct (IH (set_line st s (line st s ++ [b])))
          as (st2 & -> & Hem2 & Hline2 & Hother2 & Hex2 & Hout2).
        exists st2. split; [reflexivity|]. split; [|split; [|split; [|split]]].
        -- exact Hem2.
        -- rewrite Hline2. cbn [set_line line]. now rewrite upd_same.
        -- intros s' Hs'. rewrite Hother2 by assumption. cbn [set_line line].
           now rewrite upd_other.
        -- now rewrite Hex2.
        -- now rewrite Hout2.
Qed.

Lemma no_reads_after_exit (s : stream) :
  forall (reads : list (stream * list byte)) (ex : stream -> bool),
    schedule_ok ex reads -> ex s = true -> bytes_of s reads = [].
Proof.
  induction reads as [|[s0 buf] reads IH]; intros ex Hok Hs; [reflexivity|].
  destruct Hok as [Hs0 Hok]. cbn [bytes_of flat_map fst snd].
  assert (Hne : s0 <> s) by congruence.
  rewrite stream_eqb_neq by congruence. cbn [app].
  apply (IH _ Hok). destruct buf; [now rewrite upd_other|assumption].
Qed.

Lemma bytes_of_cons (s s0 : stream) (buf : list byte)
    (reads : list (stream * list byte)) :
  bytes_of s ((s0, buf) :: reads)
  = (if stream_eqb s s0 then buf else []) ++ bytes_of s reads.
Proof. reflexivity. Qed.

(** The index after a run of reads in which every thread ends with an
    empty [line] list. *)
Lemma tee_run_emits :
  forall (reads : list (stream * list byte)) (st : state),
    schedule_ok (exited st) reads ->
    (forall s, exited st s = false -> pending (bytes_of s reads) (line st s) = []) ->
    emits st (tee_run reads st) (line_sources reads) /\
    output (tee_run reads st) = output st ++ List.concat (map snd reads).
Proof.
  induction reads as [|[s buf] reads IH]; intros st Hok Hpend.
  - split; [apply emits_nil|]. cbn. now rewrite app_nil_r.
  - destruct Hok as [Hlive Hok].
    change (tee_run ((s, buf) :: reads) st) with (tee_run reads (tee_step st s buf)).
    cbn [line_sources flat_map fst snd map concat].
    unfold Tee.tee_step. rewrite Hlive.
    destruct buf as [|b buf].
    + pose proof (Hpend s Hlive) as Hs.
      rewrite bytes_of_cons, stream_eqb_refl in Hs. cbn [app] in Hs.
      rewrite (@no_reads_after_exit s reads _ Hok) in Hs by apply upd_same.
      cbn [pending] in Hs. rewrite Hs.
      apply (IH (set_exited st s)); [exact Hok|].
      intros s' Hs'. cbn [set_exited line exited] in *.
      assert (Hne : s <> s') by (intros ->; rewrite upd_same in Hs'; discriminate).
      rewrite upd_other in Hs' by assumption.
      specialize (Hpend s' Hs'). rewrite bytes_of_cons in Hpend.
      rewrite stream_eqb_neq in Hpend by congruence. exact Hpend.
    + destruct (scan_emits s (b :: buf) (write_chunk mirror st s (b :: buf)))
        as (st' & -> & Hem & Hline & Hother & Hex & Hout).
      destruct (IH st') as [Hrun Hlog].
      * rewrite Hex. exact Hok.
      * intros s' Hs'. rewrite Hex in Hs'. cbn [write_chunk exited] in Hs'.
        specialize (Hpend s' Hs'). rewrite bytes_of_cons in Hpend.
        destruct (stream_eqb s' s) eqn:E.
        -- apply stream_eqb_eq in E. subst s'.
           rewrite Hline. cbn [write_chunk line].
           now rewrite <- pending_app.
        -- rewrite Hother by (intros ->; now rewrite stream_eqb_refl in E).
           exact Hpend.
      * split.
        -- exact (emits_trans Hem Hrun).
        -- rewrite Hlog, Hout. cbn [write_chunk output]. now rewrite <- app_assoc.
Qed.

Lemma length_line_sources (reads : list (stream * list byte)) :
  List.length (line_sources reads) = count_lf (List.concat (map snd reads)).
Proof.
  induction reads as [|[s buf] reads IH]; [reflexivity|].
  cbn [line_sources flat_map map List.concat fst snd].
  rewrite length_app, repeat_length, count_lf_app. unfold line_sources in IH.
  now rewrite IH.
Qed.


End Reader.


End TeeFacts.

Module RunOutputFacts.

Import RunOutput.
Local Open Scope string_scope.

Lemma pristine_init (quiet : bool) (cb : option callback) :
  pristine (__init__ quiet cb).
Proof. repeat split. Qed.

Lemma _assert_closed_pristine (self : t) :
  pristine self -> _assert_closed self = Ok tt.
Proof.
  intros (Ho & Hp & Hout & Hix & Ht1 & Ht2). unfold _assert_closed.
  now rewrite Ho, Hp, Hout, Hix, Ht1, Ht2.
Qed.

Lemma _assert_open_opened (self : t) :
  opened self -> _assert_open self = Ok tt.
Proof.
  intros (Ho & Hout & Hix & Ht & p & Hp & _ & Herr). unfold _assert_open.
  rewrite Ho, Hp, Hout, Hix, Ht. cbn.
  destruct (is_some (stderr p)); [now rewrite Herr|reflexivity].
Qed.

Lemma _assert_open_closed (self : t) :
  _open self = false -> _assert_open self = Raise (RuntimeError "not open").
Proof. intros H. unfold _assert_open. now rewrite H. Qed.

Lemma is_some_join (th : option thread) : is_some (join th) = is_some th.
Proof. now destruct th. Qed.

Lemma joined_opened (self : t) :
  opened self ->
  opened (Obj (_quiet self) (_output_cb self) (_open self) (_proc self)
              (_output self) (_index self)
              (join (_out_tee self)) (join (_err_tee self)) (logged self)).
Proof.
  intros (Ho & Hout & Hix & Ht & p & Hp & Hpipe & Herr).
  unfold opened. cbn. rewrite !is_some_join. eauto 10.
Qed.

(** Every event takes a pristine object to a pristine or an opened one,
    and an opened object likewise. *)
Lemma step_invariant (self : t) (e : event) :
  pristine self \/ opened self ->
  pristine (snd (step self e)) \/ opened (snd (step self e)).
Proof.
  intros Hinv. destruct e as [p| |acquired|]; cbn [step].
  - unfold open. destruct Hinv as [Hp|Ho].
    + rewrite _assert_closed_pristine by assumption.
      destruct (stdout p) as [fd|] eqn:Hfd; [right|now left].
      cbn. unfold opened. cbn. repeat split.
      exists p. rewrite Hfd. repeat split.
      intros ->. reflexivity.
    + unfold _assert_closed. pose proof Ho as (Hopen & _). rewrite Hopen.
      now right.
  - unfold wait. destruct Hinv as [Hp|Ho].
    + rewrite _assert_open_closed by apply Hp. now left.
    + rewrite _assert_open_opened by assumption. right. now apply joined_opened.
  - unfold close. destruct acquired; [|exact Hinv].
    unfold _close. destruct Hinv as [Hp|Ho].
    + rewrite _assert_open_closed by apply Hp. now left.
    + rewrite _assert_open_opened by assumption.
      cbn. destruct (thread_alive (_out_tee self));
        [|destruct (thread_alive (_err_tee self)); [|left; repeat split]];
        right; cbn;
        destruct Ho as (Ho & Hout & Hix & Ht & p & Hp & Hpipe & Herr);
        unfold opened; cbn;
        destruct (_output self), (_index self); try discriminate; eauto 10.
  - destruct Hinv as [Hp|Ho].
    + left. destruct Hp as (Ho & Hp & Hout & Hix & Ht1 & Ht2).
      unfold pristine. cbn. now rewrite Ht1, Ht2.
    + right. now apply joined_opened.
Qed.

Lemma run_invariant (es : list event) :
  forall self : t,
    pristine self \/ opened self ->
    pristine (snd (run es self)) \/ opened (snd (run es self)).
Proof.
  induction es as [|e es IH]; intros self Hinv; [exact Hinv|].
  cbn [run]. pose proof (step_invariant e Hinv) as Hstep.
  destruct (step self e) as [r self1]. specialize (IH self1 Hstep).
  destruct (run es self1) as [rs self2]. exact IH.
Qed.

Lemma reachable_invariant (self : t) :
  reachable self -> pristine self \/ opened self.
Proof.
  intros (quiet & cb & es & ->). apply run_invariant. left. apply pristine_init.
Qed.

(** C5, as the code has it: an object is closed, open, closed again, and
    so on.  [open] fails with "already open" while the object is open, and
    with "proc stdout must be a PIPE" for a process without a stdout pipe;
    [wait] and [close] fail with "not open" while the object is closed.  A
    [close] that completes resets every attribute, and [open] succeeds on any
    closed object, one that was open before included. *)
Theorem open_wait_close_cycle (self : t) :
  reachable self ->
  (_open self = true ->
     forall p, open self p = (Raise (RuntimeError "already open"), self)) /\
  (_open self = false ->
     forall p, stdout p = None ->
       open self p = (Raise (RuntimeError "proc stdout must be a PIPE"), self)) /\
  (_open self = false ->
     wait self = (Raise (RuntimeError "not open"), self) /\
     close self true = (Raise (RuntimeError "not open"), self)) /\
  (_open self = false ->
     forall p, stdout p <> None ->
       exists self', open self p = (Ok tt, self') /\ _open self' = true) /\
  (forall acquired self',
     close self acquired = (Ok tt, self') -> pristine self').
Proof.
  intros Hreach. apply reachable_invariant in Hreach as Hinv.
  assert (Hclosed : _open self = false -> pristine self).
  { intros Hc. destruct Hinv as [Hp|(Ho & _)]; [exact Hp|congruence]. }
  split; [|split; [|split; [|split]]].
  - intros Ho p. unfold open, _assert_closed. now rewrite Ho.
  - intros Hc p Hp. unfold open.
    rewrite _assert_closed_pristine by auto. now rewrite Hp.
  - intros Hc. unfold wait, close, _close.
    now rewrite _assert_open_closed by assumption.
  - intros Hc p Hp. unfold open.
    rewrite _assert_closed_pristine by auto.
    destruct (stdout p); [eexists; split; reflexivity|congruence].
  - intros acquired self'. unfold close, _close.
    destruct acquired; [|discriminate].
    destruct (_assert_open self); [|discriminate].
    cbn. destruct (thread_alive (_out_tee self)); [discriminate|].
    destruct (thread_alive (_err_tee self)); [discriminate|].
    intros [= <-]. repeat split.
Qed.

(** C5 fails as stated: on one object, [open], [wait], [close] and a second
    [open] all succeed, and the object is open again. *)
Lemma closed_object_opens_again :
  fst reopened = [Ok tt; Ok tt; Ok tt; Ok tt] /\ _open (snd reopened) = true.
Proof. split; reflexivity. Qed.

Lemma open_wait_close_cycle_witness :
  exists self',
    open (snd (run [CallOpen piped; CallWait; CallClose true] (__init__ false None)))
         piped = (Ok tt, self') /\
    _open self' = true.
Proof.
  destruct (@open_wait_close_cycle
              (snd (run [CallOpen piped; CallWait; CallClose true]
                        (__init__ false None))))
    as (_ & _ & _ & Hopen & _).
  - exists false, None, [CallOpen piped; CallWait; CallClose true]. reflexivity.
  - apply Hopen; [reflexivity|discriminate].
Defined.

End RunOutputFacts.

Module PyFacts.

Import Py.
Local Open Scope string_scope.

Lemma get_set_same (d : dict) (k : string) (v : val) : get (set d k v) k = v.
Proof.
  induction d as [|[k' v'] d IH]; cbn [set get].
  - now rewrite String.eqb_refl.
  - destruct (k' =? k) eqn:E; cbn [get]; rewrite E; [reflexivity|exact IH].
Qed.

Lemma get_set_other (d : dict) (k k' : string) (v : val) :
  k <> k' -> get (set d k v) k' = get d k'.
Proof.
  intros Hne. induction d as [|[k0 v0] d IH]; cbn [set get].
  - apply String.eqb_neq in Hne. now rewrite Hne.
  - destruct (k0 =? k) eqn:E; cbn [get].
    + apply String.eqb_eq in E. subst k0.
      apply String.eqb_neq in Hne. now rewrite Hne.
    + destruct (k0 =? k'); [reflexivity|exact IH].
Qed.

(** The values Python treats as false. *)
Lemma falsy_values (v : val) :
  truthy v = false <->
  v = None_ \/ v = Bool false \/ v = Int 0 \/ (exists s, v = Float (S754_zero s))
  \/ v = Str "" \/ v = List_ [].
Proof.
  split.
  - destruct v as [|b|z|f|s|l]; cbn [truthy]; intros H.
    + auto.
    + subst b. auto.
    + apply negb_false_iff, Z.eqb_eq in H. subst z. auto.
    + destruct f; try discriminate. eauto 6.
    + apply negb_false_iff, String.eqb_eq in H. subst s. auto 6.
    + destruct l; [auto 6|discriminate].
  - intros [->|[->|[->|[[s ->]|[->| ->]]]]]; reflexivity.
Qed.

End PyFacts.

Module FlagsFacts.

Import Py Flags PyFacts.
Local Open Scope string_scope.

Section WithRuntime.

Variable rt : runtime.

Lemma _check_flag_choice_falsy (v : val) (flag : flagdef) :
  truthy v = false -> _check_flag_choice v flag = Ok tt.
Proof.
  intros H. unfold _check_flag_choice. now rewrite H.
Qed.

(** C10: the choice check lets every falsy value pass (None, False, 0,
    0.0 and the empty string among them), whatever the declared choices
    are; it raises [InvalidFlagChoice] exactly for a truthy value that
    equals neither the alias nor the value of any declared choice, when
    other values are not allowed and choices are declared.  The check of one
    value, [_check_flag_val_], raises no [InvalidFlagChoice] for a falsy
    value either. *)
Theorem falsy_value_passes_choice_check (v : val) (flag : flagdef) :
  (truthy v = false -> _check_flag_choice v flag = Ok tt) /\
  (truthy v = false ->
     forall e v' flag', _check_flag_val_ rt v flag = Raise e ->
                        e <> InvalidFlagChoice v' flag') /\
  (forall e, _check_flag_choice v flag = Raise e <->
     e = InvalidFlagChoice v flag /\ truthy v = true /\
     allow_other flag = false /\ choices flag <> [] /\
     choice_matches v (choices flag) = false) /\
  (truthy None_ = false /\ truthy (Bool false) = false /\ truthy (Int 0) = false /\
   truthy (Float (S754_zero false)) = false /\ truthy (Str "") = false).
Proof.
  split; [apply _check_flag_choice_falsy|].
  split; [|split; [|repeat split]].
  - intros Hf e v' flag'. unfold _check_flag_val_.
    destruct (is_flag_function rt v); [discriminate|].
    rewrite _check_flag_choice_falsy by assumption. cbn [bind].
    unfold _check_flag_type. rewrite Hf, andb_false_r. cbn [andb bind].
    unfold _check_flag_range. destruct (is_none v); [discriminate|].
    assert (Hcall : forall (c : bool) (r : result pyexn bool) b,
               (if c then Ok false else call r) = Raise b ->
               b <> InvalidFlagChoice v' flag').
    { intros [|] [b|e0] e1; cbn; intros [= <-]; discriminate. }
    destruct (if is_none (min_ flag) then _ else _) as [[|]|e1] eqn:Hmin; cbn [bind].
    + intros [= <-]. discriminate.
    + destruct (if is_none (max_ flag) then _ else _) as [[|]|e2] eqn:Hmax; cbn [bind].
      * intros [= <-]. discriminate.
      * discriminate.
      * intros [= <-]. exact (Hcall _ _ _ Hmax).
    + intros [= <-]. exact (Hcall _ _ _ Hmin).
  - intros e. unfold _check_flag_choice.
    destruct (truthy v), (allow_other flag), (choices flag) as [|c cs] eqn:Hc;
      cbn [negb orb];
      try (split; [discriminate|intros (_ & H1 & H2 & H3 & _); congruence]).
    destruct (choice_matches v (c :: cs)).
    + split; [discriminate|]. intros (_ & _ & _ & _ & H). discriminate.
    + split; [intros [= <-]|intros (-> & _)]; repeat split; discriminate.
Qed.

Lemma _apply_choice_flags_untouched (choice_flags user_vals : dict) (n : string) :
  forall target_vals : dict,
    ~ In n (map fst choice_flags) ->
    get (_apply_choice_flags choice_flags user_vals target_vals) n
    = get target_vals n.
Proof.
  induction choice_flags as [|[k x] cf IH]; intros target Hn; [reflexivity|].
  cbn [_apply_choice_flags]. cbn [map fst In] in Hn.
  rewrite IH by tauto.
  destruct (is_none (get user_vals k)); [|reflexivity].
  apply get_set_other. tauto.
Qed.

(** An implied value is written for a name the caller left unset... *)
Lemma _apply_choice_flags_implied (choice_flags user_vals : dict) (n : string) (v : val) :
  forall target_vals : dict,
    In (n, v) choice_flags ->
    NoDup (map fst choice_flags) ->
    is_none (get user_vals n) = true ->
    get (_apply_choice_flags choice_flags user_vals target_vals) n = v.
Proof.
  induction choice_flags as [|[k x] cf IH]; intros target Hin Hdup Hnone; [easy|].
  cbn [_apply_choice_flags]. cbn [map fst] in Hdup.
  apply NoDup_cons_iff in Hdup as [Hk Hdup].
  destruct Hin as [[= -> ->]|Hin].
  - rewrite _apply_choice_flags_untouched by assumption.
    rewrite Hnone. apply get_set_same.
  - now apply IH.
Qed.

(** ... and nothing is written for a name the caller has set. *)
Lemma _apply_choice_flags_user (choice_flags user_vals : dict) (n : string) :
  forall target_vals : dict,
    is_none (get user_vals n) = false ->
    get (_apply_choice_flags choice_flags user_vals target_vals) n
    = get target_vals n.
Proof.
  induction choice_flags as [|[k x] cf IH]; intros target Hset; [reflexivity|].
  cbn [_apply_choice_flags]. rewrite IH by assumption.
  destruct (is_none (get user_vals k)) eqn:Hk; [|reflexivity].
  apply get_set_other. intros ->. congruence.
Qed.

(** What one choice can do to the value under a name the caller has set:
    nothing, unless the name is the flag's own and the choice has an alias. *)
Lemma apply_choice_user (fd : flagdef) (flag_val : val) (user_vals target_vals : dict)
    (c : choice) (n : string) :
  is_none (get user_vals n) = false ->
  get (apply_choice fd flag_val user_vals target_vals c) n = get target_vals n \/
  (name fd = n /\ truthy (calias c) = true /\
   get (apply_choice fd flag_val user_vals target_vals c) n = cvalue c).
Proof.
  intros Hset. unfold apply_choice.
  destruct (negb (eqb (or_ (calias c) (cvalue c)) flag_val)); [now left|].
  assert (Hflags : forall t,
             get (match cflags c with
                  | [] => t
                  | _ :: _ => _apply_choice_flags (cflags c) user_vals t
                  end) n = get t n).
  { intros t. destruct (cflags c) eqn:E; [reflexivity|].
    rewrite <- E. now apply _apply_choice_flags_user. }
  rewrite Hflags. destruct (truthy (calias c)) eqn:Ha; [|now left].
  destruct (String.eqb_spec (name fd) n) as [Heq|Hne].
  - right. rewrite <- Heq. now rewrite get_set_same.
  - left. now apply get_set_other.
Qed.

Lemma apply_choices_user (fd : flagdef) (flag_val : val) (user_vals target0 : dict)
    (flagdefs : list flagdef) (n : string) :
  is_none (get user_vals n) = false ->
  In fd flagdefs ->
  forall (cs : list choice) (target_vals : dict),
    incl cs (choices fd) ->
    kept_or_translated flagdefs target0 n (get target_vals n) ->
    kept_or_translated flagdefs target0 n
      (get (fold_left (apply_choice fd flag_val user_vals) cs target_vals) n).
Proof.
  intros Hset Hfd. induction cs as [|c cs IH]; intros target Hincl Hinv; [exact Hinv|].
  cbn [fold_left]. apply IH; [intros x Hx; apply Hincl; now right|].
  destruct (@apply_choice_user fd flag_val user_vals target c n Hset) as [->|(Hn & Ha & ->)];
    [exact Hinv|].
  right. exists fd, c. repeat split; auto. apply Hincl. now left.
Qed.

Lemma _apply_choice_vals_user (user_vals target0 : dict) (all_flagdefs : list flagdef)
    (n : string) :
  is_none (get user_vals n) = false ->
  forall (flagdefs : list flagdef) (target_vals : dict),
    incl flagdefs all_flagdefs ->
    kept_or_translated all_flagdefs target0 n (get target_vals n) ->
    kept_or_translated all_flagdefs target0 n
      (get (_apply_choice_vals flagdefs user_vals target_vals) n).
Proof.
  intros Hset. unfold _apply_choice_vals.
  induction flagdefs as [|fd fds IH]; intros target Hincl Hinv; [exact Hinv|].
  cbn [fold_left]. apply IH; [intros x Hx; apply Hincl; now right|].
  unfold apply_flagdef_choices.
  destruct (choices fd) as [|c cs] eqn:Hcs; [exact Hinv|].
  destruct (is_none (get target (name fd))); [exact Hinv|].
  rewrite <- Hcs. apply apply_choices_user; auto.
  - apply Hincl. now left.
  - apply incl_refl.
Qed.

Lemma flag_vals_for_opdef_checked (flagdefs : list flagdef) (user_flag_vals : dict) :
  flag_vals_for_opdef rt flagdefs user_flag_vals false
  = bind (coerced_flag_vals rt flagdefs user_flag_vals false)
      (fun vals =>
         bind (_check_no_such_flags vals flagdefs) (fun _ =>
         bind (_check_flag_vals rt vals flagdefs) (fun _ =>
         bind (_check_required_flags vals flagdefs) (fun _ =>
         Ok (_apply_choice_vals flagdefs user_flag_vals vals))))).
Proof.
  unfold flag_vals_for_opdef, coerced_flag_vals. cbn [negb].
  destruct (normalize_flag_aliases flagdefs user_flag_vals false) as [vals0|e];
    [|reflexivity].
  cbn [bind].
  destruct (_apply_coerce_flag_vals rt flagdefs false _) as [vals|e]; [|reflexivity].
  cbn [bind].
  destruct (_check_no_such_flags vals flagdefs); [|reflexivity].
  cbn [bind].
  destruct (_check_flag_vals rt vals flagdefs); reflexivity.
Qed.

Lemma _missing_flags_spec (vals : dict) (flagdefs : list flagdef) (flag : flagdef) :
  In flag (_missing_flags vals flagdefs) <->
  In flag flagdefs /\ required flag = true /\
  _flag_missing (get vals (name flag)) = true.
Proof.
  unfold _missing_flags. rewrite filter_In, andb_true_iff. tauto.
Qed.

Lemma _flag_missing_spec (v : val) :
  _flag_missing v = match v with
                    | None_ => true
                    | Str text => text =? ""
                    | _ => false
                    end.
Proof. destruct v; reflexivity. Qed.

Lemma _missing_flags_filter (vals : dict) (flagdefs : list flagdef) :
  _missing_flags vals flagdefs =
  filter (fun flag =>
            required flag &&
            match get vals (name flag) with
            | None_ => true
            | Str text => text =? ""
            | _ => false
            end) flagdefs.
Proof.
  unfold _missing_flags. apply filter_ext. intros flag.
  now rewrite _flag_missing_spec.
Qed.

(** C2, as the code has it: without [force], the required check looks at
    the flag values after aliases, defaults and coercion ([vals]).  When a
    map is returned, no required flag was [None] or "" in [vals], and the
    map is [vals] with the choice values applied afterwards.  When the
    checks before it pass and required flags are missing in [vals], the call
    raises one [MissingRequiredFlags] whose list is the flag definitions
    that are required and have [None] or "" in [vals]: every such
    definition, no other, in the order of the flag definitions. *)
Theorem required_flags_checked (flagdefs : list flagdef) (user_flag_vals : dict) :
  (forall m,
     flag_vals_for_opdef rt flagdefs user_flag_vals false = Ok m ->
     exists vals,
       coerced_flag_vals rt flagdefs user_flag_vals false = Ok vals /\
       (forall flag, In flag flagdefs -> required flag = true ->
                     get vals (name flag) <> None_ /\
                     get vals (name flag) <> Str "") /\
       m = _apply_choice_vals flagdefs user_flag_vals vals) /\
  (forall vals,
     coerced_flag_vals rt flagdefs user_flag_vals false = Ok vals ->
     _check_no_such_flags vals flagdefs = Ok tt ->
     _check_flag_vals rt vals flagdefs = Ok tt ->
     let missing :=
       filter (fun flag =>
                 required flag &&
                 match get vals (name flag) with
                 | None_ => true
                 | Str text => text =? ""
                 | _ => false
                 end) flagdefs in
     missing <> [] ->
     flag_vals_for_opdef rt flagdefs user_flag_vals false
     = Raise (MissingRequiredFlags missing)) /\
  (forall vals flag,
     In flag (_missing_flags vals flagdefs) <->
     In flag flagdefs /\ required flag = true /\
     (get vals (name flag) = None_ \/ get vals (name flag) = Str "")).
Proof.
  split; [|split].
  - intros m. rewrite flag_vals_for_opdef_checked.
    destruct (coerced_flag_vals rt flagdefs user_flag_vals false) as [vals|e];
      [|discriminate].
    cbn [bind].
    destruct (_check_no_such_flags vals flagdefs); [|discriminate].
    cbn [bind].
    destruct (_check_flag_vals rt vals flagdefs); [|discriminate].
    cbn [bind]. unfold _check_required_flags.
    destruct (_missing_flags vals flagdefs) as [|x missing] eqn:Hmiss; [|discriminate].
    cbn [bind]. intros [= <-]. exists vals. repeat split.
    + intros Hnone.
      assert (Hx : In flag (_missing_flags vals flagdefs)).
      { apply _missing_flags_spec. rewrite Hnone. auto. }
      rewrite Hmiss in Hx. destruct Hx.
    + intros Hempty.
      assert (Hx : In flag (_missing_flags vals flagdefs)).
      { apply _missing_flags_spec. rewrite Hempty. auto. }
      rewrite Hmiss in Hx. destruct Hx.
  - intros vals Hvals Hno Hchk missing Hmiss. rewrite flag_vals_for_opdef_checked.
    rewrite Hvals. cbn [bind]. rewrite Hno. cbn [bind]. rewrite Hchk. cbn [bind].
    unfold _check_required_flags. rewrite _missing_flags_filter. fold missing.
    destruct missing; [congruence|reflexivity].
  - intros vals flag. rewrite _missing_flags_spec, _flag_missing_spec.
    destruct (get vals (name flag)) as [| | | |text|];
      try (split; [intros (_ & _ & H); discriminate
                  |intros (_ & _ & [H|H]); discriminate]).
    + split; [intros (H1 & H2 & _)|intros (H1 & H2 & _)]; auto.
    + split.
      * intros (H1 & H2 & H3). apply String.eqb_eq in H3. subst. auto.
      * intros (H1 & H2 & [H3|H3]); [discriminate|].
        injection H3 as ->. auto.
Qed.

(** C6, as the code has it: [int] rejects every value of type float, a
    whole number such as 1.0 as much as 1.5, and returns an integer as it
    is; through
    [_coerced_flag_value] the rejection is an [InvalidFlagValue].  [number]
    returns an integer or a float unchanged. *)
Theorem int_rejects_floats_number_keeps_them (fd : flagdef) :
  (type_ fd = Some "int" ->
     (forall f, _coerce_typed_flag_value rt (Float f) fd
                = Raise (ValueError "invalid value for type 'int'")) /\
     (forall z, _coerce_typed_flag_value rt (Int z) fd = Ok (Int z)) /\
     (forall f flag_name flagdefs,
        lookup_flagdef flag_name flagdefs = Some fd ->
        truthy (arg_split fd) = false ->
        is_flag_function rt (Float f) = false ->
        _coerced_flag_value rt flag_name (Float f) flagdefs
        = Raise (InvalidFlagValue (Float f) fd "invalid value for type 'int'"))) /\
  (type_ fd = Some "number" ->
     (forall v, isinstance_float_int v = true ->
                _coerce_typed_flag_value rt v fd = Ok v) /\
     (forall v flag_name flagdefs,
        isinstance_float_int v = true ->
        lookup_flagdef flag_name flagdefs = Some fd ->
        truthy (arg_split fd) = false ->
        _coerced_flag_value rt flag_name v flagdefs = Ok v)).
Proof.
  split; intros Ht.
  - assert (Hfloat : forall f, _coerce_typed_flag_value rt (Float f) fd
                               = Raise (ValueError "invalid value for type 'int'")).
    { intros f. unfold _coerce_typed_flag_value, type_name. now rewrite Ht. }
    split; [exact Hfloat|]. split.
    + intros z. unfold _coerce_typed_flag_value, type_name. now rewrite Ht.
    + intros f flag_name flagdefs Hfd Hsplit Hfun.
      unfold _coerced_flag_value. rewrite Hfd.
      cbn [coerce_flag_value is_none orb]. unfold type_unset_or_auto.
      rewrite Ht, Hfun, Hsplit. cbn [String.eqb Ascii.eqb Bool.eqb orb].
      now rewrite Hfloat.
  - assert (Hnum : forall v, isinstance_float_int v = true ->
                             _coerce_typed_flag_value rt v fd = Ok v).
    { intros v Hv. unfold _coerce_typed_flag_value, type_name. rewrite Ht.
      cbn [String.eqb Ascii.eqb Bool.eqb]. now rewrite Hv. }
    split; [exact Hnum|].
    intros v flag_name flagdefs Hv Hfd Hsplit.
    unfold _coerced_flag_value. rewrite Hfd.
    destruct v as [|b|z|f|s|l]; try discriminate;
      cbn [coerce_flag_value is_none orb];
      destruct (type_unset_or_auto fd || is_flag_function rt _);
      try reflexivity; rewrite Hsplit, Hnum; reflexivity.
Qed.

End WithRuntime.

(** C7 on a value given under an alias: the caller sets the learning
    rate to 7 under the alias "lr" and selects the choice "fast" of [speed],
    which implies a learning rate of 5.  After the alias is renamed the map
    has the caller's 7 under "learning-rate"; [_apply_choice_vals] still
    looks for "learning-rate" in the caller's own map, where the key is
    "lr", takes the flag for unset and overwrites the 7 with the implied
    5. *)
Lemma value_given_by_alias_overwritten :
  get Example.given_by_alias "lr" = Int 7 /\
  coerced_flag_vals Example.rt [Example.speed; Example.learning_rate]
    Example.given_by_alias false
  = Ok [("speed", Str "fast"); ("learning-rate", Int 7)] /\
  flag_vals_for_opdef Example.rt [Example.speed; Example.learning_rate]
    Example.given_by_alias false
  = Ok [("speed", Str "fast"); ("learning-rate", Int 5)].
Proof. repeat split. Qed.

(** A value that equals the value of a choice with an alias selects
    nothing: the value 1 of [size] passes the choice check, and the implied
    [layers = 2] is not applied; it is applied when the choice is given by
    its alias. *)
Lemma choice_given_by_value_implies_nothing :
  Example.by_value = Ok [("size", Int 1); ("layers", Int 8)] /\
  Example.by_alias = Ok [("size", Int 1); ("layers", Int 2)].
Proof. split; reflexivity. Qed.

(** Each flag is looked at once, in the order of the definitions: a value
    implied for a flag that was looked at before selects no choice of that
    flag.  With [second] defined before [first], the implied "fast" of
    [second] does not imply [third = 1]; in the other order it does. *)
Lemma implied_value_selects_by_order :
  flag_vals_for_opdef Example.rt [Example.second; Example.first; Example.third]
    [("first", Str "x")] false
  = Ok [("first", Str "x"); ("second", Str "fast"); ("third", Int 0)] /\
  flag_vals_for_opdef Example.rt [Example.first; Example.second; Example.third]
    [("first", Str "x")] false
  = Ok [("first", Str "x"); ("second", Str "fast"); ("third", Int 1)].
Proof. split; reflexivity. Qed.

(** C6 fails as stated: 1.0 has no fractional part, it equals the
    integer 1 and [int] converts it to 1, yet coercion to the type [int]
    rejects it as it rejects 1.5. *)
Lemma whole_float_rejected_by_int :
  eqb (Float Example.one_point_zero) (Int 1) = true /\
  int Example.rt (Float Example.one_point_zero) = Ok (Int 1) /\
  _coerced_flag_value Example.rt "depth" (Float Example.one_point_zero) [Example.depth]
  = Raise (InvalidFlagValue (Float Example.one_point_zero) Example.depth
             "invalid value for type 'int'").
Proof. repeat split. Qed.

(** C2 fails as stated: without [force], the returned map has the empty
    string for [rate], which is required.  The required check saw the
    default "0.1"; the choice "fast" of [mode] set [rate] afterwards. *)
Lemma required_flag_emptied_by_choice :
  Example.fast = Ok [("mode", Str "fast"); ("rate", Str "")] /\
  required Example.rate = true /\
  _flag_missing (Str "") = true.
Proof. repeat split. Qed.

Lemma required_flags_checked_witness :
  (exists vals,
     coerced_flag_vals Example.rt [Example.mode; Example.rate]
       [("mode", Str "fast")] false = Ok vals /\
     (forall flag, In flag [Example.mode; Example.rate] -> required flag = true ->
                   get vals (name flag) <> None_ /\ get vals (name flag) <> Str "") /\
     [("mode", Str "fast"); ("rate", Str "")]
     = _apply_choice_vals [Example.mode; Example.rate] [("mode", Str "fast")] vals) /\
  flag_vals_for_opdef Example.rt
    [Example.flag "b" None_ true []; Example.mode; Example.flag "a" (Str "") true []]
    [] false
  = Raise (MissingRequiredFlags
             [Example.flag "b" None_ true []; Example.flag "a" (Str "") true []]).
Proof.
  split.
  - destruct (required_flags_checked Example.rt [Example.mode; Example.rate]
                [("mode", Str "fast")]) as (Hret & _).
    apply Hret. reflexivity.
  - destruct (required_flags_checked Example.rt
                [Example.flag "b" None_ true []; Example.mode;
                 Example.flag "a" (Str "") true []] []) as (_ & Hraise & _).
    apply (Hraise [("b", None_); ("mode", None_); ("a", Str "")]);
      [reflexivity|reflexivity|reflexivity|discriminate].
Defined.

Lemma falsy_value_passes_choice_check_witness :
  _check_flag_choice (Int 0) Example.depth = Ok tt.
Proof.
  apply (falsy_value_passes_choice_check Example.rt (Int 0) Example.depth).
  reflexivity.
Defined.

Lemma int_rejects_floats_number_keeps_them_witness :
  _coerced_flag_value Example.rt "depth" (Float Example.one_point_five) [Example.depth]
  = Raise (InvalidFlagValue (Float Example.one_point_five) Example.depth
             "invalid value for type 'int'").
Proof.
  destruct (int_rejects_floats_number_keeps_them Example.rt Example.depth)
    as [Hint _].
  destruct (Hint eq_refl) as (_ & _ & H).
  apply H; reflexivity.
Defined.

End FlagsFacts.

Module DelimitedFacts.

Import Py Flags Delimited.
Local Open Scope string_scope.

Lemma append_assoc (a b c : string) : (a ++ b) ++ c = a ++ (b ++ c).
Proof. induction a as [|x a IH]; cbn; [reflexivity|now rewrite IH]. Qed.

Lemma append_nil_r (s : string) : s ++ "" = s.
Proof. induction s as [|x s IH]; cbn; [reflexivity|now rewrite IH]. Qed.

Lemma length_append (a b : string) :
  String.length (a ++ b) = String.length a + String.length b.
Proof. induction a as [|x a IH]; cbn; [reflexivity|now rewrite IH]. Qed.

Lemma prefix_append (d s : string) : prefix d (d ++ s) = true.
Proof.
  induction d as [|x d IH]; cbn; [now destruct s|].
  destruct (ascii_dec x x); [exact IH|congruence].
Qed.

Lemma prefix_inv (d : string) :
  forall s, prefix d s = true -> exists rest, s = d ++ rest.
Proof.
  induction d as [|x d IH]; intros s H.
  - exists s. reflexivity.
  - destruct s as [|y s]; cbn in H; [discriminate|].
    destruct (ascii_dec x y) as [->|]; [|discriminate].
    destruct (IH s H) as [rest ->]. now exists rest.
Qed.

(** Whether [d] is a prefix is decided by the first [length d] characters. *)
Lemma prefix_app_l (d : string) :
  forall a b, String.length d <= String.length a -> prefix d (a ++ b) = prefix d a.
Proof.
  induction d as [|x d IH]; intros a b Hlen.
  - now destruct a, b.
  - destruct a as [|y a]; cbn in Hlen; [lia|].
    cbn. destruct (ascii_dec x y); [apply IH; lia|reflexivity].
Qed.

Lemma prefix_app_mono (d a b : string) : prefix d a = true -> prefix d (a ++ b) = true.
Proof.
  intros H. destruct (prefix_inv d a H) as [rest ->].
  rewrite append_assoc. apply prefix_append.
Qed.

Lemma split_go_skip (d u : string) :
  forall s cur, split_go d (String.length u) (u ++ s) cur = split_go d 0 s cur.
Proof.
  induction u as [|x u IH]; intros s cur; [reflexivity|]. cbn. apply IH.
Qed.

(** At a delimiter the part read so far is closed. *)
Lemma split_go_delimiter (d rest cur : string) :
  d <> "" ->
  split_go d 0 (d ++ rest) cur = cur :: split_go d 0 rest "".
Proof.
  intros Hd. destruct d as [|x d']; [congruence|].
  change (String x d' ++ rest) with (String x (d' ++ rest)).
  cbn [split_go].
  change (String x (d' ++ rest)) with (String x d' ++ rest).
  rewrite prefix_append.
  replace (String.length (String x d') - 1) with (String.length d')
    by (cbn [String.length]; lia).
  now rewrite split_go_skip.
Qed.

Section Delimiter.

Variable d : string.
Hypothesis d_not_empty : d <> "".

Lemma split_go_other (x : ascii) (s cur : string) :
  prefix d (String x s) = false ->
  split_go d 0 (String x s) cur = split_go d 0 s (cur ++ String x "").
Proof. intros H. cbn [split_go]. now rewrite H. Qed.

Lemma snoc_append (cur t : string) (x : ascii) :
  (cur ++ String x "") ++ t = cur ++ String x t.
Proof. now rewrite append_assoc. Qed.

(** A clean part followed by a delimiter is split off whole. *)
Lemma split_go_clean (t : string) :
  forall rest cur,
    clean d t = true ->
    split_go d 0 (t ++ d ++ rest) cur = (cur ++ t) :: split_go d 0 rest "".
Proof.
  induction t as [|x t IH]; intros rest cur Hclean.
  - cbn [append]. rewrite append_nil_r. now apply split_go_delimiter.
  - cbn [clean] in Hclean. apply andb_true_iff in Hclean as [Hhere Hclean].
    apply negb_true_iff in Hhere.
    change (String x t ++ d ++ rest) with (String x (t ++ d ++ rest)).
    rewrite split_go_other.
    + rewrite IH by assumption. now rewrite snoc_append.
    + change (String x (t ++ d ++ rest)) with (String x t ++ d ++ rest).
      rewrite <- append_assoc, prefix_app_l; [exact Hhere|].
      rewrite length_append. lia.
Qed.

(** A clean part at the end is the last part. *)
Lemma split_go_last (t : string) :
  forall cur, clean d t = true -> split_go d 0 t cur = [cur ++ t].
Proof.
  induction t as [|x t IH]; intros cur Hclean.
  - cbn. now rewrite append_nil_r.
  - cbn [clean] in Hclean. apply andb_true_iff in Hclean as [Hhere Hclean].
    apply negb_true_iff in Hhere.
    rewrite split_go_other.
    + rewrite IH by assumption. now rewrite snoc_append.
    + destruct (prefix d (String x t)) eqn:E; [|reflexivity].
      apply prefix_app_mono with (b := d) in E. congruence.
Qed.

(** Splitting the joined text of clean parts gives the parts back. *)
Lemma split_on_concat (t : string) (ts : list string) :
  Forall (fun t => clean d t = true) (t :: ts) ->
  split_on d (String.concat d (t :: ts)) = t :: ts.
Proof.
  revert t. induction ts as [|t2 ts IH]; intros t Hclean.
  - cbn [String.concat]. unfold split_on. rewrite split_go_last; [reflexivity|].
    now inversion Hclean.
  - change (String.concat d (t :: t2 :: ts))
      with (t ++ d ++ String.concat d (t2 :: ts)).
    unfold split_on. inversion Hclean as [|? ? Ht Hrest]; subst.
    rewrite split_go_clean by assumption. cbn [append].
    f_equal. apply IH. exact Hrest.
Qed.

Lemma split_go_not_nil (s : string) :
  forall skip cur, split_go d skip s cur <> [].
Proof.
  induction s as [|x s IH]; intros skip cur; cbn [split_go]; [discriminate|].
  destruct skip; [|apply IH]. destruct (prefix d (String x s)); [discriminate|apply IH].
Qed.

Lemma concat_cons (t : string) (ts : list string) :
  ts <> [] -> String.concat d (t :: ts) = t ++ d ++ String.concat d ts.
Proof. destruct ts; [congruence|reflexivity]. Qed.

(** Joining the parts of a text gives the text back. *)
Lemma concat_split_go (n : nat) :
  forall s cur,
    String.length s <= n ->
    String.concat d (split_go d 0 s cur) = cur ++ s.
Proof.
  induction n as [|n IH]; intros s cur Hlen.
  - destruct s; [cbn; now rewrite append_nil_r|cbn in Hlen; lia].
  - destruct s as [|x s]; [cbn; now rewrite append_nil_r|].
    destruct (prefix d (String x s)) eqn:E.
    + destruct (prefix_inv d _ E) as [rest Hrest]. rewrite Hrest.
      rewrite split_go_delimiter by assumption.
      rewrite concat_cons by apply split_go_not_nil.
      rewrite IH; [reflexivity|].
      assert (Hl : String.length (String x s) = String.length d + String.length rest)
        by (rewrite Hrest; apply length_append).
      destruct d; [congruence|]. cbn [String.length] in *. lia.
    + rewrite split_go_other by assumption.
      rewrite IH by (cbn in Hlen; lia). apply snoc_append.
Qed.

Lemma concat_split_on (s : string) : String.concat d (split_on d s) = s.
Proof.
  unfold split_on. now rewrite concat_split_go with (n := String.length s).
Qed.

End Delimiter.

Lemma for_each_length {E A B} (f : A -> result E B) :
  forall xs ys, for_each f xs = Ok ys -> List.length ys = List.length xs.
Proof.
  induction xs as [|x xs IH]; intros ys H; cbn in H.
  - now inversion H.
  - destruct (f x) as [y|e]; cbn in H; [|discriminate].
    destruct (for_each f xs) as [ys'|e]; cbn in H; [|discriminate].
    inversion H. cbn. now rewrite (IH ys').
Qed.

Lemma for_each_map {E A B} (f : A -> result E B) (g : A -> B) :
  (forall x, f x = Ok (g x)) -> forall xs, for_each f xs = Ok (map g xs).
Proof.
  intros H. induction xs as [|x xs IH]; [reflexivity|].
  cbn. now rewrite H, IH.
Qed.

Section RoundTrip.

Variable rt : runtime.
Variable fd : flagdef.
Variable d : string.

Hypothesis delimiter : arg_split fd = Str d.
Hypothesis d_not_empty : d <> "".

Local Abbreviation text := (_ensure_encoded_flag_val rt).
Local Abbreviation decoded := (Flags.split_encoded_flag_val (delimited rt)).

Lemma decoded_delimiter (encoded : string) :
  decoded encoded (arg_split fd) = Ok (split_on d encoded).
Proof.
  rewrite delimiter. cbn. apply String.eqb_neq in d_not_empty.
  now rewrite d_not_empty.
Qed.

(** C9 with the delimiter form of [flag_util]: coercing a value through
    the split/join path gives the texts of the coerced parts joined by the
    delimiter.  Decoding that result again gives the texts of the coerced
    parts, one for one, whenever none of these texts has a delimiter starting
    inside it.  This is so whenever coercion keeps the text of every part,
    and then the result is the text of the value itself; a flag of type
    "string" is such a flag. *)
Theorem split_join_round_trip (v r : val) :
  _coerce_flag_val_split_parts (delimited rt) v fd = Ok r ->
  exists coerced,
    for_each (fun part => _coerce_typed_flag_value (delimited rt) (Str part) fd)
             (split_on d (text v)) = Ok coerced /\
    r = Str (String.concat d (map text coerced)) /\
    (Forall (fun c => clean d (text c) = true) coerced ->
     decoded (text r) (arg_split fd) = Ok (map text coerced)) /\
    (map text coerced = split_on d (text v) ->
     r = Str (text v) /\
     decoded (text r) (arg_split fd) = Ok (map text coerced)) /\
    (type_ fd = Some "string" -> map text coerced = split_on d (text v)).
Proof.
  unfold _coerce_flag_val_split_parts.
  change (_ensure_encoded_flag_val (delimited rt) v) with (text v).
  rewrite decoded_delimiter. cbn [bind].
  destruct (for_each _ (split_on d (text v))) as [coerced|e] eqn:Hcoerced;
    [|discriminate].
  cbn [bind]. rewrite delimiter. cbn [Flags.join_splittable_flag_vals delimited
    join_splittable_flag_vals bind]. intros [= <-].
  exists coerced. split; [reflexivity|]. split; [reflexivity|].
  cbn [_ensure_encoded_flag_val].
  split; [|split].
  - intros Hclean. rewrite <- delimiter, decoded_delimiter. f_equal.
    destruct coerced as [|c coerced].
    + apply for_each_length in Hcoerced. cbn in Hcoerced.
      pose proof (@split_go_not_nil d (text v) 0 "") as Hparts.
      unfold split_on in Hcoerced.
      destruct (split_go d 0 (text v) ""); [congruence|discriminate].
    + cbn [map]. apply split_on_concat; [assumption|].
      change (text c :: map text coerced) with (map text (c :: coerced)).
      apply Forall_map. exact Hclean.
  - intros Hkept. rewrite Hkept, concat_split_on by assumption.
    split; [reflexivity|]. rewrite <- delimiter. apply decoded_delimiter.
  - intros Hstring.
    rewrite for_each_map with (g := Str) in Hcoerced.
    + injection Hcoerced as <-. rewrite map_map. cbn. apply map_id.
    + intros part. unfold _coerce_typed_flag_value, type_name. now rewrite Hstring.
Qed.

End RoundTrip.

(** C9 fails as stated with the delimiter form of [flag_util]: the value
    "a.txt,b.txt" of a path flag split at "," has two coerced parts, each
    under "/data/run,1"; decoding the result of the coercion gives four
    parts. *)
Lemma joined_paths_decode_differently :
  Example.coerced_files = Ok (Str "/data/run,1/a.txt,/data/run,1/b.txt") /\
  for_each (fun part => _coerce_typed_flag_value (delimited Example.rt) (Str part)
                          Example.files)
           (split_on "," "a.txt,b.txt")
  = Ok [Str "/data/run,1/a.txt"; Str "/data/run,1/b.txt"] /\
  Flags.split_encoded_flag_val (delimited Example.rt)
    "/data/run,1/a.txt,/data/run,1/b.txt" (arg_split Example.files)
  = Ok ["/data/run"; "1/a.txt"; "/data/run"; "1/b.txt"].
Proof. repeat split. Qed.

Lemma split_join_round_trip_witness :
  exists coerced,
    for_each (fun part => _coerce_typed_flag_value (delimited Example.rt) (Str part)
                            Example.tags)
             (split_on "," "red,,dark blue") = Ok coerced /\
    Str "red,,dark blue"
    = Str (String.concat "," (map (_ensure_encoded_flag_val Example.rt) coerced)) /\
    (Forall (fun c => clean "," (_ensure_encoded_flag_val Example.rt c) = true) coerced ->
     Flags.split_encoded_flag_val (delimited Example.rt) "red,,dark blue"
       (arg_split Example.tags)
     = Ok (map (_ensure_encoded_flag_val Example.rt) coerced)) /\
    (map (_ensure_encoded_flag_val Example.rt) coerced = split_on "," "red,,dark blue" ->
     Str "red,,dark blue" = Str "red,,dark blue" /\
     Flags.split_encoded_flag_val (delimited Example.rt) "red,,dark blue"
       (arg_split Example.tags)
     = Ok (map (_ensure_encoded_flag_val Example.rt) coerced)) /\
    (type_ Example.tags = Some "string" ->
     map (_ensure_encoded_flag_val Example.rt) coerced = split_on "," "red,,dark blue").
Proof.
  apply (@split_join_round_trip Example.rt Example.tags "," eq_refl
           ltac:(discriminate) (Str "red,,dark blue") (Str "red,,dark blue")).
  reflexivity.
Defined.

End DelimitedFacts.

(** ** More on process supervision *)

Module ProcMore.

Import Proc ProcRun ProcFacts.
Local Open Scope Q_scope.

Section Supervisor.

Variable proc : Type.
Variable poll : proc -> option Z.
Variable terminate : proc -> proc.
Variable kill : proc -> proc.
Variable elapse : Q -> proc -> proc.

Local Abbreviation world := (world proc).
Local Abbreviation sleep := (sleep elapse).
Local Abbreviation slept := (slept elapse).

Lemma slept_succ (step : Q) (k : nat) (w : world) :
  slept step (S k) w = slept step k (sleep step w).
Proof. unfold ProcRun.slept. now rewrite Nat.iter_succ_r. Qed.

Lemma now_slept (step : Q) (k : nat) :
  forall w : world, now (slept step k w) == now w + inject_Z (Z.of_nat k) * step.
Proof.
  induction k as [|k IH]; intros w.
  - cbn. ring.
  - rewrite slept_succ, IH, of_nat_succ_step. cbn [Proc.sleep now]. ring.
Qed.

Lemma Qltb_lt (a b : Q) : a < b -> Qltb a b = true.
Proof.
  intros H. unfold Qltb. destruct (Qlt_le_dec a b) as [_|Hle]; [reflexivity|].
  exfalso. apply (Qlt_irrefl a). eapply Qlt_le_trans; eauto.
Qed.

Lemma wait_loop_exit (step stop_at : Q) (rc : Z) :
  0 < step ->
  forall (k fuel : nat) (w : world),
    (k < fuel)%nat ->
    (forall j, (j < k)%nat -> poll (child (slept step j w)) = None) ->
    poll (child (slept step k w)) = Some rc ->
    now (slept step k w) < stop_at ->
    wait_loop poll elapse fuel step stop_at w = Some (inl (rc, slept step k w)).
Proof.
  intros Hstep. induction k as [|k IH]; intros fuel w Hfuel Hrun Hexit Hbudget.
  - destruct fuel as [|fuel]; [lia|]. cbn [wait_loop].
    cbn in Hexit, Hbudget. now rewrite Qltb_lt, Hexit.
  - destruct fuel as [|fuel]; [lia|]. cbn [wait_loop].
    assert (Hnow : now w < stop_at).
    { rewrite now_slept, of_nat_succ_step in Hbudget.
      assert (0 <= inject_Z (Z.of_nat k) * step).
      { apply Qmult_le_0_compat; [|lra].
        change 0 with (inject_Z 0). rewrite <- Zle_Qle. lia. }
      lra. }
    rewrite Qltb_lt by assumption.
    pose proof (Hrun 0%nat ltac:(lia)) as H0. cbn in H0. rewrite H0.
    rewrite slept_succ in *. apply IH; [lia| |assumption|assumption].
    intros j Hj. rewrite <- slept_succ. apply Hrun. lia.
Qed.

Lemma iterations_above (step deadline : Q) (w : world) (k : nat) :
  0 < step ->
  now w + inject_Z (Z.of_nat k) * step < deadline ->
  (k < iterations step deadline w)%nat.
Proof.
  intros Hstep Hk. unfold iterations.
  set (x := (deadline - now w) / step).
  assert (Hx : inject_Z (Z.of_nat k) < x).
  { unfold x. apply Qlt_shift_div_l; [assumption|lra]. }
  pose proof (Qle_ceiling x) as Hceil.
  assert (Hz : (Z.of_nat k < Qceiling x)%Z).
  { rewrite Zlt_Qlt. eapply Qlt_le_trans; eauto. }
  lia.
Qed.

(** X1: A child that exits before the budget is used up: [wait_for_proc] returns
    the return code it polls, whatever the code is, at the poll that
    first sees it.  Until then it has only slept: the child got no signal
    and nothing was logged. *)
Theorem natural_exit_returned
    (stop_after_min : Q) (poll_interval kill_delay : option Q) (w : world)
    (k : nat) (rc : Z) :
  let step := or_default poll_interval DEFAULT_PROC_POLL_INTERVAL in
  0 < step ->
  (forall j, (j < k)%nat -> poll (child (slept step j w)) = None) ->
  poll (child (slept step k w)) = Some rc ->
  now (slept step k w) < now w + stop_after_min * 60 ->
  wait_for_proc poll terminate kill elapse stop_after_min poll_interval kill_delay w
  = Some (Ok rc, slept step k w).
Proof.
  intros step Hstep Hrun Hexit Hbudget. unfold wait_for_proc. fold step.
  rewrite (@wait_loop_exit step (now w + stop_after_min * 60) rc Hstep k);
    try assumption; [reflexivity|].
  apply iterations_above; [assumption|]. now rewrite <- now_slept.
Qed.

Lemma iterations_above_succ (step deadline : Q) (w : world) (k : nat) :
  0 < step ->
  now w + inject_Z (Z.of_nat k) * step < deadline + step ->
  (k < iterations step deadline w)%nat.
Proof.
  intros Hstep Hk. destruct k as [|k]; [unfold iterations; lia|].
  rewrite of_nat_succ_step in Hk.
  assert (Hk' : now w + inject_Z (Z.of_nat k) * step < deadline) by lra.
  unfold iterations. set (x := (deadline - now w) / step).
  assert (Hx : inject_Z (Z.of_nat k) < x).
  { unfold x. apply Qlt_shift_div_l; [assumption|lra]. }
  pose proof (Qle_ceiling x) as Hceil.
  assert (Hz : (Z.of_nat k < Qceiling x)%Z).
  { rewrite Zlt_Qlt. eapply Qlt_le_trans; eauto. }
  lia.
Qed.

Lemma terminate_loop_exit (step kill_at : Q) :
  0 < step ->
  forall (k fuel : nat) (w : world),
    (k < fuel)%nat ->
    (forall j, (j < k)%nat -> poll (child (slept step j w)) = None) ->
    poll (child (slept step k w)) <> None ->
    now (slept step k w) < kill_at + step ->
    terminate_loop poll elapse fuel step kill_at w = Some (slept step k w).
Proof.
  intros Hstep. induction k as [|k IH]; intros fuel w Hfuel Hrun Hexit Hbefore.
  - destruct fuel as [|fuel]; [lia|]. cbn [terminate_loop].
    cbn in Hexit. destruct (poll (child w)); [reflexivity|congruence].
  - destruct fuel as [|fuel]; [lia|]. cbn [terminate_loop].
    pose proof (Hrun 0%nat ltac:(lia)) as H0. cbn in H0. rewrite H0.
    assert (Hnow : now w < kill_at).
    { rewrite now_slept, of_nat_succ_step in Hbefore.
      assert (0 <= inject_Z (Z.of_nat k) * step).
      { apply Qmult_le_0_compat; [|lra].
        change 0 with (inject_Z 0). rewrite <- Zle_Qle. lia. }
      lra. }
    rewrite Qltb_lt by assumption. cbn [is_none andb].
    rewrite slept_succ in *. apply IH; [lia| |assumption|assumption].
    intros j Hj. rewrite <- slept_succ. apply Hrun. lia.
Qed.

(** X2: A child that exits within the kill delay after the graceful signal
    is not killed: [_terminate] stops polling at the first poll that sees
    the exit, sends no second signal and logs nothing.  It returns the code
    when that is 0 or -15 and raises [ProcessError] for any other code. *)
Theorem exit_in_grace_period_not_killed
    (step kill_delay : Q) (w : world) (k : nat) (rc : Z) :
  let w0 := signal terminate w in
  0 < step ->
  (forall j, (j < k)%nat -> poll (child (slept step j w0)) = None) ->
  poll (child (slept step k w0)) = Some rc ->
  now (slept step k w0) < now w + kill_delay + step ->
  _terminate poll terminate kill elapse step kill_delay w
  = Some (if (rc =? 0)%Z || (rc =? RC_SIGTERM)%Z then Ok rc else Raise ProcessError,
          slept step k w0).
Proof.
  intros w0 Hstep Hrun Hexit Hbefore. unfold _terminate, grace_period. fold w0.
  assert (Hloop : terminate_loop poll elapse
                    (iterations step (now w + kill_delay) w) step
                    (now w + kill_delay) w0 = Some (slept step k w0)).
  { apply terminate_loop_exit; try assumption.
    - change (iterations step (now w + kill_delay) w)
        with (iterations step (now w0 + kill_delay) w0).
      apply iterations_above_succ; [assumption|].
      rewrite <- now_slept. exact Hbefore.
    - rewrite Hexit. discriminate. }
  rewrite Hloop. unfold terminate_finish. rewrite Hexit. cbn [is_none].
  rewrite Hexit. now destruct ((rc =? 0)%Z || (rc =? RC_SIGTERM)%Z).
Qed.

End Supervisor.

Lemma natural_exit_returned_witness :
  wait_for_proc Job.poll Job.terminate Job.kill Job.elapse 1 None None Job.start
  = Some (Ok 3%Z, slept Job.elapse 5 2 Job.start).
Proof.
  apply (@natural_exit_returned Job.proc Job.poll Job.terminate Job.kill Job.elapse
           1 None None Job.start 2 3%Z).
  - reflexivity.
  - intros [|[|j]] Hj; [reflexivity|reflexivity|lia].
  - reflexivity.
  - reflexivity.
Defined.

Lemma exit_in_grace_period_not_killed_witness :
  _terminate Job.poll Job.terminate Job.kill Job.elapse 5 30 Job.start
  = Some (Ok (-15)%Z, slept Job.elapse 5 1 (signal Job.terminate Job.start)).
Proof.
  apply (@exit_in_grace_period_not_killed Job.proc Job.poll Job.terminate Job.kill
           Job.elapse 5 30 Job.start 1 (-15)%Z).
  - reflexivity.
  - intros [|j] Hj; [reflexivity|lia].
  - reflexivity.
  - reflexivity.
Defined.

End ProcMore.

(** ** More on the reader threads *)

Module TeeMore.

Import Tee TeeRun TeeFacts.
Local Open Scope Z_scope.

Section Reader.

Variable time_ms : nat -> Z.
Variable callback : Type.
Variable cb_write : callback -> list byte -> callback * bool.
Variable mirror : stream -> bool.

Local Abbreviation state := (state callback).
Local Abbreviation _output_eol := (_output_eol time_ms cb_write).
Local Abbreviation scan := (scan time_ms cb_write).
Local Abbreviation tee_step := (tee_step time_ms cb_write mirror).
Local Abbreviation tee_run := (tee_run time_ms cb_write mirror).

Local Abbreviation kept_off := (@kept_off callback).

Lemma _output_eol_cb (st st' : state) (l : list byte) (s : stream) :
  _output_eol st l s = Ok st' -> cb_ok st -> cb_ok st' /\ kept_off st st'.
Proof.
  unfold Tee._output_eol, cb_ok, TeeRun.kept_off.
  destruct (pack_QB _ _); [|discriminate].
  destruct (Tee._output_cb st) as [c|] eqn:Hcb.
  - destruct (cb_write c l) as [c' [|]]; intros [= <-] [H|[_ H]];
      cbn; try discriminate; split; auto; intros; discriminate.
  - intros [= <-] H. cbn. split; [|auto].
    destruct H as [H|[H _]]; auto.
Qed.

Lemma kept_off_trans (a b c : state) : kept_off a b -> kept_off b c -> kept_off a c.
Proof.
  unfold TeeRun.kept_off. intros Hab Hbc Ha.
  destruct (Hab Ha) as [Hb Eb]. destruct (Hbc Hb) as [Hc Ec]. split; congruence.
Qed.

Lemma scan_cb (s : stream) :
  forall (buf : list byte) (st st' : state),
    scan buf s st = Ok st' -> cb_ok st -> cb_ok st' /\ kept_off st st'.
Proof.
  induction buf as [|b buf IH]; intros st st' H Hok.
  - inversion H; subst. split; [exact Hok|]. intros Hn. auto.
  - cbn [Tee.scan] in H. destruct (b <? 9); [now apply IH|].
    destruct (b =? LF).
    + destruct (_output_eol _ _ s) as [st1|e] eqn:E; [|discriminate].
      apply _output_eol_cb in E as [Hok1 Hoff1]; [|exact Hok].
      apply IH in H as [Hok2 Hoff2]; [|exact Hok1].
      split; [exact Hok2|]. exact (kept_off_trans Hoff1 Hoff2).
    + apply IH in H as [Hok2 Hoff2]; [|exact Hok]. auto.
Qed.

Lemma tee_step_cb (st : state) (s : stream) (buf : list byte) :
  cb_ok st -> cb_ok (tee_step st s buf) /\ kept_off st (tee_step st s buf).
Proof.
  intros Hok.
  assert (Hexit : forall a b : state,
             cb_ok a -> kept_off b a ->
             cb_ok (set_exited a s) /\ kept_off b (set_exited a s)).
  { intros a b Ha Hba. split; [exact Ha|exact Hba]. }
  assert (Hrefl : forall a : state, kept_off a a) by (intros a Ha; auto).
  unfold Tee.tee_step. destruct (exited st s); [auto|].
  destruct buf as [|b buf].
  - destruct (line st s) as [|x l]; [now apply Hexit|].
    destruct (_output_eol st (x :: l) s) as [st1|e] eqn:E; [|now apply Hexit].
    apply _output_eol_cb in E as [Hok1 Hoff1]; auto.
  - destruct (scan (b :: buf) s _) as [st1|e] eqn:E.
    + apply scan_cb in E; [|exact Hok]. exact E.
    + apply Hexit; [exact Hok|]. intros Ha. auto.
Qed.

Lemma tee_run_cb :
  forall (reads : list (stream * list byte)) (st : state),
    cb_ok st -> cb_ok (tee_run reads st) /\ kept_off st (tee_run reads st).
Proof.
  induction reads as [|[s buf] reads IH]; intros st Hok.
  - split; [exact Hok|]. intros Ha. auto.
  - change (tee_run ((s, buf) :: reads) st) with (tee_run reads (tee_step st s buf)).
    destruct (@tee_step_cb st s buf Hok) as [Hok1 Hoff1].
    destruct (IH _ Hok1) as [Hok2 Hoff2].
    split; [exact Hok2|exact (kept_off_trans Hoff1 Hoff2)].
Qed.


Lemma _output_eol_mirrored (st st' : state) (l : list byte) (s : stream) :
  _output_eol st l s = Ok st' -> mirrored st' = mirrored st.
Proof.
  unfold Tee._output_eol. destruct (pack_QB _ _); [|discriminate].
  destruct (Tee._output_cb st) as [c|]; [destruct (cb_write c l) as [c' [|]]|];
    now intros [= <-].
Qed.

Lemma scan_mirrored (s : stream) :
  forall (buf : list byte) (st st' : state),
    scan buf s st = Ok st' -> mirrored st' = mirrored st.
Proof.
  induction buf as [|b buf IH]; intros st st' H.
  - now inversion H.
  - cbn [Tee.scan] in H. destruct (b <? 9); [now apply IH|].
    destruct (b =? LF).
    + destruct (_output_eol _ _ s) as [st1|e] eqn:E; [|discriminate].
      apply _output_eol_mirrored in E. apply IH in H. cbn in *. congruence.
    + apply IH in H. exact H.
Qed.

Hypothesis clock_in_range : forall k, 0 <= time_ms k < 2 ^ 64.

Lemma tee_run_log :
  forall (reads : list (stream * list byte)) (st : state),
    schedule_ok (exited st) reads ->
    output (tee_run reads st) = output st ++ List.concat (map snd reads) /\
    forall s, mirrored (tee_run reads st) s
              = mirrored st s ++ (if mirror s then bytes_of s reads else []).
Proof.
  induction reads as [|[s buf] reads IH]; intros st Hok.
  - cbn. split; [now rewrite app_nil_r|]. intros s.
    destruct (mirror s); now rewrite app_nil_r.
  - destruct Hok as [Hlive Hok].
    change (tee_run ((s, buf) :: reads) st) with (tee_run reads (tee_step st s buf)).
    cbn [map snd List.concat]. unfold Tee.tee_step. rewrite Hlive.
    destruct buf as [|b buf].
    + destruct (line st s) as [|x l] eqn:Hl.
      * destruct (IH (set_exited st s) Hok) as [Ho Hm]. split; [exact Ho|].
        intros s'. rewrite Hm, bytes_of_cons. cbn [set_exited mirrored].
        now destruct (stream_eqb s' s).
      * destruct (@_output_eol_emits time_ms callback cb_write clock_in_range
                    st (x :: l) s) as (st1 & E & _ & _ & Hex & Hout).
        rewrite E. pose proof (_output_eol_mirrored _ _ _ E) as Hmir.
        destruct (IH (set_exited st1 s)) as [Ho Hm].
        { cbn [set_exited exited]. rewrite Hex. exact Hok. }
        split.
        -- rewrite Ho. cbn [set_exited output]. now rewrite Hout.
        -- intros s'. rewrite Hm, bytes_of_cons. cbn [set_exited mirrored].
           rewrite Hmir. now destruct (stream_eqb s' s).
    + destruct (@scan_emits time_ms callback cb_write clock_in_range s (b :: buf)
                  (write_chunk mirror st s (b :: buf)))
        as (st' & E & _ & _ & _ & Hex & Hout).
      rewrite E. pose proof (scan_mirrored _ _ _ E) as Hmir.
      destruct (IH st') as [Ho Hm]; [rewrite Hex; exact Hok|].
      split.
      * rewrite Ho, Hout. cbn [write_chunk output]. now rewrite <- app_assoc.
      * intros s'. rewrite Hm, Hmir, bytes_of_cons. cbn [write_chunk mirrored].
        destruct (stream_eqb s' s) eqn:Es.
        -- apply stream_eqb_eq in Es. subst s'.
           destruct (mirror s); [|reflexivity].
           now rewrite upd_same, <- app_assoc.
        -- destruct (mirror s); [|reflexivity].
           rewrite upd_other; [reflexivity|].
           intros ->. now rewrite stream_eqb_refl in Es.
Qed.

(** X5: The [output] file is the bytes of all reads in the order they
    arrive, the bytes below 9 that no line keeps among them, and a stream
    that is mirrored has got exactly the bytes read from it; a stream that
    is not mirrored has got nothing. *)
Theorem log_is_verbatim (cb : option callback) (reads : list (stream * list byte)) :
  schedule_ok (fun _ => false) reads ->
  let final := tee_run reads (started cb) in
  output final = List.concat (map snd reads) /\
  forall s, mirrored final s = if mirror s then bytes_of s reads else [].
Proof.
  intros Hok final. destruct (@tee_run_log reads (started cb) Hok) as [Ho Hm].
  split; [exact Ho|]. intros s. exact (Hm s).
Qed.

Lemma tee_run_app (a b : list (stream * list byte)) (st : state) :
  tee_run (a ++ b) st = tee_run b (tee_run a st).
Proof. unfold Tee.tee_run. apply fold_left_app. Qed.

Lemma chunks_run (s : stream) :
  forall (chunks : list (list byte)) (st : state),
    exited st s = false ->
    Forall (fun c => c <> []) chunks ->
    let st' := tee_run (map (pair s) chunks) st in
    emits time_ms st st' (repeat s (count_lf (List.concat chunks))) /\
    line st' s = pending (List.concat chunks) (line st s) /\
    exited st' = exited st.
Proof.
  induction chunks as [|c chunks IH]; intros st Hlive Hne.
  - cbn. split; [apply emits_nil|auto].
  - inversion Hne as [|? ? Hc Hrest]; subst.
    cbn [map]. 
    change (tee_run ((s, c) :: map (pair s) chunks) st)
      with (tee_run (map (pair s) chunks) (tee_step st s c)).
    unfold Tee.tee_step. rewrite Hlive.
    destruct c as [|b c]; [congruence|].
    destruct (@scan_emits time_ms callback cb_write clock_in_range s (b :: c)
                (write_chunk mirror st s (b :: c)))
      as (st1 & E & Hem & Hline & _ & Hex & _).
    rewrite E. cbn zeta.
    destruct (IH st1) as (Hem2 & Hline2 & Hex2); [now rewrite Hex|assumption|].
    cbn zeta in Hem2, Hline2, Hex2.
    cbn [List.concat]. rewrite count_lf_app, repeat_app, pending_app.
    split; [exact (emits_trans Hem Hem2)|]. split.
    + rewrite Hline2, Hline. reflexivity.
    + rewrite Hex2, Hex. reflexivity.
Qed.

(** X6: A thread that reaches the end of its stream with a line still open
    writes one more index entry for it: the index of a stream read alone
    has one entry per line feed, and one for the unfinished last line. *)
Theorem unfinished_line_indexed
    (cb : option callback) (s : stream) (chunks : list (list byte)) :
  Forall (fun c => c <> []) chunks ->
  let final := tee_run (reads_of s chunks) (started cb) in
  let bytes := List.concat chunks in
  index final = entries time_ms 0 (repeat s (count_lf bytes + unfinished bytes)) /\
  exited final s = true.
Proof.
  intros Hne final bytes. unfold final, reads_of. rewrite tee_run_app.
  destruct (@chunks_run s chunks (started cb) eq_refl Hne) as (Hem & Hline & Hex).
  cbn zeta in Hem, Hline, Hex. fold bytes in Hem, Hline.
  set (st := tee_run (map (pair s) chunks) (started cb)) in *.
  change (tee_run [(s, [])] st) with (tee_step st s []).
  unfold Tee.tee_step. rewrite Hex. cbn [started exited].
  rewrite Hline. cbn [started line]. unfold unfinished.
  destruct Hem as [Hix Hclock]. cbn [started index clock_reads app] in Hix, Hclock.
  destruct (pending bytes []) as [|x l] eqn:Hp.
  - rewrite Nat.add_0_r. cbn [set_exited index exited]. split; [exact Hix|].
    apply upd_same.
  - destruct (@_output_eol_emits time_ms callback cb_write clock_in_range
                st (x :: l) s) as (st1 & E & [Hix1 _] & _ & Hex1 & _).
    rewrite E. cbn [set_exited index exited]. split; [|apply upd_same].
    rewrite Hix1, Hix, Hclock, repeat_app, entries_app, repeat_length. reflexivity.
Qed.

End Reader.

Section TwoCallbacks.

Variable time_ms : nat -> Z.
Variable mirror : stream -> bool.
Variables A B : Type.
Variable write_a : A -> list byte -> A * bool.
Variable write_b : B -> list byte -> B * bool.

Lemma _output_eol_same_files (a : state A) (b : state B) (l : list byte) (s : stream) :
  same_files a b ->
  match _output_eol time_ms write_a a l s, _output_eol time_ms write_b b l s with
  | Ok a', Ok b' => same_files a' b'
  | Raise _, Raise _ => True
  | _, _ => False
  end.
Proof.
  intros (Ho & Hi & Hm & Hc & Hl & He). unfold _output_eol. rewrite Hc.
  destruct (pack_QB _ _) as [entry|]; [|exact I].
  destruct (_output_cb a) as [ca|], (_output_cb b) as [cb|];
    try destruct (write_a ca l) as [ca' [|]];
    try destruct (write_b cb l) as [cb' [|]];
    unfold same_files; cbn; rewrite ?Hi; repeat split; auto.
Qed.

Lemma set_line_same_files (a : state A) (b : state B) (s : stream) (l : list byte) :
  same_files a b -> same_files (set_line a s l) (set_line b s l).
Proof.
  intros (Ho & Hi & Hm & Hc & Hl & He). unfold same_files. cbn.
  rewrite Hl. repeat split; auto.
Qed.

Lemma set_exited_same_files (a : state A) (b : state B) (s : stream) :
  same_files a b -> same_files (set_exited a s) (set_exited b s).
Proof.
  intros (Ho & Hi & Hm & Hc & Hl & He). unfold same_files. cbn.
  rewrite He. repeat split; auto.
Qed.

Lemma scan_same_files (s : stream) :
  forall (buf : list byte) (a : state A) (b : state B),
    same_files a b ->
    match scan time_ms write_a buf s a, scan time_ms write_b buf s b with
    | Ok a', Ok b' => same_files a' b'
    | Raise _, Raise _ => True
    | _, _ => False
    end.
Proof.
  induction buf as [|x buf IH]; intros a b Hab; [exact Hab|].
  cbn [scan]. destruct (x <? 9); [now apply IH|].
  assert (Hline : line a s = line b s) by (destruct Hab as (_ & _ & _ & _ & -> & _); auto).
  rewrite Hline.
  pose proof (set_line_same_files s (line b s ++ [x]) Hab) as Hab1.
  destruct (x =? LF); [|now apply IH].
  pose proof (@_output_eol_same_files _ _
                (line (set_line b s (line b s ++ [x])) s) s Hab1) as Heol.
  assert (Hl1 : line (set_line a s (line b s ++ [x])) s
                = line (set_line b s (line b s ++ [x])) s)
    by (cbn; now rewrite !upd_same).
  rewrite Hl1.
  destruct (_output_eol time_ms write_a _ _ s) as [a1|],
           (_output_eol time_ms write_b _ _ s) as [b1|]; try easy.
  apply IH. now apply set_line_same_files.
Qed.

Lemma tee_step_same_files (a : state A) (b : state B) (s : stream) (buf : list byte) :
  same_files a b ->
  same_files (tee_step time_ms write_a mirror a s buf)
             (tee_step time_ms write_b mirror b s buf).
Proof.
  intros Hab. unfold tee_step.
  pose proof Hab as (Ho & Hi & Hm & Hc & Hl & He). rewrite He.
  destruct (exited b s); [exact Hab|].
  destruct buf as [|x buf].
  - rewrite Hl. destruct (line b s) as [|y l]; [now apply set_exited_same_files|].
    pose proof (@_output_eol_same_files a b (y :: l) s Hab) as Heol.
    destruct (_output_eol time_ms write_a a (y :: l) s) as [a1|],
             (_output_eol time_ms write_b b (y :: l) s) as [b1|];
      try easy; now apply set_exited_same_files.
  - assert (Hw : same_files (write_chunk mirror a s (x :: buf))
                            (write_chunk mirror b s (x :: buf))).
    { unfold same_files. cbn. rewrite Ho, Hm. repeat split; auto. }
    pose proof (@scan_same_files s (x :: buf) _ _ Hw) as Hscan.
    destruct (scan time_ms write_a (x :: buf) s _) as [a1|],
             (scan time_ms write_b (x :: buf) s _) as [b1|];
      try easy; now apply set_exited_same_files.
Qed.

(** X7: What the reader threads write does not depend on the callback: with
    any two callbacks, failing or not, or with none, the same reads give
    the same [output] and [output.index] files and the same mirrored bytes. *)
Theorem files_independent_of_callback
    (cb_a : option A) (cb_b : option B) (reads : list (stream * list byte)) :
  same_files (tee_run time_ms write_a mirror reads (started cb_a))
             (tee_run time_ms write_b mirror reads (started cb_b)).
Proof.
  assert (Hrun : forall reads (a : state A) (b : state B),
             same_files a b ->
             same_files (tee_run time_ms write_a mirror reads a)
                        (tee_run time_ms write_b mirror reads b)).
  { clear reads. induction reads as [|[s buf] reads IH]; intros a b Hab; [exact Hab|].
    apply IH. now apply tee_step_same_files. }
  apply Hrun. repeat split.
Qed.

End TwoCallbacks.

Lemma log_is_verbatim_witness :
  output ScenarioC.final = ScenarioC.hello ++ ScenarioC.world /\
  forall s, mirrored ScenarioC.final s
            = if true then bytes_of s ScenarioC.reads else [].
Proof.
  apply (@log_is_verbatim ScenarioC.time_ms nat ScenarioC.cb_write (fun _ => true)).
  - intros k. unfold ScenarioC.time_ms. lia.
  - cbn. auto.
Defined.


Lemma unfinished_line_indexed_witness :
  index (tee_run ScenarioC.time_ms ScenarioC.cb_write (fun _ => true)
           (reads_of Out [ScenarioC.hello; [119; 111]]) (started (Some 0%nat)))
  = entries ScenarioC.time_ms 0 [Out; Out] /\
  exited (tee_run ScenarioC.time_ms ScenarioC.cb_write (fun _ => true)
            (reads_of Out [ScenarioC.hello; [119; 111]]) (started (Some 0%nat))) Out
  = true.
Proof.
  apply (@unfinished_line_indexed ScenarioC.time_ms nat ScenarioC.cb_write
           (fun _ => true)).
  - intros k. unfold ScenarioC.time_ms. lia.
  - repeat constructor; discriminate.
Defined.

End TeeMore.

(** ** More on [RunOutput] *)

Module CaptureFacts.

Import RunOutput Capture RunOutputFacts.
Local Open Scope string_scope.

Lemma thread_alive_join (th : option thread) : thread_alive (join th) = false.
Proof. now destruct th. Qed.

(** X8: On an open object [wait_and_close] succeeds when the lock is free:
    the readers are joined before the files are closed, so the assertions
    of [_close] on the threads cannot fail, and the object is left as a new
    one. *)
Theorem wait_and_close_resets (self : t) :
  opened self ->
  exists self', wait_and_close self true = (Ok tt, self') /\ pristine self'.
Proof.
  intros Ho. unfold wait_and_close, wait.
  rewrite _assert_open_opened by assumption.
  unfold close, _close.
  rewrite _assert_open_opened by now apply joined_opened.
  cbn. rewrite !thread_alive_join.
  eexists. split; [reflexivity|]. repeat split.
Qed.

(** X9: [close] while a reader thread is still running fails with an
    [AssertionError] after the files have been closed: the object stays
    open with closed files.  It is not lost: once the readers are done,
    [wait_and_close] succeeds on it. *)
Theorem close_before_readers_exit (self : t) :
  opened self ->
  thread_alive (_out_tee self) = true ->
  exists self',
    close self true = (Raise AssertionError, self') /\
    _open self' = true /\ files_closed self' /\
    exists self'', wait_and_close self' true = (Ok tt, self'') /\ pristine self''.
Proof.
  intros Ho Halive.
  pose proof Ho as (Hopen & Hout & Hix & Ht & p & Hp & Hpipe & Herr).
  unfold close, _close. rewrite _assert_open_opened by assumption.
  cbn. rewrite Halive. eexists. split; [reflexivity|].
  assert (Ho' : opened
            (Obj (_quiet self) (_output_cb self) (_open self) (_proc self)
                 (close_file (_output self)) (close_file (_index self))
                 (_out_tee self) (_err_tee self)
                 (match _output_cb self with
                  | Some cb =>
                      if close_raises cb
                      then (logged self ++ ["closing output callback"])%list
                      else logged self
                  | None => logged self
                  end))).
  { unfold opened. cbn. destruct (_output self), (_index self); try discriminate.
    repeat split; auto. exists p. auto. }
  split; [exact Hopen|]. split.
  - unfold files_closed. cbn.
    destruct (_output self) as [fo|], (_index self) as [fi|]; try discriminate.
    cbn. split; eexists; split; reflexivity.
  - unfold wait_and_close, wait.
    rewrite _assert_open_opened by exact Ho'.
    unfold close, _close.
    rewrite _assert_open_opened by now apply joined_opened.
    cbn. rewrite !thread_alive_join.
    eexists. split; [reflexivity|]. repeat split.
Qed.

Lemma opened_after_open (self : t) (p : proc) :
  pristine self -> is_some (stdout p) = true -> opened (snd (open self p)).
Proof.
  intros Hp Hpipe. unfold open. rewrite _assert_closed_pristine by assumption.
  destruct (stdout p) as [fd|] eqn:Hfd; [|discriminate].
  cbn. unfold opened. cbn. repeat split.
  exists p. rewrite Hfd. repeat split.
  intros ->. reflexivity.
Qed.

Lemma wait_and_close_resets_witness :
  exists self',
    wait_and_close (snd (open (__init__ false None) piped)) true = (Ok tt, self') /\
    pristine self'.
Proof.
  apply wait_and_close_resets.
  apply opened_after_open; [apply pristine_init|reflexivity].
Defined.

Lemma close_before_readers_exit_witness :
  exists self',
    close (snd (open (__init__ false None) piped)) true = (Raise AssertionError, self') /\
    _open self' = true /\ files_closed self' /\
    exists self'', wait_and_close self' true = (Ok tt, self'') /\ pristine self''.
Proof.
  apply close_before_readers_exit.
  - apply opened_after_open; [apply pristine_init|reflexivity].
  - reflexivity.
Defined.

End CaptureFacts.

(** ** More on command templates *)

Module CmdMore.

Import Cmd CmdFacts.
Local Open Scope string_scope.
Local Open Scope list_scope.

Lemma marker_not_in (exec_args : list string) :
  ~ In FLAG_ARGS (_apply_flag_args_marker exec_args).
Proof.
  unfold _apply_flag_args_marker. rewrite in_map_iff. intros (tok & Htok & _).
  destruct (tok =? FLAG_ARGS) eqn:E.
  - discriminate.
  - apply String.eqb_neq in E. congruence.
Qed.

(** X10: A template in which no placeholder for the main arguments directly
    follows another one is expanded in full: every such placeholder is
    replaced in place by the main tokens, every other token is kept, and
    then every flag-arguments placeholder, one among the main tokens
    included, is replaced by the marker, so that none is left. *)
Theorem placeholders_expanded (main_args exec_args : list string) :
  no_adjacent exec_args = true ->
  expand_placeholders main_args exec_args
  = Some (_apply_flag_args_marker (replace_every main_args exec_args)) /\
  ~ In FLAG_ARGS (_apply_flag_args_marker (replace_every main_args exec_args)) /\
  (~ In MAIN_ARGS main_args ->
   ~ In MAIN_ARGS (_apply_flag_args_marker (replace_every main_args exec_args))).
Proof.
  intros Hadj. unfold expand_placeholders.
  rewrite _apply_main_args_spliced, spliced_replace_every by assumption.
  split; [reflexivity|]. split; [apply marker_not_in|].
  intros Hmain. unfold _apply_flag_args_marker, replace_every.
  rewrite in_map_iff. intros (tok & Htok & Hin).
  apply in_flat_map in Hin as (t & _ & Ht).
  destruct (t =? MAIN_ARGS) eqn:Et.
  - destruct (tok =? FLAG_ARGS); [discriminate|]. subst tok. contradiction.
  - destruct Ht as [<-|[]]. apply String.eqb_neq in Et.
    destruct (t =? FLAG_ARGS); [discriminate|]. congruence.
Qed.

Lemma placeholders_expanded_witness :
  expand_placeholders ["train.py"; "--epochs"; "3"]
    ["python"; "-um"; "guild.op_main"; MAIN_ARGS; "--"; FLAG_ARGS]
  = Some ["python"; "-um"; "guild.op_main"; "train.py"; "--epochs"; "3"; "--";
          FLAG_ARGS_MARKER].
Proof.
  apply (placeholders_expanded ["train.py"; "--epochs"; "3"]
           ["python"; "-um"; "guild.op_main"; MAIN_ARGS; "--"; FLAG_ARGS]).
  reflexivity.
Defined.

End CmdMore.

(** ** The environment and the project directory of a command *)

Module CmdEnvFacts.

Import Py PyFacts Delimited DelimitedFacts CmdEnv.
Local Open Scope string_scope.

Lemma replace_go_skip (pattern text u : string) :
  forall s, replace_go pattern text (String.length u) (u ++ s)
            = replace_go pattern text 0 s.
Proof. induction u as [|x u IH]; intros s; [reflexivity|]. cbn. apply IH. Qed.

Lemma replace_occurrence (pattern text rest : string) :
  pattern <> "" ->
  replace pattern text (pattern ++ rest) = text ++ replace pattern text rest.
Proof.
  intros Hp. unfold replace. destruct pattern as [|x p']; [congruence|].
  change (String x p' ++ rest) with (String x (p' ++ rest)).
  cbn [replace_go].
  change (String x (p' ++ rest)) with (String x p' ++ rest).
  rewrite prefix_append.
  replace (String.length (String x p') - 1) with (String.length p')
    by (cbn [String.length]; lia).
  now rewrite replace_go_skip.
Qed.

Lemma replace_other (pattern text : string) (x : ascii) (s : string) :
  prefix pattern (String x s) = false ->
  replace pattern text (String x s) = String x (replace pattern text s).
Proof. intros H. unfold replace. cbn [replace_go]. now rewrite H. Qed.

(** Replacing is splitting at the pattern and joining with the text. *)
Lemma replace_split_go (pattern text : string) :
  pattern <> "" ->
  forall (n : nat) (s cur : string),
    String.length s <= n ->
    String.concat text (split_go pattern 0 s cur) = cur ++ replace pattern text s.
Proof.
  intros Hp. induction n as [|n IH]; intros s cur Hlen.
  - destruct s; [cbn; now rewrite append_nil_r|cbn in Hlen; lia].
  - destruct s as [|x s]; [cbn; now rewrite append_nil_r|].
    destruct (prefix pattern (String x s)) eqn:E.
    + destruct (prefix_inv pattern _ E) as [rest Hrest]. rewrite Hrest.
      rewrite split_go_delimiter by assumption.
      rewrite concat_cons by apply split_go_not_nil.
      rewrite replace_occurrence by assumption.
      rewrite IH; [reflexivity|].
      assert (Hl : String.length (String x s)
                   = String.length pattern + String.length rest)
        by (rewrite Hrest; apply length_append).
      destruct pattern; [congruence|]. cbn [String.length] in *. lia.
    + rewrite split_go_other, replace_other by assumption.
      rewrite IH by (cbn in Hlen; lia). apply snoc_append.
Qed.

Lemma replace_split (pattern text s : string) :
  pattern <> "" ->
  replace pattern text s = String.concat text (split_on pattern s).
Proof.
  intros Hp. unfold split_on.
  now rewrite replace_split_go with (n := String.length s).
Qed.

Lemma replace_free (pattern text : string) :
  forall s, free pattern s = true -> replace pattern text s = s.
Proof.
  induction s as [|x s IH]; intros Hfree; [reflexivity|].
  cbn [free] in Hfree. apply andb_true_iff in Hfree as [Hhere Hfree].
  apply negb_true_iff in Hhere.
  rewrite replace_other by assumption. now rewrite IH.
Qed.

(** X11: The project directory in the arguments: without a project directory
    the arguments stay as they are; with one, each argument is cut at the
    occurrences of "${project_dir}" and joined again with the directory, so
    an argument equal to the reference becomes the directory and an argument
    without an occurrence is kept. *)
Theorem project_dir_substituted (args : list string) (o : opdef) :
  (guildfile_dir o = None_ \/ guildfile_dir o = Str "" ->
   _apply_other_args args o = args) /\
  (forall dir, guildfile_dir o = Str dir -> dir <> "" ->
     _apply_other_args args o
     = map (fun val => String.concat dir (split_on PROJECT_DIR_REF val)) args /\
     _apply_other_args [PROJECT_DIR_REF] o = [dir]) /\
  (Forall (fun val => free PROJECT_DIR_REF val = true) args ->
   _apply_other_args args o = args).
Proof.
  unfold _apply_other_args. split; [|split].
  - intros [->| ->]; rewrite <- (map_id args) at 2; apply map_ext; intros val;
      [reflexivity|]. now rewrite andb_false_r.
  - intros dir -> Hdir. apply String.eqb_neq in Hdir. rewrite Hdir.
    split; [|cbn; now rewrite append_nil_r].
    apply map_ext. intros val. destruct (val =? "") eqn:E.
    + apply String.eqb_eq in E. now subst val.
    + cbn [negb andb]. apply replace_split. discriminate.
  - intros Hfree. rewrite <- (map_id args) at 2. apply map_ext_in.
    intros val Hin. rewrite Forall_forall in Hfree.
    destruct (guildfile_dir o); try reflexivity.
    destruct (negb (val =? "") && negb (s =? "")); [|reflexivity].
    apply replace_free. now apply Hfree.
Qed.

Lemma project_dir_substituted_witness :
  _apply_other_args ["python"; "${project_dir}/train.py"; "--data=${project_dir}"]
    Example.train
  = map (fun val => String.concat "/proj" (split_on PROJECT_DIR_REF val))
        ["python"; "${project_dir}/train.py"; "--data=${project_dir}"] /\
  _apply_other_args [PROJECT_DIR_REF] Example.train = ["/proj"].
Proof.
  destruct (project_dir_substituted
              ["python"; "${project_dir}/train.py"; "--data=${project_dir}"]
              Example.train) as (_ & Hdir & _).
  apply Hdir; [reflexivity|discriminate].
Defined.

Lemma mem_false_get (d : dict) (k : string) : mem k d = false -> get d k = None_.
Proof.
  induction d as [|[k' v] d IH]; [reflexivity|]. cbn [mem get].
  destruct (k' =? k); [discriminate|exact IH].
Qed.

Lemma get_update (e : dict) (k : string) :
  NoDup (map fst e) ->
  forall d, get (update d e) k = if mem k e then get e k else get d k.
Proof.
  unfold update. induction e as [|[k0 v0] e IH]; intros Hdup d; [reflexivity|].
  cbn [map fst] in Hdup. apply NoDup_cons_iff in Hdup as [Hk0 Hdup].
  cbn [fold_left fst snd mem get]. rewrite IH by assumption.
  destruct (String.eqb_spec k0 k) as [->|Hne].
  - cbn [orb]. destruct (mem k e) eqn:Hm.
    + exfalso. apply Hk0. clear - Hm.
      induction e as [|[k1 v1] e IH]; [discriminate|]. cbn [mem] in Hm.
      cbn [map fst In]. destruct (String.eqb_spec k1 k); [now left|right; auto].
    + apply get_set_same.
  - cbn [orb]. destruct (mem k e); [reflexivity|]. now apply get_set_other.
Qed.

(** X12: The environment of a command: the project directory is always set,
    from the operation, also against an entry of the caller; the
    destination of the flags and the interrupt flag are set when the
    operation declares them; every other name has the caller's value when the
    caller gives one and the operation's own otherwise. *)
Theorem env_precedence (o : opdef) (extra_env : dict) :
  NoDup (map fst extra_env) ->
  let result := _op_cmd_env o extra_env in
  get result "PROJECT_DIR" = or_ (guildfile_dir o) (Str "") /\
  (truthy (flags_dest o) = true -> get result "FLAGS_DEST" = flags_dest o) /\
  (handle_keyboard_interrupt o = true ->
   get result "HANDLE_KEYBOARD_INTERRUPT" = Str "1") /\
  (forall k,
     k <> "PROJECT_DIR" -> k <> "FLAGS_DEST" -> k <> "HANDLE_KEYBOARD_INTERRUPT" ->
     get result k
     = if mem k extra_env then get extra_env k
       else get (match env o with Some e => e | None => [] end) k).
Proof.
  intros Hdup result. unfold result, _op_cmd_env.
  set (base := match env o with Some e => e | None => [] end).
  split; [|split; [|split]].
  - destruct (handle_keyboard_interrupt o), (truthy (flags_dest o));
      rewrite ?get_set_other by discriminate; apply get_set_same.
  - intros ->. destruct (handle_keyboard_interrupt o);
      rewrite ?get_set_other by discriminate; apply get_set_same.
  - intros ->. apply get_set_same.
  - intros k H1 H2 H3.
    destruct (handle_keyboard_interrupt o), (truthy (flags_dest o));
      rewrite ?get_set_other by congruence; now apply get_update.
Qed.

Lemma env_precedence_witness :
  get (_op_cmd_env Example.train [("MODE", Str "test"); ("PROJECT_DIR", Str "/x")])
      "PROJECT_DIR"
  = or_ (guildfile_dir Example.train) (Str "").
Proof.
  apply (env_precedence Example.train
           [("MODE", Str "test"); ("PROJECT_DIR", Str "/x")]).
  repeat constructor; cbn; intuition discriminate.
Defined.

End CmdEnvFacts.

(** ** More on flag values *)

Module FlagsMore.

Import Py Flags PyFacts.
Local Open Scope string_scope.

Lemma mem_set (d : dict) (k k' : string) (v : val) :
  mem k (set d k' v) = (k' =? k) || mem k d.
Proof.
  induction d as [|[k0 v0] d IH]; cbn [set mem].
  - now rewrite orb_false_r.
  - destruct (k0 =? k') eqn:E; cbn [mem].
    + apply String.eqb_eq in E. subst k0. now destruct (k' =? k).
    + rewrite IH. destruct (k0 =? k), (k' =? k); reflexivity.
Qed.

Lemma mem_set_keeps (d : dict) (k k' : string) (v : val) :
  mem k d = true -> mem k (set d k' v) = true.
Proof. intros H. rewrite mem_set, H. apply orb_true_r. Qed.

Lemma get_set_mem (d : dict) (k k' : string) (v : val) :
  mem k' d = false -> mem k d = true -> get (set d k' v) k = get d k.
Proof.
  intros Hnew Hold. apply get_set_other. intros ->. congruence.
Qed.

Lemma defaults_keep_mem (flagdefs : list flagdef) (flag_vals : dict) (k : string) :
  mem k flag_vals = true ->
  mem k (_apply_default_flag_vals flagdefs flag_vals) = true.
Proof.
  revert flag_vals. induction flagdefs as [|fd fds IH]; intros vals Hm; [exact Hm|].
  cbn [_apply_default_flag_vals]. apply IH.
  destruct (mem (name fd) vals); [exact Hm|now apply mem_set_keeps].
Qed.

Lemma get_not_mem (d : dict) (k : string) : mem k d = false -> get d k = None_.
Proof.
  induction d as [|[k' v] d IH]; [reflexivity|].
  cbn [mem get]. destruct (k' =? k); [discriminate|exact IH].
Qed.

Lemma defaults_cover (flagdefs : list flagdef) (flag_vals : dict) (fd : flagdef) :
  In fd flagdefs -> mem (name fd) (_apply_default_flag_vals flagdefs flag_vals) = true.
Proof.
  revert flag_vals. induction flagdefs as [|fd' fds IH]; intros vals; [intros []|].
  cbn [_apply_default_flag_vals]. intros [->|Hin]; [|now apply IH].
  apply defaults_keep_mem.
  destruct (mem (name fd) vals) eqn:Hm; [exact Hm|].
  rewrite mem_set, String.eqb_refl. reflexivity.
Qed.

(** X13: Default values: afterwards every flag definition has an entry; an
    entry that was there keeps its value, also a [None]; a name without
    one gets the default of the first definition of that name; no other
    name is added. *)
Theorem defaults_fill_missing (flagdefs : list flagdef) (flag_vals : dict) :
  (forall fd, In fd flagdefs ->
     mem (name fd) (_apply_default_flag_vals flagdefs flag_vals) = true) /\
  (forall k, mem k flag_vals = true ->
     get (_apply_default_flag_vals flagdefs flag_vals) k = get flag_vals k) /\
  (forall k, mem k flag_vals = false ->
     get (_apply_default_flag_vals flagdefs flag_vals) k =
     match find (fun fd => name fd =? k) flagdefs with
     | Some fd => default fd
     | None => None_
     end) /\
  (forall k, mem k (_apply_default_flag_vals flagdefs flag_vals) = true ->
     mem k flag_vals = true \/ exists fd, In fd flagdefs /\ name fd = k).
Proof.
  revert flag_vals. induction flagdefs as [|fd fds IH]; intros vals.
  - cbn. repeat split; try easy.
    + intros k Hk. now apply get_not_mem.
    + auto.
  - cbn [_apply_default_flag_vals find].
    destruct (IH (if mem (name fd) vals then vals
                  else set vals (name fd) (default fd)))
      as (Hall & Hkeep & Hfill & Honly).
    split; [|split; [|split]].
    + intros fd' [<-|Hin]; [|now apply Hall].
      apply defaults_keep_mem.
      destruct (mem (name fd) vals) eqn:Hm; [exact Hm|].
      rewrite mem_set, String.eqb_refl. reflexivity.
    + intros k Hk. destruct (mem (name fd) vals) eqn:Hm; [now apply Hkeep|].
      rewrite Hkeep by now apply mem_set_keeps.
      now apply get_set_mem.
    + intros k Hk. destruct (String.eqb_spec (name fd) k) as [Heq|Hne].
      * subst k. rewrite Hk in *.
        rewrite Hkeep by (rewrite mem_set, String.eqb_refl; reflexivity).
        apply get_set_same.
      * destruct (mem (name fd) vals) eqn:Hm; [now apply Hfill|].
        apply Hfill. rewrite mem_set, Hk.
        apply String.eqb_neq in Hne. now rewrite Hne.
    + intros k Hk. destruct (Honly k Hk) as [Hv|(fd' & Hin & Hn)].
      * destruct (mem (name fd) vals); [now left|].
        rewrite mem_set in Hv. apply orb_true_iff in Hv as [Hv|Hv]; [|now left].
        apply String.eqb_eq in Hv. right. exists fd. split; [now left|exact Hv].
      * right. exists fd'. split; [now right|exact Hn].
Qed.

(** The check for unknown flags passes exactly when every name in the
    flag values is the name of a flag definition; a flag given under its
    alias counts only after the alias was renamed.  When it fails, it raises
    [NoSuchFlagError] for a name that is in the values and not among the
    definitions. *)
Lemma unknown_flag_rejected (flag_vals : dict) (flagdefs : list flagdef) :
  (_check_no_such_flags flag_vals flagdefs = Ok tt <->
   forall k, mem k flag_vals = true -> exists fd, In fd flagdefs /\ name fd = k) /\
  (forall e, _check_no_such_flags flag_vals flagdefs = Raise e ->
     exists k, e = NoSuchFlagError k /\ mem k flag_vals = true /\
               forall fd, In fd flagdefs -> name fd <> k).
Proof.
  induction flag_vals as [|[k0 v0] vals IH].
  - split; [split; [discriminate|reflexivity]|discriminate].
  - destruct IH as [IHok IHerr]. cbn [_check_no_such_flags mem].
    destruct (existsb (fun fd => name fd =? k0) flagdefs) eqn:Hk0.
    + apply existsb_exists in Hk0 as (fd0 & Hin0 & Heq0).
      apply String.eqb_eq in Heq0. split.
      * rewrite IHok. split.
        -- intros H k Hk. apply orb_true_iff in Hk as [Hk|Hk]; [|now apply H].
           apply String.eqb_eq in Hk. subst k. now exists fd0.
        -- intros H k Hk. apply H. rewrite Hk. apply orb_true_r.
      * intros e He. destruct (IHerr e He) as (k & -> & Hm & Hno).
        exists k. rewrite Hm, orb_true_r. auto.
    + split.
      * split; [discriminate|]. intros H.
        destruct (H k0) as (fd & Hin & Heq);
          [now rewrite String.eqb_refl|].
        assert (Hex : existsb (fun fd => name fd =? k0) flagdefs = true).
        { apply existsb_exists. exists fd. split; [exact Hin|].
          now apply String.eqb_eq. }
        congruence.
      * intros e [= <-]. exists k0. rewrite String.eqb_refl.
        split; [reflexivity|]. split; [reflexivity|].
        intros fd Hin Heq.
        assert (Hex : existsb (fun fd => name fd =? k0) flagdefs = true).
        { apply existsb_exists. exists fd. split; [exact Hin|].
          now apply String.eqb_eq. }
        congruence.
Qed.

Section Coercion.

Variable rt : runtime.

Lemma try_one (f : val -> result pyexn val) (v c : val) (t : string) :
  _try_coerce_flag_val v [f] t = Ok c -> f v = Ok c.
Proof.
  cbn. destruct (f v) as [c'|[msg|msg|msg]]; congruence.
Qed.

Lemma one_try (f : val -> result pyexn val) (v c : val) (t : string) :
  f v = Ok c -> _try_coerce_flag_val v [f] t = Ok c.
Proof. cbn. now intros ->. Qed.

Lemma int_gives_int (v c : val) : int rt v = Ok c -> exists z, c = Int z.
Proof.
  destruct v as [|b|z|f|s0|l]; cbn; try discriminate.
  - intros [= <-]. eauto.
  - intros [= <-]. eauto.
  - destruct f as [sg| | |sg m e]; try discriminate; intros [= <-]; eauto.
  - destruct (int_of_str rt s0); [|discriminate]. intros [= <-]. eauto.
Qed.

Lemma float_gives_float (v c : val) : float rt v = Ok c -> exists f, c = Float f.
Proof.
  destruct v as [|b|z|f|s0|l]; cbn; try discriminate.
  - destruct (float_of_int rt (if b then 1%Z else 0%Z)); [|discriminate].
    intros [= <-]. eauto.
  - destruct (float_of_int rt z); [|discriminate]. intros [= <-]. eauto.
  - intros [= <-]. eauto.
  - destruct (float_of_str rt s0); [|discriminate]. intros [= <-]. eauto.
Qed.

Lemma str_gives_str (v c : val) : str rt v = Ok c -> exists s0, c = Str s0.
Proof. destruct v; cbn; intros [= <-]; eauto. Qed.

(** X14: Coercing to a type twice is coercing once: a value that
    [_coerce_typed_flag_value] returned for a flag is returned unchanged
    when it is coerced for that flag again.  The two path types are left
    out: there the result depends on [os.path]. *)
Theorem typed_coercion_idempotent (v c : val) (fd : flagdef) :
  type_name fd <> "path" -> type_name fd <> "existing-path" ->
  _coerce_typed_flag_value rt v fd = Ok c ->
  _coerce_typed_flag_value rt c fd = Ok c.
Proof.
  intros Hp He. unfold _coerce_typed_flag_value.
  apply String.eqb_neq in Hp, He. rewrite Hp, He. cbn [orb].
  destruct (type_name fd =? "string").
  { intros H. apply try_one in H. apply str_gives_str in H as [s0 ->].
    reflexivity. }
  destruct (type_name fd =? "int").
  { destruct (isinstance_float v); [discriminate|].
    intros H. apply try_one in H. apply int_gives_int in H as [z ->].
    reflexivity. }
  destruct (type_name fd =? "float").
  { intros H. apply try_one in H. apply float_gives_float in H as [f ->].
    reflexivity. }
  destruct (type_name fd =? "boolean").
  { intros H. apply try_one in H. injection H as <-. reflexivity. }
  destruct (type_name fd =? "number"); [|intros [= <-]; reflexivity].
  destruct (isinstance_float_int v) eqn:Hv.
  { intros [= <-]. now rewrite Hv. }
  cbn [_try_coerce_flag_val].
  destruct (int rt v) as [c'|e] eqn:Hi.
  { intros [= <-]. apply int_gives_int in Hi as [z ->]. reflexivity. }
  destruct e as [msg|msg|msg]; try discriminate.
  destruct (float rt v) as [c'|e] eqn:Hf.
  { intros [= <-]. apply float_gives_float in Hf as [f ->]. reflexivity. }
  destruct e; discriminate.
Qed.

Lemma coerced_raises (flag_name : string) (v : val) (flagdefs : list flagdef)
    (e : exn) :
  _coerced_flag_value rt flag_name v flagdefs = Raise e ->
  (exists fd msg, e = InvalidFlagValue v fd msg) \/
  (exists msg, e = Builtin (OtherError msg)).
Proof.
  unfold _coerced_flag_value. destruct (lookup_flagdef flag_name flagdefs) as [fd|];
    [|discriminate].
  destruct (coerce_flag_value rt v fd) as [c|[msg|msg|msg]]; [discriminate| | |];
    intros [= <-]; eauto.
Qed.

Lemma coerce_vals_force_raises (flagdefs : list flagdef) (vals : dict) (e : exn) :
  _apply_coerce_flag_vals rt flagdefs true vals = Raise e ->
  exists msg, e = Builtin (OtherError msg).
Proof.
  induction vals as [|[k v] vals IH]; [discriminate|].
  cbn [_apply_coerce_flag_vals].
  destruct (_coerced_flag_value rt k v flagdefs) as [c|e'] eqn:Hc.
  - destruct (_apply_coerce_flag_vals rt flagdefs true vals); [discriminate|].
    cbn. intros [= <-]. now apply IH.
  - destruct (coerced_raises _ _ _ Hc) as [(fd & msg & ->)|(msg & ->)].
    + destruct (_apply_coerce_flag_vals rt flagdefs true vals); [discriminate|].
      cbn. intros [= <-]. now apply IH.
    + intros [= <-]. eauto.
Qed.

Lemma normalize_forced (flagdefs : list flagdef) (vals : dict) :
  exists r, normalize_flag_aliases flagdefs vals true = Ok r.
Proof.
  revert vals. induction flagdefs as [|fd fds IH]; intros vals; [now exists vals|].
  cbn [normalize_flag_aliases]. destruct (alias_in_use fd) as [a|]; [|apply IH].
  destruct (mem a vals && mem (name fd) vals); [apply IH|].
  destruct (mem a vals); apply IH.
Qed.


Lemma coercion_keeps_names_aux (flagdefs : list flagdef) (force : bool)
    (vals vals' : dict) :
  _apply_coerce_flag_vals rt flagdefs force vals = Ok vals' ->
  map fst vals' = map fst vals.
Proof.
  revert vals'. induction vals as [|[k v] vals IH]; intros vals'.
  - now intros [= <-].
  - cbn [_apply_coerce_flag_vals].
    destruct (_coerced_flag_value rt k v flagdefs) as [c|e] eqn:Hc.
    + destruct (_apply_coerce_flag_vals rt flagdefs force vals) as [rest|];
        [|discriminate].
      cbn. intros [= <-]. cbn. now rewrite (IH rest eq_refl).
    + destruct (coerced_raises _ _ _ Hc) as [(fd & msg & ->)|(msg & ->)];
        [|discriminate].
      destruct force; [|discriminate].
      destruct (_apply_coerce_flag_vals rt flagdefs true vals) as [rest|];
        [|discriminate].
      cbn. intros [= <-]. cbn. now rewrite (IH rest eq_refl).
Qed.

(** X16: Coercion keeps the names and their order: each value is replaced in
    place by what [_coerced_flag_value] returns for it, and under [force] a
    value that cannot be coerced stays.  A name without a flag definition
    keeps its value. *)
Theorem coercion_keeps_names (flagdefs : list flagdef) (force : bool)
    (vals vals' : dict) :
  _apply_coerce_flag_vals rt flagdefs force vals = Ok vals' ->
  map fst vals' = map fst vals /\
  Forall2 (fun old new =>
             _coerced_flag_value rt (fst old) (snd old) flagdefs = Ok (snd new) \/
             (force = true /\ snd new = snd old /\
              exists fd msg, _coerced_flag_value rt (fst old) (snd old) flagdefs
                             = Raise (InvalidFlagValue (snd old) fd msg)))
          vals vals' /\
  (forall k, lookup_flagdef k flagdefs = None -> get vals' k = get vals k).
Proof.
  revert vals'. induction vals as [|[k v] vals IH]; intros vals'.
  - intros [= <-]. repeat split; constructor.
  - cbn [_apply_coerce_flag_vals].
    destruct (_coerced_flag_value rt k v flagdefs) as [c|e] eqn:Hc.
    + destruct (_apply_coerce_flag_vals rt flagdefs force vals) as [rest|];
        [|discriminate].
      cbn. intros [= <-]. destruct (IH rest eq_refl) as (Hk & Hv & Hn).
      split; [cbn; now rewrite Hk|]. split.
      * constructor; [left; exact Hc|exact Hv].
      * intros k' Hk'. cbn [get]. rewrite (Hn k' Hk').
        destruct (String.eqb_spec k k') as [->|]; [|reflexivity].
        unfold _coerced_flag_value in Hc. rewrite Hk' in Hc. congruence.
    + destruct (coerced_raises _ _ _ Hc) as [(fd & msg & ->)|(msg & ->)];
        [|discriminate].
      destruct force; [|discriminate].
      destruct (_apply_coerce_flag_vals rt flagdefs true vals) as [rest|];
        [|discriminate].
      cbn. intros [= <-]. destruct (IH rest eq_refl) as (Hk & Hv & Hn).
      split; [cbn; now rewrite Hk|]. split.
      * constructor; [right; cbn; eauto|exact Hv].
      * intros k' Hk'. cbn [get]. now rewrite (Hn k' Hk').
Qed.

End Coercion.

Lemma typed_coercion_idempotent_witness :
  _coerce_typed_flag_value Example.rt (Bool true) Example.depth = Ok (Int 1) /\
  _coerce_typed_flag_value Example.rt (Int 1) Example.depth = Ok (Int 1).
Proof.
  split; [reflexivity|].
  apply (@typed_coercion_idempotent Example.rt (Bool true) (Int 1) Example.depth);
    [discriminate|discriminate|reflexivity].
Defined.


Lemma coercion_keeps_names_witness :
  _apply_coerce_flag_vals Example.rt [Example.depth] false [("depth", Bool true)]
  = Ok [("depth", Int 1)] /\
  map fst [("depth", Int 1)] = map fst [("depth", Bool true)].
Proof.
  split; [reflexivity|].
  apply (@coercion_keeps_names Example.rt [Example.depth] false
           [("depth", Bool true)] [("depth", Int 1)]). reflexivity.
Defined.


Lemma mem_same_names (d d' : dict) (k : string) :
  map fst d = map fst d' -> mem k d = mem k d'.
Proof.
  revert d'. induction d as [|[k0 v0] d IH]; intros [|[k1 v1] d']; cbn;
    try discriminate; [reflexivity|].
  intros [= -> H]. now rewrite (IH d' H).
Qed.

Lemma choice_flags_keep_mem (choice_flags user_vals target_vals : dict) (k : string) :
  mem k target_vals = true ->
  mem k (_apply_choice_flags choice_flags user_vals target_vals) = true.
Proof.
  revert target_vals. induction choice_flags as [|[n v] cf IH]; intros t Ht;
    [exact Ht|].
  cbn [_apply_choice_flags]. apply IH.
  destruct (is_none (get user_vals n)); [now apply mem_set_keeps|exact Ht].
Qed.

Lemma apply_choice_keeps_mem (fd : flagdef) (flag_val : val)
    (user_vals target_vals : dict) (c : choice) (k : string) :
  mem k target_vals = true ->
  mem k (apply_choice fd flag_val user_vals target_vals c) = true.
Proof.
  intros Ht. unfold apply_choice.
  destruct (negb (eqb (or_ (calias c) (cvalue c)) flag_val)); [exact Ht|].
  assert (Ht' : mem k (if truthy (calias c)
                       then set target_vals (name fd) (cvalue c)
                       else target_vals) = true)
    by (destruct (truthy (calias c)); [now apply mem_set_keeps|exact Ht]).
  destruct (cflags c); [exact Ht'|now apply choice_flags_keep_mem].
Qed.

Lemma choice_vals_keep_mem (flagdefs : list flagdef) (user_vals target_vals : dict)
    (k : string) :
  mem k target_vals = true ->
  mem k (_apply_choice_vals flagdefs user_vals target_vals) = true.
Proof.
  unfold _apply_choice_vals. revert target_vals.
  induction flagdefs as [|fd fds IH]; intros t Ht; [exact Ht|].
  cbn [fold_left]. apply IH. unfold apply_flagdef_choices.
  destruct (choices fd) as [|c cs]; [exact Ht|].
  destruct (is_none (get t (name fd))); [exact Ht|].
  generalize (get t (name fd)) as flag_val. generalize (c :: cs) as l.
  clear - Ht. intros l flag_val. revert t Ht.
  induction l as [|c l IHl]; intros t Ht; [exact Ht|].
  cbn [fold_left]. apply IHl. now apply apply_choice_keeps_mem.
Qed.

(** X17: The flag values that [flag_vals_for_opdef] returns have an entry for
    every flag definition of the operation, with [force] and without. *)
Theorem resolved_vals_cover_flagdefs (rt : runtime) (flagdefs : list flagdef)
    (user_flag_vals : dict) (force : bool) (resolved : dict) :
  flag_vals_for_opdef rt flagdefs user_flag_vals force = Ok resolved ->
  forall fd, In fd flagdefs -> mem (name fd) resolved = true.
Proof.
  unfold flag_vals_for_opdef.
  destruct (normalize_flag_aliases flagdefs user_flag_vals force) as [r|];
    [|discriminate]. cbn [bind].
  destruct (_apply_coerce_flag_vals rt flagdefs force
              (_apply_default_flag_vals flagdefs r)) as [m|] eqn:Hc; [|discriminate].
  cbn [bind].
  destruct (if negb force
            then bind (_check_no_such_flags m flagdefs) (fun _ =>
                 bind (_check_flag_vals rt m flagdefs) (fun _ =>
                 _check_required_flags m flagdefs))
            else Ok tt); [|discriminate].
  cbn [bind]. intros [= <-] fd Hin. apply choice_vals_keep_mem.
  pose proof (@coercion_keeps_names_aux rt flagdefs force _ _ Hc) as Hk.
  rewrite (mem_same_names _ _ _ Hk).
  now apply defaults_cover.
Qed.

Lemma resolved_vals_cover_flagdefs_witness :
  mem "layers" [("size", Int 1); ("layers", Int 2)] = true.
Proof.
  apply (@resolved_vals_cover_flagdefs Example.rt [Example.size; Example.layers]
           [("size", Str "small")] false [("size", Int 1); ("layers", Int 2)]
           eq_refl Example.layers).
  right. now left.
Defined.

Lemma values_remove (d : dict) (a : string) :
  mem a d = true -> Permutation (map snd d) (get d a :: map snd (remove d a)).
Proof.
  induction d as [|[k v] d IH]; [discriminate|].
  cbn [mem get remove map snd]. destruct (k =? a); [reflexivity|].
  cbn [orb map snd]. intros H. rewrite perm_swap. constructor. now apply IH.
Qed.

Lemma values_set_new (d : dict) (k : string) (v : val) :
  mem k d = false -> map snd (set d k v) = (map snd d ++ [v])%list.
Proof.
  induction d as [|[k0 v0] d IH]; [reflexivity|].
  cbn [mem set]. destruct (k0 =? k); [discriminate|].
  cbn. intros H. now rewrite IH.
Qed.

Lemma mem_remove (d : dict) (a k : string) :
  mem k (remove d a) = true -> mem k d = true.
Proof.
  induction d as [|[k0 v0] d IH]; [discriminate|].
  cbn [remove mem]. destruct (k0 =? a).
  - intros ->. apply orb_true_r.
  - cbn [mem]. destruct (k0 =? k); [reflexivity|exact IH].
Qed.

(** X18: Renaming aliases moves values and loses none: the values after
    [normalize_flag_aliases] are the values before, each as often as before,
    and every name is one that was there or the name of a flag definition.
    It fails only without [force], and then with
    [AliasAndNameSpecifiedError] for a flag definition whose alias is in
    use. *)
Theorem aliases_renamed_values_kept (flagdefs : list flagdef) (flag_vals : dict)
    (force : bool) :
  match normalize_flag_aliases flagdefs flag_vals force with
  | Ok renamed =>
      Permutation (map snd flag_vals) (map snd renamed) /\
      forall k, mem k renamed = true ->
        mem k flag_vals = true \/ exists fd, In fd flagdefs /\ name fd = k
  | Raise e =>
      force = false /\
      exists fd a, In fd flagdefs /\ alias_in_use fd = Some a /\
                   e = AliasAndNameSpecifiedError (name fd) a
  end.
Proof.
  revert flag_vals. induction flagdefs as [|fd fds IH]; intros vals.
  - cbn. split; [reflexivity|auto].
  - cbn [normalize_flag_aliases].
    assert (Hskip :
      match normalize_flag_aliases fds vals force with
      | Ok renamed =>
          Permutation (map snd vals) (map snd renamed) /\
          forall k, mem k renamed = true ->
            mem k vals = true \/ exists fd', In fd' (fd :: fds) /\ name fd' = k
      | Raise e =>
          force = false /\
          exists fd' a, In fd' (fd :: fds) /\ alias_in_use fd' = Some a /\
                        e = AliasAndNameSpecifiedError (name fd') a
      end).
    { specialize (IH vals).
      destruct (normalize_flag_aliases fds vals force) as [r|e].
      - destruct IH as [Hp Hk]. split; [exact Hp|].
        intros k Hm. destruct (Hk k Hm) as [|(fd' & Hin & Hn)]; [now left|].
        right. exists fd'. split; [now right|exact Hn].
      - destruct IH as (Hf & fd' & a & Hin & Ha & He). split; [exact Hf|].
        exists fd', a. split; [now right|]. now split. }
    destruct (alias_in_use fd) as [a|] eqn:Ha; [|exact Hskip].
    destruct (mem a vals) eqn:Hma; cbn [andb]; [|exact Hskip].
    destruct (mem (name fd) vals) eqn:Hmn.
    + destruct force; cbn [negb]; [exact Hskip|].
      split; [reflexivity|]. exists fd, a. split; [now left|]. now split.
    + specialize (IH (set (remove vals a) (name fd) (get vals a))).
      destruct (normalize_flag_aliases fds _ force) as [r|e].
      * destruct IH as [Hp Hk]. split.
        -- rewrite <- Hp. rewrite values_set_new.
           ++ rewrite (values_remove _ _ Hma) at 1.
              apply Permutation_cons_append.
           ++ destruct (mem (name fd) (remove vals a)) eqn:Hr; [|reflexivity].
              apply mem_remove in Hr. congruence.
        -- intros k Hm. destruct (Hk k Hm) as [Hv|(fd' & Hin & Hn)].
           ++ rewrite mem_set in Hv. apply orb_true_iff in Hv as [Hv|Hv].
              ** apply String.eqb_eq in Hv. right. exists fd. split; [now left|exact Hv].
              ** left. now apply mem_remove in Hv.
           ++ right. exists fd'. split; [now right|exact Hn].
      * destruct IH as (Hf & fd' & a' & Hin & Ha' & He). split; [exact Hf|].
        exists fd', a'. split; [now right|]. now split.
Qed.

(** A flag without a value passes the checks of choice, type and range:
    when every flag definition has [None] as its value, [_check_flag_vals]
    succeeds, whatever the choices, type, bounds and split of the flags. *)
Lemma unset_flags_pass_value_checks (rt : runtime) (vals : dict)
    (flagdefs : list flagdef) :
  (forall fd, In fd flagdefs -> get vals (name fd) = None_) ->
  _check_flag_vals rt vals flagdefs = Ok tt.
Proof.
  induction flagdefs as [|fd fds IH]; intros H; [reflexivity|].
  cbn [_check_flag_vals]. rewrite (H fd (or_introl eq_refl)).
  rewrite IH by (intros fd' Hin; apply H; now right).
  cbn [_check_flag_val is_none negb andb]. rewrite andb_false_r.
  unfold _check_flag_val_, _check_flag_choice, _check_flag_type, _check_flag_range.
  destruct (is_flag_function rt None_); [reflexivity|].
  cbn. now rewrite andb_false_r.
Qed.

End FlagsMore.

(** ** Command line arguments *)

Module ArgsFacts.

Import Py Args.
Local Open Scope string_scope.

Lemma nth_split (args : list string) (i : nat) :
  (i < List.length args)%nat ->
  args = (firstn i args ++ nth i args "" :: skipn (i + 1) args)%list.
Proof.
  revert i. induction args as [|a args IH]; intros i Hi; [cbn in Hi; lia|].
  destruct i as [|i]; [reflexivity|].
  cbn [firstn nth Nat.add skipn app]. f_equal. apply IH. cbn in Hi. lia.
Qed.

Lemma skipn_nth (args : list string) (i : nat) :
  (i < List.length args)%nat ->
  skipn i args = nth i args "" :: skipn (i + 1) args.
Proof.
  revert i. induction args as [|a args IH]; intros i Hi; [cbn in Hi; lia|].
  destruct i as [|i]; [reflexivity|].
  cbn [nth Nat.add skipn]. apply IH. cbn in Hi. lia.
Qed.

Lemma split_args_loop_last (args : list string) (n : nat) :
  (n <= List.length args)%nat -> ~ In "--" (skipn n args) ->
  ~ In "--" (fst (split_args_loop args n)) /\
  ((~ In "--" args /\ split_args_loop args n = (args, [])) \/
   args = (snd (split_args_loop args n) ++ "--" :: fst (split_args_loop args n))%list).
Proof.
  induction n as [|i IH]; intros Hn Hfree.
  - cbn in *. split; [exact Hfree|]. left. now split.
  - cbn [split_args_loop]. destruct (String.eqb_spec (nth i args "") "--") as [Heq|Hne].
    + cbn [fst snd]. replace (i + 1)%nat with (S i) by lia. split; [exact Hfree|].
      right. rewrite <- Heq. replace (S i) with (i + 1)%nat by lia.
      apply nth_split. lia.
    + apply IH; [lia|]. rewrite skipn_nth by lia.
      replace (i + 1)%nat with (S i) by lia.
      intros [H|H]; [congruence|contradiction].
Qed.

(** X19: [split_args_for_flags] splits at the last [--]: the flag arguments
    hold no [--], and either [args] holds none, and then all of them are flag
    arguments and there are no other arguments, or [args] is the other
    arguments, a [--] and the flag arguments, in this order. *)
Theorem args_split_at_last_marker (args : list string) :
  ~ In "--" (fst (split_args_for_flags args)) /\
  ((~ In "--" args /\ split_args_for_flags args = (args, [])) \/
   args = (snd (split_args_for_flags args) ++ "--"
           :: fst (split_args_for_flags args))%list).
Proof.
  apply split_args_loop_last; [lia|].
  rewrite skipn_all. exact (fun H => H).
Qed.

Lemma split_batch_loop_filter (flag_args batch_files rest : list string) :
  split_batch_loop flag_args batch_files rest =
  ((batch_files ++ map after_first_char
                     (filter (fun arg => first_char arg =? "@") flag_args))%list,
   (rest ++ filter (fun arg => negb (first_char arg =? "@")) flag_args)%list).
Proof.
  revert batch_files rest. induction flag_args as [|arg args IH]; intros b r.
  - cbn. now rewrite !app_nil_r.
  - cbn [split_batch_loop filter]. destruct (first_char arg =? "@"); cbn [negb map].
    + rewrite IH, <- app_assoc. reflexivity.
    + rewrite IH, <- app_assoc. reflexivity.
Qed.

Lemma batch_arg (arg : string) :
  (first_char arg =? "@") = true -> arg = "@" ++ after_first_char arg.
Proof.
  destruct arg as [|c arg]; [discriminate|]. cbn [first_char after_first_char].
  intros H. apply String.eqb_eq in H. injection H as ->. reflexivity.
Qed.

(** X20: [split_batch_files] sorts the arguments in two without losing or
    reordering any: the batch files are the arguments that start with [@],
    in their order and without the [@]; the rest are the other arguments, in
    their order. So [b] is a batch file exactly when [@b] is an argument. *)
Theorem batch_files_split_off (flag_args : list string) :
  split_batch_files flag_args =
    (map after_first_char (filter (fun arg => first_char arg =? "@") flag_args),
     filter (fun arg => negb (first_char arg =? "@")) flag_args) /\
  (forall b, In b (fst (split_batch_files flag_args)) <-> In ("@" ++ b) flag_args) /\
  (List.length (fst (split_batch_files flag_args))
   + List.length (snd (split_batch_files flag_args)) = List.length flag_args)%nat.
Proof.
  unfold split_batch_files. rewrite split_batch_loop_filter. cbn [app fst snd].
  split; [reflexivity|]. split.
  - intros b. rewrite in_map_iff. split.
    + intros (arg & <- & Hin). apply filter_In in Hin as [Hin Hat].
      now rewrite <- (batch_arg _ Hat).
    + intros Hin. exists ("@" ++ b). split; [reflexivity|].
      apply filter_In. split; [exact Hin|reflexivity].
  - rewrite length_map. induction flag_args as [|arg args IH]; [reflexivity|].
    cbn [filter]. destruct (first_char arg =? "@"); cbn [negb List.length]; lia.
Qed.

Lemma loop_result (paths seen result : list string) :
  remove_duplicates_loop paths seen result =
  (result ++ remove_duplicates_loop paths seen [])%list.
Proof.
  revert seen result. induction paths as [|p ps IH]; intros seen result.
  - cbn. now rewrite app_nil_r.
  - cbn [remove_duplicates_loop]. destruct (existsb (String.eqb p) seen).
    + apply IH.
    + rewrite IH, (IH _ ([] ++ [p])%list), <- app_assoc. reflexivity.
Qed.

Lemma loop_same_seen (paths seen seen' : list string) :
  (forall q, existsb (String.eqb q) seen = existsb (String.eqb q) seen') ->
  remove_duplicates_loop paths seen [] = remove_duplicates_loop paths seen' [].
Proof.
  revert seen seen'. induction paths as [|p ps IH]; intros seen seen' H;
    [reflexivity|].
  cbn [remove_duplicates_loop]. rewrite <- (H p).
  destruct (existsb (String.eqb p) seen); [now apply IH|].
  rewrite loop_result, (loop_result _ (p :: seen')). f_equal.
  apply IH. intros q. cbn [existsb]. now rewrite H.
Qed.

Lemma filter_twice (f g : string -> bool) (l : list string) :
  (forall x, f x = false -> g x = false) ->
  filter g (filter f l) = filter g l.
Proof.
  intros H. induction l as [|x l IH]; [reflexivity|].
  cbn [filter]. destruct (f x) eqn:Hf.
  - cbn [filter]. now rewrite IH.
  - rewrite (H x Hf). exact IH.
Qed.

Lemma filter_both (f g : string -> bool) (l : list string) :
  filter g (filter f l) = filter (fun x => f x && g x) l.
Proof.
  induction l as [|x l IH]; [reflexivity|].
  cbn [filter]. destruct (f x); cbn [filter andb]; [|exact IH].
  destruct (g x); now rewrite IH.
Qed.

Lemma loop_seen_one (paths seen : list string) (p : string) :
  remove_duplicates_loop paths (p :: seen) [] =
  filter (fun q => negb (q =? p)) (remove_duplicates_loop paths seen []).
Proof.
  revert seen. induction paths as [|q ps IH]; intros seen; [reflexivity|].
  cbn [remove_duplicates_loop existsb].
  destruct (String.eqb_spec q p) as [->|Hne]; cbn [orb].
  - rewrite IH. destruct (existsb (String.eqb p) seen); [reflexivity|].
    rewrite (loop_result _ _ ([] ++ [p])%list). cbn [app filter].
    rewrite String.eqb_refl. cbn [negb]. rewrite IH.
    symmetry. apply filter_twice. auto.
  - destruct (existsb (String.eqb q) seen) eqn:Hq; [apply IH|].
    rewrite loop_result, (loop_result _ (q :: seen)). cbn [app filter].
    apply String.eqb_neq in Hne. rewrite Hne. cbn [negb]. f_equal.
    rewrite <- IH. apply loop_same_seen. intros x. cbn [existsb].
    destruct (x =? q), (x =? p); reflexivity.
Qed.

Lemma first_kept (p : string) (paths : list string) :
  _remove_duplicate_paths (p :: paths) =
  p :: filter (fun q => negb (q =? p)) (_remove_duplicate_paths paths).
Proof.
  unfold _remove_duplicate_paths. cbn [remove_duplicates_loop existsb].
  rewrite loop_result. cbn [app]. f_equal. apply loop_seen_one.
Qed.

Lemma same_paths (paths : list string) (p : string) :
  In p (_remove_duplicate_paths paths) <-> In p paths.
Proof.
  induction paths as [|q ps IH]; [reflexivity|].
  rewrite first_kept. cbn [In]. rewrite filter_In, IH.
  destruct (String.eqb_spec p q) as [->|Hne].
  - split; auto.
  - split; [intros [H|[H _]]; auto|].
    intros [H|H]; [auto|]. right. now split.
Qed.

Lemma NoDup_filter (f : string -> bool) (l : list string) :
  NoDup l -> NoDup (filter f l).
Proof.
  induction 1 as [|x l Hx Hl IH]; [constructor|].
  cbn [filter]. destruct (f x); [|exact IH].
  constructor; [|exact IH]. rewrite filter_In. tauto.
Qed.

Lemma filter_all (f : string -> bool) (l : list string) :
  (forall x, In x l -> f x = true) -> filter f l = l.
Proof.
  induction l as [|x l IH]; intros H; [reflexivity|].
  cbn [filter]. rewrite (H x (or_introl eq_refl)). f_equal.
  apply IH. intros y Hy. apply H. now right.
Qed.

Lemma duplicates_gone (paths : list string) : NoDup (_remove_duplicate_paths paths).
Proof.
  induction paths as [|p l IH]; [constructor|].
  rewrite first_kept. constructor; [|now apply NoDup_filter].
  rewrite filter_In, String.eqb_refl. cbn. intros [_ H]. discriminate.
Qed.

Lemma unique_paths_unchanged (paths : list string) :
  NoDup paths -> _remove_duplicate_paths paths = paths.
Proof.
  induction 1 as [|p l Hp Hl IH]; [reflexivity|].
  rewrite first_kept, IH. f_equal. apply filter_all.
  intros x Hx. apply negb_true_iff, String.eqb_neq. congruence.
Qed.

(** X21: [_remove_duplicate_paths] keeps the first occurrence of every path:
    no path is twice in the result, the result has the paths of the
    argument and no other, the first path stays first and what follows it is
    the result for the other paths without it.  A list without duplicates is
    returned as it is, so removing duplicates twice changes nothing more. *)
Theorem first_occurrences_kept (paths : list string) :
  NoDup (_remove_duplicate_paths paths) /\
  (forall p, In p (_remove_duplicate_paths paths) <-> In p paths) /\
  (forall p, _remove_duplicate_paths (p :: paths) =
             p :: filter (fun q => negb (q =? p)) (_remove_duplicate_paths paths)) /\
  (NoDup paths -> _remove_duplicate_paths paths = paths) /\
  _remove_duplicate_paths (_remove_duplicate_paths paths)
  = _remove_duplicate_paths paths.
Proof.
  split; [apply duplicates_gone|]. split; [intros p; apply same_paths|].
  split; [intros p; apply first_kept|]. split; [apply unique_paths_unchanged|].
  apply unique_paths_unchanged, duplicates_gone.
Qed.

Lemma duplicates_of_app (a b : list string) :
  _remove_duplicate_paths (a ++ b) =
  (_remove_duplicate_paths a ++ filter (unseen a) (_remove_duplicate_paths b))%list.
Proof.
  induction a as [|p a IH].
  - cbn [app]. symmetry. apply filter_all. reflexivity.
  - cbn [app]. rewrite !first_kept, IH, filter_app. cbn [app]. do 2 f_equal.
    rewrite filter_both. apply filter_ext. intros q.
    unfold unseen. cbn [existsb]. rewrite negb_orb, andb_comm. reflexivity.
Qed.

(** X22: The source code of the operation comes first on the Python path: the
    paths of [python_path_env] are the source code paths without their
    duplicates, followed by the Guild path and the entries of [PYTHONPATH]
    that are not source code paths.  Source code paths given once each
    are kept as they are at the front. *)
Theorem source_code_paths_first (sourcecode_paths : list string)
    (_guild_path : string) (_os_env : list string) (pathsep : string) :
  python_path_env sourcecode_paths _guild_path _os_env pathsep =
    String.concat pathsep
      (_remove_duplicate_paths sourcecode_paths
       ++ filter (unseen sourcecode_paths)
            (_remove_duplicate_paths (_guild_path :: _os_env)))%list /\
  (NoDup sourcecode_paths ->
   exists rest,
     python_path_env sourcecode_paths _guild_path _os_env pathsep =
       String.concat pathsep (sourcecode_paths ++ rest)%list /\
     forall p, In p rest -> ~ In p sourcecode_paths).
Proof.
  unfold python_path_env. rewrite duplicates_of_app. cbn [app].
  split; [reflexivity|]. intros Hnd.
  exists (filter (unseen sourcecode_paths)
            (_remove_duplicate_paths (_guild_path :: _os_env))).
  rewrite (unique_paths_unchanged Hnd). split; [reflexivity|].
  intros p Hp Hin. apply filter_In in Hp as [_ Hp].
  unfold unseen in Hp. apply negb_true_iff in Hp.
  assert (Hex : existsb (String.eqb p) sourcecode_paths = true).
  { apply existsb_exists. exists p. split; [exact Hin|apply String.eqb_refl]. }
  congruence.
Qed.

Lemma partition_none (sep : ascii) (s : string) :
  partition sep s = None <-> has_char sep s = false.
Proof.
  induction s as [|c s IH]; [easy|].
  cbn [partition has_char]. destruct (Ascii.eqb c sep); [easy|].
  cbn [orb]. rewrite <- IH. destruct (partition sep s) as [[h t]|]; easy.
Qed.

Lemma partition_first (sep : ascii) (before after : string) :
  has_char sep before = false ->
  partition sep (before ++ String sep after) = Some (before, after).
Proof.
  induction before as [|c s IH]; cbn [has_char append partition].
  - now rewrite Ascii.eqb_refl.
  - intros H. apply orb_false_iff in H as [Hc Hs]. now rewrite Hc, IH.
Qed.

Lemma partition_parts (sep : ascii) (s before after : string) :
  partition sep s = Some (before, after) ->
  s = before ++ String sep after /\ has_char sep before = false.
Proof.
  revert before. induction s as [|c s IH]; intros before; [discriminate|].
  cbn [partition]. destruct (Ascii.eqb_spec c sep) as [->|Hne].
  - intros [= <- <-]. now split.
  - destruct (partition sep s) as [[h t]|]; [|discriminate].
    intros [= <- <-]. destruct (IH h eq_refl) as [-> Hh]. split; [reflexivity|].
    cbn [has_char]. rewrite Hh. apply Ascii.eqb_neq in Hne. now rewrite Hne.
Qed.

Section Assigns.

Variable decode_flag_val : string -> option string -> val.
Variable format_flag : val -> string.
Variable expanduser : string -> string.

(** An argument is split at its first [=]: the name is what is before it
    and holds no [=], the text of the value is all that follows, further [=]
    included; an argument without [=] raises [ArgValueError] with the
    argument. *)
Lemma argument_split_at_first_equals (arg : string) (flagdefs : list Flags.flagdef) :
  match _parse_flag_arg decode_flag_val arg flagdefs with
  | Ok (flag_name, v) =>
      has_char equals_sign flag_name = false /\
      exists text,
        arg = flag_name ++ "=" ++ text /\
        v = decode_flag_val text
              match flagdefs with
              | [] => None
              | _ => _flag_type_for_assign_arg flag_name flagdefs
              end
  | Raise e => e = ArgValueError arg /\ has_char equals_sign arg = false
  end.
Proof.
  unfold _parse_flag_arg. destruct (partition equals_sign arg) as [[n text]|] eqn:Hp.
  - destruct (partition_parts _ _ Hp) as [-> Hn]. split; [exact Hn|].
    exists text. now split.
  - split; [reflexivity|]. now apply partition_none.
Qed.

(** X23: What [flag_assign] writes, [_parse_flag_arg] reads back: for a name
    without [=], the argument [name=text] gives the name and the decoded
    text, whatever the text of the value is. *)
Theorem assignment_read_back (flag_name : string) (v : val)
    (flagdefs : list Flags.flagdef) :
  has_char equals_sign flag_name = false ->
  _parse_flag_arg decode_flag_val (flag_assign format_flag flag_name v) flagdefs =
    Ok (flag_name,
        decode_flag_val (format_flag v)
          match flagdefs with
          | [] => None
          | _ => _flag_type_for_assign_arg flag_name flagdefs
          end).
Proof.
  intros Hn. unfold _parse_flag_arg, flag_assign.
  change (flag_name ++ "=" ++ format_flag v)
    with (flag_name ++ String equals_sign (format_flag v)).
  now rewrite (@partition_first _ _ (format_flag v) Hn).
Qed.

Lemma set_error_same (errors : list (string * exn)) (k : string) :
  (forall k' e, In (k', e) errors -> e = ArgValueError k') ->
  forall x, In x (set_error errors k (ArgValueError k)) <->
            In x errors \/ x = (k, ArgValueError k).
Proof.
  induction errors as [|[k0 e0] errs IH]; intros Hinv x.
  - cbn. intuition.
  - cbn [set_error]. destruct (String.eqb_spec k0 k) as [->|Hne].
    + rewrite (Hinv k e0 (or_introl eq_refl)). cbn [In]. intuition.
    + cbn [In]. rewrite IH by (intros k' e H; apply Hinv; now right). tauto.
Qed.

Lemma parse_loop_errors (args : list string) (flagdefs : list Flags.flagdef)
    (parsed : dict) (errors : list (string * exn)) :
  (forall k e, In (k, e) errors -> e = ArgValueError k) ->
  forall k e,
    In (k, e) (snd (parse_loop decode_flag_val args flagdefs parsed errors)) <->
    In (k, e) errors \/
    (In k args /\ has_char equals_sign k = false /\ e = ArgValueError k).
Proof.
  revert parsed errors. induction args as [|arg args IH]; intros parsed errors Hinv k e.
  - cbn. tauto.
  - cbn [parse_loop]. unfold _parse_flag_arg, before_first.
    destruct (partition equals_sign arg) as [[n text]|] eqn:Hp.
    + rewrite IH by exact Hinv. cbn [In].
      destruct (partition_parts _ _ Hp) as [Harg Hn].
      split; [tauto|]. intros [H|([->|H] & Hk & He)]; [tauto| |tauto].
      apply partition_none in Hk. congruence.
    + rewrite IH.
      * rewrite set_error_same by exact Hinv. cbn [In].
        apply partition_none in Hp. split.
        -- intros [[H|[= -> ->]]|H]; tauto.
        -- intros [H|([->|H] & Hk & ->)]; tauto.
      * intros k' e' H. apply set_error_same in H; [|exact Hinv].
        destruct H as [H|[= -> ->]]; [now apply Hinv|reflexivity].
Qed.

Lemma parse_loop_values (args : list string) (flagdefs : list Flags.flagdef)
    (parsed : dict) (errors : list (string * exn)) (flag_name : string) :
  get (fst (parse_loop decode_flag_val args flagdefs parsed errors)) flag_name =
  match last_assigned decode_flag_val flagdefs flag_name args with
  | Some v => v
  | None => get parsed flag_name
  end.
Proof.
  revert parsed errors. induction args as [|arg args IH]; intros parsed errors;
    [reflexivity|].
  cbn [parse_loop last_assigned].
  destruct (_parse_flag_arg decode_flag_val arg flagdefs) as [[n v]|e].
  - rewrite IH.
    destruct (last_assigned decode_flag_val flagdefs flag_name args); [reflexivity|].
    destruct (String.eqb_spec n flag_name) as [->|Hne].
    + apply PyFacts.get_set_same.
    + now apply PyFacts.get_set_other.
  - rewrite IH.
    now destruct (last_assigned decode_flag_val flagdefs flag_name args).
Qed.

(** X24: [parse_flag_assigns] sorts every argument, after [expanduser], into
    the flags or the errors: there is an error under [k] exactly when [k] is
    an argument without [=], and it is [ArgValueError] for [k]; a flag has
    the value of the last argument that assigns to it, and no value when no
    argument does. *)
Theorem assigns_parsed_or_reported (args : list string)
    (flagdefs : list Flags.flagdef) :
  let expanded := map expanduser args in
  let parsed := fst (parse_flag_assigns decode_flag_val expanduser args flagdefs) in
  let errors := snd (parse_flag_assigns decode_flag_val expanduser args flagdefs) in
  (forall k e, In (k, e) errors <->
     In k expanded /\ has_char equals_sign k = false /\ e = ArgValueError k) /\
  (forall flag_name,
     get parsed flag_name =
     match last_assigned decode_flag_val flagdefs flag_name expanded with
     | Some v => v
     | None => None_
     end).
Proof.
  cbn zeta. unfold parse_flag_assigns. split.
  - intros k e. rewrite parse_loop_errors by (intros ? ? []). cbn [In]. tauto.
  - intros n. apply parse_loop_values.
Qed.

End Assigns.

Lemma assignment_read_back_witness :
  _parse_flag_arg (fun text _ => Str text)
    (flag_assign (Flags.text Flags.Example.rt) "lr" (Str "a=b")) []
  = Ok ("lr", Str "a=b").
Proof.
  apply (@assignment_read_back (fun text _ => Str text)
           (Flags.text Flags.Example.rt) "lr" (Str "a=b") []).
  reflexivity.
Defined.

End ArgsFacts.

(** ** Flags given as options *)

Module ArgFlagsFacts.

Import Py Args ArgFlags.
Local Open Scope string_scope.

Lemma key_eqb_refl (k : option string) : key_eqb k k = true.
Proof. destruct k; [apply String.eqb_refl|reflexivity]. Qed.

Lemma key_eqb_eq (a b : option string) : key_eqb a b = true -> a = b.
Proof.
  destruct a, b; cbn; try discriminate; [|reflexivity].
  intros H. apply String.eqb_eq in H. now subst.
Qed.

Lemma lookup_store (fl : flags) (k k' : option string) (v : val) :
  lookup (store fl k v) k' = if key_eqb k k' then Some v else lookup fl k'.
Proof.
  induction fl as [|[k0 v0] fl IH]; [reflexivity|].
  cbn [store lookup]. destruct (key_eqb k0 k) eqn:E; cbn [lookup].
  - apply key_eqb_eq in E. subst k0. now destruct (key_eqb k k').
  - rewrite IH. destruct (key_eqb k0 k') eqn:E'; [|reflexivity].
    apply key_eqb_eq in E'. subst k0.
    destruct (key_eqb k k') eqn:E''; [|reflexivity].
    apply key_eqb_eq in E''. subst k'. now rewrite key_eqb_refl in E.
Qed.

Lemma store_keeps (fl : flags) (k k' : option string) (v : val) :
  lookup fl k' <> None -> lookup (store fl k v) k' <> None.
Proof.
  intros H. rewrite lookup_store. now destruct (key_eqb k k').
Qed.

Lemma store_key (fl : flags) (k : option string) (v : val) :
  lookup (store fl k v) k <> None.
Proof. now rewrite lookup_store, key_eqb_refl. Qed.

Lemma maybe_switch_keeps (fl : flags) (name k : option string) :
  lookup fl k <> None -> lookup (_maybe_switch fl name) k <> None.
Proof.
  intros H. unfold _maybe_switch. destruct name; [|exact H].
  destruct (lookup fl (Some s)); [exact H|now apply store_keeps].
Qed.

Lemma maybe_switch_final (fl : flags) (name k : option string) :
  covered fl name k -> lookup (_maybe_switch fl name) k <> None.
Proof.
  intros [H|[-> Hn]]; [now apply maybe_switch_keeps|].
  unfold _maybe_switch. destruct name as [n|]; [|contradiction].
  destruct (lookup fl (Some n)) eqn:E; [congruence|apply store_key].
Qed.

Lemma set_or_append_keeps (fl : flags) (name k : option string) (v : val) :
  lookup fl k <> None -> lookup (_set_or_append_flag fl name v) k <> None.
Proof.
  intros H. unfold _set_or_append_flag.
  destruct (lookup fl name) as [[| | | | |]|]; now apply store_keeps.
Qed.

Lemma set_or_append_key (fl : flags) (name : option string) (v : val) :
  lookup (_set_or_append_flag fl name v) name <> None.
Proof.
  unfold _set_or_append_flag.
  destruct (lookup fl name) as [[| | | | |]|]; apply store_key.
Qed.

Section Decode.

Variable decode_yaml : string -> val.

Lemma covered_switch (fl : flags) (name k new : option string) :
  new <> None -> covered fl name k -> covered (_maybe_switch fl name) new k.
Proof. intros _ H. left. now apply maybe_switch_final. Qed.

Lemma covered_set (fl : flags) (name k : option string) (v : val) :
  covered fl name k -> covered (_set_or_append_flag fl name v) name k.
Proof.
  intros [H|[-> Hn]]; left; [now apply set_or_append_keeps|apply set_or_append_key].
Qed.

Lemma loop_covered (flag_args : list string) (fl : flags) (name k : option string)
    (other_args : list string) :
  covered fl name k ->
  covered (fst (fst (args_loop decode_yaml flag_args fl name other_args)))
          (snd (fst (args_loop decode_yaml flag_args fl name other_args))) k.
Proof.
  revert fl name other_args.
  induction flag_args as [|arg args IH]; intros fl name other Hc; [exact Hc|].
  cbn [args_loop].
  destruct (substring 0 2 arg =? "--").
  { apply IH. now apply covered_switch. }
  destruct (substring 0 1 arg =? "-").
  { cbn zeta. destruct (isinstance_float_int (decode_yaml arg)).
    { apply IH. now apply covered_set. }
    destruct (String.length arg =? 2)%nat.
    { apply IH. now apply covered_switch. }
    destruct (2 <? String.length arg)%nat; [|now apply IH].
    apply IH. apply covered_set. now apply covered_switch. }
  destruct name as [n|]; apply IH; [now apply covered_set|exact Hc].
Qed.

Lemma loop_option (flag_args : list string) (fl : flags) (name : option string)
    (other_args : list string) (arg n : string) :
  In arg flag_args -> option_of decode_yaml arg = Some n ->
  covered (fst (fst (args_loop decode_yaml flag_args fl name other_args)))
          (snd (fst (args_loop decode_yaml flag_args fl name other_args))) (Some n).
Proof.
  revert fl name other_args.
  induction flag_args as [|a args IH]; intros fl name other Hin Hopt; [contradiction|].
  destruct Hin as [->|Hin].
  - cbn [args_loop]. unfold option_of in Hopt.
    destruct (substring 0 2 arg =? "--").
    { injection Hopt as <-. apply loop_covered. right. now split. }
    destruct (substring 0 1 arg =? "-"); [|discriminate].
    cbn zeta. destruct (isinstance_float_int (decode_yaml arg)); [discriminate|].
    destruct (String.length arg =? 2)%nat eqn:H2.
    { apply Nat.eqb_eq in H2. rewrite H2 in Hopt. cbn in Hopt.
      injection Hopt as <-. apply loop_covered. right. now split. }
    destruct (2 <=? String.length arg)%nat eqn:Hle; [|discriminate].
    injection Hopt as <-.
    apply Nat.leb_le in Hle. apply Nat.eqb_neq in H2.
    assert (Hlt : (2 <? String.length arg)%nat = true) by (apply Nat.ltb_lt; lia).
    rewrite Hlt. apply loop_covered. left. apply set_or_append_key.
  - cbn [args_loop].
    destruct (substring 0 2 a =? "--"); [now apply IH|].
    destruct (substring 0 1 a =? "-").
    { cbn zeta. destruct (isinstance_float_int (decode_yaml a)); [now apply IH|].
      destruct (String.length a =? 2)%nat; [now apply IH|].
      destruct (2 <? String.length a)%nat; now apply IH. }
    destruct name; now apply IH.
Qed.

(** X25: Every option among the flag arguments becomes a flag: for [--name],
    [-n] and [-nvalue] (where the text is not a number) the flags returned
    by [args_to_flags] have the key, also when no value follows the option
    and when it is the last argument. *)
Theorem options_become_flags (args : list string) (arg n : string) :
  In arg (fst (split_args_for_flags args)) ->
  option_of decode_yaml arg = Some n ->
  lookup (fst (args_to_flags decode_yaml args)) (Some n) <> None.
Proof.
  unfold args_to_flags. destruct (split_args_for_flags args) as [flag_args before].
  cbn [fst]. intros Hin Hopt.
  pose proof (loop_option flag_args [] None before arg Hin Hopt) as H.
  destruct (args_loop decode_yaml flag_args [] None before) as [[fl name] other].
  cbn [fst snd] in *. now apply maybe_switch_final.
Qed.

Lemma double_dash (arg : string) :
  (substring 0 1 arg =? "-") = false -> (substring 0 2 arg =? "--") = false.
Proof.
  destruct arg as [|c [|c' arg]]; cbn [substring]; try reflexivity.
  - rewrite !String.eqb_neq. congruence.
  - rewrite !String.eqb_neq. congruence.
Qed.

Lemma loop_plain (flag_args other_args : list string) :
  (forall arg, In arg flag_args -> (substring 0 1 arg =? "-") = false) ->
  args_loop decode_yaml flag_args [] None other_args
  = ([], None, (other_args ++ flag_args)%list).
Proof.
  revert other_args. induction flag_args as [|arg args IH]; intros other H.
  - cbn. now rewrite app_nil_r.
  - cbn [args_loop]. rewrite (double_dash _ (H arg (or_introl eq_refl))).
    rewrite (H arg (or_introl eq_refl)).
    rewrite IH by (intros a Ha; apply H; now right).
    now rewrite <- app_assoc.
Qed.

(** X26: Arguments of which none starts with [-] give no flags: all of them
    are returned as other arguments, in their order. *)
Theorem plain_args_are_other_args (args : list string) :
  (forall arg, In arg args -> (substring 0 1 arg =? "-") = false) ->
  args_to_flags decode_yaml args = ([], args).
Proof.
  intros H. unfold args_to_flags.
  assert (Hfree : ~ In "--" args) by (intros Hin; now apply H in Hin).
  destruct (@ArgsFacts.split_args_loop_last args (List.length args))
    as [_ [[_ Hs]|Hs]]; [lia|now rewrite skipn_all| |].
  - unfold split_args_for_flags. rewrite Hs.
    now rewrite (loop_plain args [] H).
  - exfalso. apply Hfree. rewrite Hs. apply in_or_app. right. now left.
Qed.

End Decode.

Lemma options_become_flags_witness :
  lookup (fst (args_to_flags Str ["train.py"; "--"; "--lr"; "0.1"; "-v"]))
         (Some "v") <> None.
Proof.
  apply (@options_become_flags Str ["train.py"; "--"; "--lr"; "0.1"; "-v"] "-v" "v").
  - cbn. tauto.
  - reflexivity.
Defined.

Lemma plain_args_are_other_args_witness :
  args_to_flags Str ["train.py"; "data"] = ([], ["train.py"; "data"]).
Proof.
  apply (@plain_args_are_other_args Str ["train.py"; "data"]).
  intros arg [<-|[<-|[]]]; reflexivity.
Defined.

End ArgFlagsFacts.

(** ** Flags from config files *)

Module ConfigFacts.

Import Data ConfigFlags.
Local Open Scope string_scope.

Lemma substring_all (s : string) (m : nat) :
  (String.length s <= m)%nat -> substring 0 m s = s.
Proof.
  revert m. induction s as [|c s IH]; intros m Hm.
  - now destruct m.
  - destruct m as [|m]; [cbn in Hm; lia|]. cbn [substring]. f_equal.
    apply IH. cbn in Hm. lia.
Qed.

Lemma substring_after (p r : string) (m : nat) :
  substring (String.length p) m (p ++ r) = substring 0 m r.
Proof. induction p as [|c p IH]; [reflexivity|exact IH]. Qed.

Lemma from_prefix (p r : string) : ArgFlags.from (String.length p) (p ++ r) = r.
Proof.
  unfold ArgFlags.from. rewrite substring_after. apply substring_all.
  rewrite DelimitedFacts.length_append. lia.
Qed.

Lemma find_in_sources_first (config_source_uri : string) (sources : list source) :
  match find_in_sources config_source_uri sources with
  | Some source => In source sources /\ uri source = config_source_uri
  | None => forall source, In source sources -> uri source <> config_source_uri
  end.
Proof.
  induction sources as [|s sources IH]; [intros ? []|].
  cbn [find_in_sources]. destruct (String.eqb_spec (uri s) config_source_uri) as [He|Hne].
  - split; [now left|exact He].
  - destruct (find_in_sources config_source_uri sources) as [s'|].
    + destruct IH as [Hin Hu]. split; [now right|exact Hu].
    + intros s' [<-|Hin]; [exact Hne|now apply IH].
Qed.

(** X27: The config source of an operation is what follows [config:] in its
    [flags_dest], and there is none for another [flags_dest]; the resource
    source that [_find_config_res_source] returns for it is a source of the
    operation whose uri is that [flags_dest], and when it returns [None] the
    operation has no such source. *)
Theorem config_source_named_by_flags_dest (flags_dest : option string) (src : string)
    (resdefs : list (list source)) :
  (_config_src flags_dest = Some src <-> flags_dest = Some ("config:" ++ src)) /\
  match _find_config_res_source resdefs src with
  | Some source => In source (List.concat resdefs) /\ uri source = "config:" ++ src
  | None =>
      forall source, In source (List.concat resdefs) -> uri source <> "config:" ++ src
  end.
Proof.
  split.
  - unfold _config_src. split.
    + destruct flags_dest as [dest|]; [|discriminate].
      destruct (dest =? ""); [discriminate|]. cbn [negb andb].
      destruct (prefix "config:" dest) eqn:Hp; [|discriminate].
      destruct (DelimitedFacts.prefix_inv _ _ Hp) as [rest ->].
      change 7%nat with (String.length "config:"). rewrite from_prefix.
      now intros [= ->].
    + intros ->. rewrite DelimitedFacts.prefix_append.
      change 7%nat with (String.length "config:"). now rewrite from_prefix.
  - induction resdefs as [|sources resdefs IH]; [intros ? []|].
    cbn [_find_config_res_source List.concat].
    pose proof (find_in_sources_first ("config:" ++ src) sources) as Hf.
    destruct (find_in_sources ("config:" ++ src) sources) as [s|].
    + destruct Hf as [Hin Hu]. split; [apply in_or_app; now left|exact Hu].
    + destruct (_find_config_res_source resdefs src) as [s|].
      * destruct IH as [Hin Hu]. split; [apply in_or_app; now right|exact Hu].
      * intros s Hin. apply in_app_or in Hin as [Hin|Hin]; [now apply Hf|now apply IH].
Qed.

Section Scalars.

Variable scalar : Type.

Lemma data_induction (P : data scalar -> Prop) :
  (forall a, P (Scalar a)) ->
  (forall items, P (Seq items)) ->
  (forall items, Forall (fun kv => P (snd kv)) items -> P (Map items)) ->
  forall d, P d.
Proof.
  intros Hs Hq Hm. fix IH 1. intros [a|items|items]; [apply Hs|apply Hq|].
  apply Hm. induction items as [|[k v] items IHi]; constructor; [apply IH|exact IHi].
Qed.

Lemma iter_keyvals_cons (k : string) (val : data scalar)
    (items : list (string * data scalar)) :
  _iter_keyvals (Map ((k, val) :: items)) =
  match val with
  | Map _ =>
      List.app (map (fun nv => (k ++ "." ++ fst nv, snd nv)) (_iter_keyvals val))
               (_iter_keyvals (Map items))
  | _ => (k, val) :: _iter_keyvals (Map items)
  end.
Proof. reflexivity. Qed.

Lemma leaf_at_cons (k : string) (val : data scalar)
    (items : list (string * data scalar)) (path : list string) (v : data scalar) :
  leaf_at (Map ((k, val) :: items)) path v <->
  (path = [k] /\ v = val /\ is_dict val = false) \/
  (exists sub path', val = Map sub /\ path = k :: path' /\ leaf_at (Map sub) path' v) \/
  leaf_at (Map items) path v.
Proof.
  split.
  - intros H. inversion H as [items0 k0 v0 Hin Hd|items0 sub k0 path' v0 Hin Hl]; subst.
    + destruct Hin as [[= <- <-]|Hin]; [now left|].
      right. right. now constructor.
    + destruct Hin as [[= -> ->]|Hin]; [right; left; eauto|].
      right. right. econstructor; eassumption.
  - intros [(-> & -> & Hd)|[(sub & path' & -> & -> & Hl)|H]].
    + constructor; [now left|exact Hd].
    + econstructor; [now left|exact Hl].
    + inversion H as [items0 k0 v0 Hin Hd|items0 sub k0 path' v0 Hin Hl]; subst.
      * constructor; [now right|exact Hd].
      * econstructor; [right; exact Hin|exact Hl].
Qed.

Lemma leaf_path_not_empty (d v : data scalar) (path : list string) :
  leaf_at d path v -> path <> [].
Proof. intros H. inversion H; discriminate. Qed.

Lemma concat_path (k : string) (path : list string) :
  path <> [] -> String.concat "." (k :: path) = k ++ "." ++ String.concat "." path.
Proof. destruct path; [contradiction|reflexivity]. Qed.

(** X28: [_iter_keyvals] yields the values that are not dicts, each once for
    every place it has in the nested dicts and under the keys of that place
    joined by dots: [(name, v)] is yielded exactly when [v] is not a dict
    and is reached from [data] by keys that give [name] when joined.  Data
    that is not a dict yields nothing. *)
Theorem keyvals_are_leaves (d : data scalar) (flag_name : string) (v : data scalar) :
  In (flag_name, v) (_iter_keyvals d) <->
  exists path, leaf_at d path v /\ flag_name = String.concat "." path.
Proof.
  revert flag_name v. induction d as [a|items|items IH] using data_induction;
    intros name v.
  - split; [intros []|]. intros (path & H & _). inversion H.
  - split; [intros []|]. intros (path & H & _). inversion H.
  - induction items as [|[k val] items IHi].
    + split; [intros []|]. intros (path & H & _).
      inversion H as [? ? ? Hin|? ? ? ? ? Hin]; destruct Hin.
    + apply Forall_cons_iff in IH as [IHval IHitems]. cbn [snd] in IHval.
      specialize (IHi IHitems). rewrite iter_keyvals_cons.
      assert (Hrest :
        (exists path, leaf_at (Map ((k, val) :: items)) path v /\
                      name = String.concat "." path) <->
        (v = val /\ name = k /\ is_dict val = false) \/
        (exists sub path', val = Map sub /\ leaf_at (Map sub) path' v /\
                           name = k ++ "." ++ String.concat "." path') \/
        In (name, v) (_iter_keyvals (Map items))).
      { rewrite IHi. split.
        - intros (path & Hl & Hn). apply leaf_at_cons in Hl
            as [(-> & -> & Hd)|[(sub & path' & -> & -> & Hl)|Hl]].
          + left. now repeat split.
          + right. left. exists sub, path'. split; [reflexivity|].
            split; [exact Hl|]. rewrite Hn. apply concat_path.
            now apply leaf_path_not_empty in Hl.
          + right. right. now exists path.
        - intros [(-> & -> & Hd)|[(sub & path' & -> & Hl & ->)|(path & Hl & Hn)]].
          + exists [k]. split; [|reflexivity]. apply leaf_at_cons. now left.
          + exists (k :: path'). split.
            * apply leaf_at_cons. right. left. now exists sub, path'.
            * symmetry. apply concat_path. now apply leaf_path_not_empty in Hl.
          + exists path. split; [|exact Hn]. apply leaf_at_cons. now right; right. }
      rewrite Hrest. destruct val as [a|l|sub].
      * cbn [In]. split.
        -- intros [[= <- <-]|H]; [left; now repeat split|now right; right].
        -- intros [(-> & -> & _)|[(sub & path' & Hv & _)|H]];
             [now left|discriminate|now right].
      * cbn [In]. split.
        -- intros [[= <- <-]|H]; [left; now repeat split|now right; right].
        -- intros [(-> & -> & _)|[(sub & path' & Hv & _)|H]];
             [now left|discriminate|now right].
      * rewrite in_app_iff, in_map_iff. split.
        -- intros [([n' v'] & [= <- <-] & Hin)|H]; [|now right; right].
           apply IHval in Hin as (path' & Hl & ->). cbn [fst].
           right. left. now exists sub, path'.
        -- intros [(_ & _ & Hd)|[(sub' & path' & [= <-] & Hl & ->)|H]];
             [discriminate| |now right].
           left. exists (String.concat "." path', v). split; [reflexivity|].
           apply IHval. now exists path'.
Qed.

End Scalars.

End ConfigFacts.

(** ** Trials of batch files *)

Module TrialsFacts.

Import Data Trials.
Local Open Scope string_scope.

Section Scalars.

Variable scalar : Type.
Variable type_name : data scalar -> string.
Variable repr : data scalar -> string.

Lemma check_items_dicts (items trials result_ : list (data scalar)) (path : string) :
  check_items repr items path trials = Ok result_ ->
  result_ = trials /\ Forall (fun item => is_dict item = true) items.
Proof.
  induction items as [|item items IH]; cbn [check_items].
  - intros [= <-]. now split.
  - destruct (is_dict item) eqn:Hd; [|discriminate]. cbn [negb].
    intros H. destruct (IH H) as [-> Hall]. split; [reflexivity|].
    now constructor.
Qed.

Lemma dicts_check_items (items trials : list (data scalar)) (path : string) :
  Forall (fun item => is_dict item = true) items ->
  check_items repr items path trials = Ok trials.
Proof.
  induction 1 as [|item items Hd Hall IH]; [reflexivity|].
  cbn [check_items]. now rewrite Hd.
Qed.

Lemma check_items_raises (items trials : list (data scalar)) (path : string)
    (e : exn) :
  check_items repr items path trials = Raise e ->
  exists before item after,
    items = (before ++ item :: after)%list /\
    Forall (fun item => is_dict item = true) before /\ is_dict item = false /\
    e = BatchFileError path
          ("invalid data type for trial " ++ repr item ++ ": expected dict").
Proof.
  induction items as [|item items IH]; cbn [check_items]; [discriminate|].
  destruct (is_dict item) eqn:Hd; cbn [negb].
  - intros H. destruct (IH H) as (before & bad & after & -> & Hb & Hbad & He).
    exists (item :: before), bad, after. repeat split; auto.
  - intros [= <-]. exists [], item, items. repeat split; auto.
Qed.

(** X29: The trials that [_coerce_trials_data] returns are dicts: a list of
    dicts is returned as it is and a dict as the list of it alone, so the
    result is returned unchanged when it is coerced again.  Other data
    raises [BatchFileError]: data that is neither a list nor a dict, and a
    list for its first item that is not a dict. *)
Theorem trials_are_dicts (d : data scalar) (path : string) :
  match _coerce_trials_data type_name repr d path with
  | Ok trials =>
      Forall (fun trial => is_dict trial = true) trials /\
      (d = Seq trials \/ (is_dict d = true /\ trials = [d])) /\
      _coerce_trials_data type_name repr (Seq trials) path = Ok trials
  | Raise e =>
      (is_dict d = false /\ (forall items, d <> Seq items) /\
       e = BatchFileError path
             ("invalid data type for trials: expected list or dict, got "
              ++ type_name d)) \/
      (exists before item after,
         d = Seq (before ++ item :: after) /\
         Forall (fun item => is_dict item = true) before /\ is_dict item = false /\
         e = BatchFileError path
               ("invalid data type for trial " ++ repr item ++ ": expected dict"))
  end.
Proof.
  unfold _coerce_trials_data. destruct d as [a|items|items]; cbn [bind].
  - left. repeat split. discriminate.
  - destruct (check_items repr items path items) as [r|e] eqn:Hc.
    + destruct (check_items_dicts _ _ _ Hc) as [-> Hall].
      split; [exact Hall|]. split; [now left|]. cbn [bind]. exact Hc.
    + right. destruct (check_items_raises _ _ _ Hc)
        as (before & bad & after & -> & Hb & Hbad & He).
      now exists before, bad, after.
  - cbn. split; [now repeat constructor|]. split; [right; now split|reflexivity].
Qed.

End Scalars.

End TrialsFacts.

(** ** Parameters of a restart *)

Module RestartFacts.

Import Py Restart.
Local Open Scope string_scope.

Lemma applicable_not_flags (name : string) :
  existsb (String.eqb name) applicable_run_params = true ->
  (name =? "flags") = false.
Proof.
  intros H. apply existsb_exists in H as (x & Hin & Hx).
  apply String.eqb_eq in Hx. subst x.
  unfold applicable_run_params in Hin. cbn [In] in Hin.
  repeat (destruct Hin as [<-|Hin]; [reflexivity|]). contradiction.
Qed.

Lemma mem_names (d : dict) (name : string) :
  existsb (String.eqb name) (map fst d) = mem name d.
Proof.
  induction d as [|[k v] d IH]; [reflexivity|].
  cbn [map fst existsb mem]. now rewrite IH, (String.eqb_sym name k).
Qed.

Lemma restart_loop_result (names : list string) (run_params : dict)
    (user : option dict) (baseline given result_ : dict) (name : string) :
  restart_loop names run_params user baseline given = Ok result_ ->
  mem name result_ =
    mem name given || (existsb (String.eqb name) names && reused user baseline name) /\
  get result_ name =
    if existsb (String.eqb name) names && reused user baseline name
    then get run_params name else get given name.
Proof.
  revert given. induction names as [|n names IH]; intros given.
  - cbn. intros [= <-]. now rewrite orb_false_r.
  - cbn [restart_loop existsb]. cbn zeta.
    destruct (_coerce_run_param n (get run_params n)) as [v|e] eqn:Hv; [|discriminate].
    cbn [bind].
    assert (Hskip :
      reused user baseline n = false ->
      restart_loop names run_params user baseline given = Ok result_ ->
      mem name result_ =
        mem name given
        || (((name =? n) || existsb (String.eqb name) names)
            && reused user baseline name) /\
      get result_ name =
        if ((name =? n) || existsb (String.eqb name) names) && reused user baseline name
        then get run_params name else get given name).
    { intros Hr H. destruct (IH _ H) as [Hm Hg]. rewrite Hm, Hg.
      destruct (String.eqb_spec name n) as [->|]; [|now split].
      rewrite Hr, !andb_false_r. now split. }
    assert (Hkeep :
      existsb (String.eqb n) applicable_run_params = true ->
      reused user baseline n = true ->
      restart_loop names run_params user baseline (set given n v) = Ok result_ ->
      mem name result_ =
        mem name given
        || (((name =? n) || existsb (String.eqb name) names)
            && reused user baseline name) /\
      get result_ name =
        if ((name =? n) || existsb (String.eqb name) names) && reused user baseline name
        then get run_params name else get given name).
    { intros Ha Hr H. destruct (IH _ H) as [Hm Hg]. rewrite Hm, Hg.
      rewrite FlagsMore.mem_set.
      unfold _coerce_run_param in Hv. rewrite (applicable_not_flags _ Ha) in Hv.
      injection Hv as <-.
      destruct (String.eqb_spec name n) as [->|Hne].
      - rewrite String.eqb_refl, Hr, PyFacts.get_set_same. cbn [orb andb].
        rewrite orb_true_r. split; [reflexivity|].
        now destruct (existsb (String.eqb n) names).
      - assert (Hne' : (n =? name) = false) by (apply String.eqb_neq; congruence).
        rewrite Hne'. cbn [orb]. split; [reflexivity|].
        rewrite PyFacts.get_set_other by congruence. reflexivity. }
    destruct (existsb (String.eqb n) applicable_run_params) eqn:Ha; cbn [negb].
    + destruct user as [u|].
      * destruct (mem n u) eqn:Hu; cbn [negb].
        -- destruct (mem n baseline); cbn [negb]; [|discriminate].
           destruct (eqb (get u n) (get baseline n)) eqn:He; cbn [negb].
           ++ apply Hkeep; [reflexivity|]. unfold reused.
              now rewrite Ha, Hu, He.
           ++ apply Hskip. unfold reused. now rewrite Ha, Hu, He.
        -- apply Hkeep; [reflexivity|]. unfold reused. now rewrite Ha, Hu.
      * apply Hkeep; [reflexivity|]. unfold reused. now rewrite Ha.
    + apply Hskip. unfold reused. now rewrite Ha.
Qed.

(** X30: A restart uses a parameter of the run again exactly when it is one of
    the applicable parameters and the user has not given it a value that
    differs from the default of the run command; the value it gets is the
    one saved with the run.  A parameter that is not applicable is never
    returned, whatever the user gave. *)
Theorem restart_reuses_applicable_params (run_params : dict) (user : option dict)
    (baseline result_ : dict) (name : string) :
  run_params_for_restart (Some run_params) user baseline = Ok (Some result_) ->
  mem name result_ = mem name run_params && reused user baseline name /\
  (mem name result_ = true -> get result_ name = get run_params name) /\
  (existsb (String.eqb name) applicable_run_params = false -> mem name result_ = false).
Proof.
  unfold run_params_for_restart.
  destruct (restart_loop (map fst run_params) run_params user baseline [])
    as [r|] eqn:Hl; [|discriminate].
  cbn [bind]. intros [= <-].
  destruct (restart_loop_result _ _ _ _ _ name Hl) as [Hm Hg].
  rewrite mem_names in Hm, Hg. cbn [mem orb] in Hm.
  split; [exact Hm|]. split.
  - intros H. rewrite Hm in H. now rewrite Hg, H.
  - intros Ha. rewrite Hm. unfold reused. rewrite Ha. apply andb_false_r.
Qed.

Lemma restart_reuses_applicable_params_witness :
  let run_params := [("gpus", Str "0"); ("label", Str "a"); ("optimizer", Str "gp")] in
  let user := Some [("gpus", Str "1")] in
  let baseline := [("gpus", None_); ("optimizer", None_)] in
  mem "gpus" [("optimizer", Str "gp")] = mem "gpus" run_params && reused user baseline "gpus".
Proof.
  intros run_params user baseline.
  exact (proj1 (@restart_reuses_applicable_params run_params user baseline
                  [("optimizer", Str "gp")] "gpus" eq_refl)).
Defined.

End RestartFacts.
